(** * IATI core: schema flattening and XSD navigation

    A shallow embedding of [iati/core/schemas.py] (class [Schema]) and of the
    part of the lxml element API that the class drives.

    The markup tree of lxml is a mutable object graph: an element is known by
    its identity, [parent.index(child)] looks a child up by identity and
    [parent.insert(i, child)] moves a child that already hangs somewhere else.
    The embedding keeps that: every element carries an identity [eid], a tree
    is a state that each operation takes and returns, and an element proxy
    held by the Python code is read back through its identity.  Character
    data (text, tails, comments) plays no part in the properties and is left
    out.

    The module [IatiVersion] embeds [iati/version.py] (class [Version]). *)

From Stdlib Require Import List String Ascii Arith Bool Lia PeanoNat.
From Stdlib Require ZArith DecimalString DecimalNat DecimalFacts.
Import ListNotations.
Local Open Scope string_scope.
Local Open Scope list_scope.

(** ** Outcomes of a call: a value or a raised exception *)

Inductive exn : Type :=
| KeyError | AttributeError | ValueError | SyntaxError
| IOError | OSError | XIncludeError | SchemaError.

(** [Beyond] marks a call that leaves the part of lxml embedded here (see
    [find_named] below); nothing is claimed about such a call. *)
Inductive result (A : Type) : Type :=
| Ok (a : A)
| Raise (e : exn)
| Beyond.
Arguments Ok {A} a.
Arguments Raise {A} e.
Arguments Beyond {A}.

Definition bind {A B : Type} (c : result A) (k : A -> result B) : result B :=
  match c with
  | Ok a => k a
  | Raise e => Raise e
  | Beyond => Beyond
  end.

Notation "x <- c ;; k" := (bind c (fun x => k))
  (at level 61, c at next level, right associativity).

(** A [for] loop whose body may raise: the state is threaded left to right. *)
Fixpoint foldM {A S : Type} (body : S -> A -> result S) (l : list A) (s : S)
  : result S :=
  match l with
  | [] => Ok s
  | x :: l' => s' <- body s x ;; foldM body l' s'
  end.

(** ** The element tree of lxml *)

Module Etree.

(** [attrib] and [nsmap] are insertion-ordered dictionaries of strings. *)
Definition dict := list (string * string).

Fixpoint get (k : string) (d : dict) : option string :=
  match d with
  | [] => None
  | (k', v) :: d' => if String.eqb k' k then Some v else get k d'
  end.

(** [k in d] *)
Definition contains (k : string) (d : dict) : bool :=
  match get k d with Some _ => true | None => false end.

(** [d[k] = v]: an existing key keeps its place. *)
Fixpoint set_item (k v : string) (d : dict) : dict :=
  match d with
  | [] => [(k, v)]
  | (k', v') :: d' =>
      if String.eqb k' k then (k', v) :: d' else (k', v') :: set_item k v d'
  end.

(** An element: identity, tag in Clark notation ([{uri}local]), attributes,
    namespace declarations, children in document order. *)
#[local] Unset Elimination Schemes.
Inductive Element : Type :=
| Elem (i : nat) (t : string) (a : dict) (ns : dict) (cs : list Element).
#[local] Set Elimination Schemes.

Definition eid (e : Element) : nat := match e with Elem i _ _ _ _ => i end.
Definition tag (e : Element) : string := match e with Elem _ t _ _ _ => t end.
Definition attrib (e : Element) : dict := match e with Elem _ _ a _ _ => a end.
Definition nsmap (e : Element) : dict := match e with Elem _ _ _ ns _ => ns end.
Definition children (e : Element) : list Element :=
  match e with Elem _ _ _ _ cs => cs end.

Definition set_children (e : Element) (cs : list Element) : Element :=
  match e with Elem i t a ns _ => Elem i t a ns cs end.

Section Element_induction.
Variable P : Element -> Prop.
Hypothesis step : forall i t a ns cs, Forall P cs -> P (Elem i t a ns cs).

Fixpoint Element_tree_ind (e : Element) : P e :=
  match e with
  | Elem i t a ns cs =>
      step i t a ns cs
        ((fix all (l : list Element) : Forall P l :=
            match l with
            | [] => Forall_nil P
            | c :: l' => Forall_cons c (Element_tree_ind c) (all l')
            end) cs)
  end.
End Element_induction.

(** Identities and elements in document order (the element itself first). *)
Fixpoint ids (e : Element) : list nat :=
  match e with Elem i _ _ _ cs => i :: flat_map ids cs end.

Fixpoint iter (e : Element) : list Element :=
  match e with Elem _ _ _ _ cs => e :: flat_map iter cs end.

(** [e.iterdescendants()]: document order, [e] itself left out. *)
Definition iterdescendants (e : Element) : list Element :=
  flat_map iter (children e).

Definition is_tag (t : string) (e : Element) : bool := String.eqb (tag e) t.
Definition is_id (i : nat) (e : Element) : bool := Nat.eqb (eid e) i.

(** [e.find(tag)] and [e.findall(tag)] with a plain tag: direct children. *)
Definition find (e : Element) (t : string) : option Element :=
  List.find (is_tag t) (children e).

Definition findall (e : Element) (t : string) : list Element :=
  filter (is_tag t) (children e).

(** Position of the first element of identity [i] in a child list. *)
Fixpoint position (i : nat) (cs : list Element) : option nat :=
  match cs with
  | [] => None
  | c :: cs' =>
      if is_id i c then Some 0
      else match position i cs' with Some k => Some (S k) | None => None end
  end.

(** [parent.index(child)]: [ValueError] when [child] is not a child. *)
Definition index (parent child : Element) : result nat :=
  match position (eid child) (children parent) with
  | Some k => Ok k
  | None => Raise ValueError
  end.

(** The current state of the element of identity [i] below or at [e]. *)
Fixpoint node_by_id (i : nat) (e : Element) : option Element :=
  match e with
  | Elem j _ _ _ cs =>
      if Nat.eqb j i then Some e
      else (fix first (l : list Element) : option Element :=
              match l with
              | [] => None
              | c :: l' =>
                  match node_by_id i c with
                  | Some n => Some n
                  | None => first l'
                  end
              end) cs
  end.

Fixpoint node_in_forest (i : nat) (cs : list Element) : option Element :=
  match cs with
  | [] => None
  | c :: cs' =>
      match node_by_id i c with
      | Some n => Some n
      | None => node_in_forest i cs'
      end
  end.

(** [child.getparent()], read in the tree rooted at [e]. *)
Fixpoint getparent (i : nat) (e : Element) : option Element :=
  match e with
  | Elem _ _ _ _ cs =>
      if existsb (is_id i) cs then Some e
      else (fix first (l : list Element) : option Element :=
              match l with
              | [] => None
              | c :: l' =>
                  match getparent i c with
                  | Some p => Some p
                  | None => first l'
                  end
              end) cs
  end.

(** Unlinking the element of identity [i] from wherever it hangs. *)
Fixpoint detach_in (i : nat) (e : Element) : Element :=
  match e with
  | Elem j t a ns cs =>
      Elem j t a ns
        ((fix go (l : list Element) : list Element :=
            match l with
            | [] => []
            | c :: l' => if is_id i c then go l' else detach_in i c :: go l'
            end) cs)
  end.

Fixpoint detach (i : nat) (cs : list Element) : list Element :=
  match cs with
  | [] => []
  | c :: cs' => if is_id i c then detach i cs' else detach_in i c :: detach i cs'
  end.

(** Linking [e] in front of the child of identity [i]. *)
Fixpoint insert_before (i : nat) (e : Element) (cs : list Element)
  : list Element :=
  match cs with
  | [] => [e]
  | c :: cs' => if is_id i c then e :: c :: cs' else c :: insert_before i e cs'
  end.

(** [parent.insert(k, e)] for [k >= 0].  lxml picks the child now at position
    [k], unlinks [e] from its present parent and links it in front of that
    child; without a child at [k] the element is appended. *)
Definition insert (parent : Element) (k : nat) (e : Element) : Element :=
  match nth_error (children parent) k with
  | None => set_children parent (detach (eid e) (children parent) ++ [e])
  | Some c =>
      if is_id (eid e) c then parent
      else set_children parent
             (insert_before (eid c) e (detach (eid e) (children parent)))
  end.

(** [etree.strip_elements(e, tag)]: every element of that tag below [e] goes,
    with its whole subtree; [e] itself stays whatever its tag. *)
Fixpoint strip_in (t : string) (e : Element) : Element :=
  match e with
  | Elem j tg a ns cs =>
      Elem j tg a ns
        ((fix go (l : list Element) : list Element :=
            match l with
            | [] => []
            | c :: l' => if is_tag t c then go l' else strip_in t c :: go l'
            end) cs)
  end.

Fixpoint strip_forest (t : string) (cs : list Element) : list Element :=
  match cs with
  | [] => []
  | c :: cs' =>
      if is_tag t c then strip_forest t cs' else strip_in t c :: strip_forest t cs'
  end.

Definition strip_elements (e : Element) (t : string) : Element := strip_in t e.

(** [el.attrib[k] = v] on the element of identity [i] of the tree. *)
Fixpoint set_attrib (i : nat) (k v : string) (e : Element) : Element :=
  match e with
  | Elem j t a ns cs =>
      Elem j t (if Nat.eqb j i then set_item k v a else a) ns
        (map (set_attrib i k v) cs)
  end.

(** A new Python object has an identity no live object has. *)
Definition fresh (e : Element) : nat := S (list_max (ids e)).

End Etree.


Import Etree.

(** ** Constants and collaborators *)

(** Modelled from the spec: the constants module (iati.core.constants) is not
    among the sources.  The Namespace Registry maps the prefix [xsd] to the
    XML Schema namespace, and [NAMESPACE] is that namespace in Clark
    notation, ready to be put in front of a local name. *)
Definition NSMAP : dict := [("xsd", "http://www.w3.org/2001/XMLSchema")].
Definition NAMESPACE : string := "{http://www.w3.org/2001/XMLSchema}".

Definition xi_name : string := "xi".
Definition xi_uri : string := "http://www.w3.org/2001/XInclude".

(** Modelled from the spec: [iati.core.utilities.add_namespace] is not among
    the sources.  It registers one more namespace declaration on the root of
    the tree, merged into the declarations already there. *)
Definition add_namespace (tree : Element) (new_ns_name new_ns_uri : string)
  : Element :=
  match tree with
  | Elem i t a ns cs => Elem i t a (set_item new_ns_name new_ns_uri ns) cs
  end.

(** Python's [s[:-4]]. *)
Definition drop_last4 (s : string) : string :=
  substring 0 (String.length s - 4) s.

Definition dquote : ascii := "034"%char.

(** ** Reading a path with lxml

    [find] and [findall] take their path as text.  A step [prefix:local] is
    resolved through the [namespaces] mapping; an unknown prefix is a
    [SyntaxError]. *)
Definition resolve (namespaces : dict) (prefix local : string) : result string :=
  match get prefix namespaces with
  | Some uri => Ok ("{" ++ uri ++ "}" ++ local)%string
  | None => Raise SyntaxError
  end.

(** [e.findall('p:a/p:b/p:c', namespaces)]: document order. *)
Fixpoint findall_steps (es : list Element) (tags : list string) : list Element :=
  match tags with
  | [] => es
  | t :: tags' => findall_steps (flat_map (fun e => findall e t) es) tags'
  end.

(** A quoted literal of the path language runs from its opening double quote
    to the NEXT double quote; [until_quote] reads the text behind the opening
    quote and gives the literal and what is left behind the closing one. *)
Fixpoint until_quote (s : string) : option (string * string) :=
  match s with
  | EmptyString => None
  | String c s' =>
      if Ascii.eqb c dquote then Some (EmptyString, s')
      else match until_quote s' with
           | Some (lit, rest) => Some (String c lit, rest)
           | None => None
           end
  end.

(** The characters matched by [\s] (a character is a code point below 256). *)
Definition is_space (c : ascii) : bool :=
  let n := nat_of_ascii c in
  (((9 <=? n) && (n <=? 13)) || ((28 <=? n) && (n <=? 32))
   || (n =? 133) || (n =? 160))%nat.

Definition has_name (value : string) (e : Element) : bool :=
  match get "name" (attrib e) with
  | Some v => String.eqb v value
  | None => false
  end.

(** [tree.find('//p:local[@name="' + name + '"]', namespaces)].

    An [ElementTree] path that starts with a slash is searched as
    [.//...]: below the root, the root itself left out.  The predicate is
    read from the text: the literal ends at the first double quote, be it
    the one of the template or one that came with [name].
    - Directly followed by the closing bracket and the end of the path, the
      predicate is [@name='literal'] and the first descendant of that tag and
      name is returned, [None] without one.
    - A literal closed early and followed by a closing bracket, by white
      space or by an exclamation mark lets the rest of [name] go on as path
      text (white space and a lone exclamation mark are read differently by
      different versions of lxml); the lookup may then return an element of
      another name or raise, and none of this is embedded: [Beyond].
    - Followed by anything else, the predicate has more tokens than any form
      lxml knows (or never closes): [SyntaxError]. *)
Definition find_named (tree : Element) (namespaces : dict)
  (prefix local name : string) : result (option Element) :=
  t <- resolve namespaces prefix local ;;
  match until_quote (name ++ String dquote "]")%string with
  | None => Raise SyntaxError
  | Some (literal, rest) =>
      if String.eqb rest "]" then
        Ok (List.find (fun e => is_tag t e && has_name literal e)
                      (iterdescendants tree))
      else
        match rest with
        | EmptyString => Raise SyntaxError
        | String c _ =>
            if Ascii.eqb c "]"%char || Ascii.eqb c "!"%char || is_space c
            then Beyond
            else Raise SyntaxError
        end
  end.

(** ** The Schema class *)

Record Schema : Type := mkSchema {
  _schema_base_tree : Element;
  codelists : list string
}.

Section SchemaClass.

(** Collaborators that are not part of this module:
    [iati.core.resources.resource_filename], [get_schema_path] and
    [load_as_tree], and lxml's [tree.xinclude()]. *)
Variable resource_filename : string -> string.
Variable get_schema_path : string -> string.
Variable load_as_tree : string -> result Element.
Variable xinclude : Element -> result Element.

Definition _change_include_to_xinclude (tree : Element)
  : result (option Element) :=
  (* identify the old info *)
  let include_xpath := (NAMESPACE ++ "include")%string in
  match find tree include_xpath with
  | None => Ok None
  | Some include_el =>
      match get "schemaLocation" (attrib include_el) with
      | None => Raise KeyError
      | Some include_location =>
          (* add namespace for XInclude *)
          let tree1 := add_namespace tree xi_name xi_uri in
          let new_nsmap := set_item xi_name xi_uri NSMAP in
          (* create a new element *)
          let xinclude_el :=
            Elem (fresh tree1) ("{" ++ xi_uri ++ "}include")%string
                 [("href", resource_filename
                             (get_schema_path (drop_last4 include_location)));
                  ("parse", "xml")]
                 new_nsmap [] in
          (* make the path to xml.xsd reference the correct file *)
          let import_xpath := (NAMESPACE ++ "import")%string in
          match find tree1 import_xpath with
          | None => Raise AttributeError
          | Some import_el =>
              let tree2 :=
                set_attrib (eid import_el) "schemaLocation"
                  (resource_filename (get_schema_path "xml")) tree1 in
              (* insert the new element *)
              match getparent (eid import_el) tree2 with
              | None => Raise AttributeError
              | Some parent =>
                  k <- index parent import_el ;;
                  let tree3 := insert tree2 (k + 1) xinclude_el in
                  (* remove the old element *)
                  Ok (Some (strip_elements tree3 include_xpath))
              end
          end
      end
  end.

(** The proxy [el] as the tree has it now. *)
Definition current (root el : Element) : Element :=
  match node_by_id (eid el) root with
  | Some n => n
  | None => el
  end.

(** Body of the inner loop of [_flatten_includes]. *)
Definition hoist_child (nested_schema_el root elem : Element)
  : result Element :=
  (* do not duplicate an import statement *)
  if contains "schemaLocation" (attrib elem) then Ok root
  else
    match getparent (eid nested_schema_el) root with
    | None => Raise AttributeError
    | Some parent =>
        k <- index parent nested_schema_el ;;
        Ok (insert root (k + 1) elem)
    end.

(** Body of the outer loop: every [findall] result is an element, so the
    [isinstance] test holds; [nested_schema_el[:]] copies the child list as
    it is when the marker's turn comes. *)
Definition hoist_marker (root nested_schema_el : Element) : result Element :=
  foldM (hoist_child nested_schema_el)
        (children (current root nested_schema_el)) root.

(** Second half of [_flatten_includes]: remove nested schema elements. *)
Definition remove_nested_schemas (tree : Element) : result Element :=
  let schema_xpath := (NAMESPACE ++ "schema")%string in
  tree' <- foldM hoist_marker (findall tree schema_xpath) tree ;;
  (* remove the nested schema elements *)
  Ok (strip_elements tree' schema_xpath).

Definition _flatten_includes (base_tree : Element) : result Element :=
  (* change the include to a format that lxml can read *)
  r <- _change_include_to_xinclude base_tree ;;
  match r with
  | None => Ok base_tree
  | Some tree =>
      (* adopt the included elements *)
      tree' <- xinclude tree ;;
      remove_nested_schemas tree'
  end.

Definition load_failure_message (path : string) : string :=
  ("Failed to load tree at '" ++ path ++ "' when creating Schema.")%string.

(** [Schema.__init__].  Modelled from the spec: [log_error] of
    iati.core.utilities is not among the sources; logging appends the message
    to an error log, which is threaded as state.  A raised exception leaves
    the caller without an object. *)
Definition __init__ (path : string) (log : list string)
  : list string * result Schema :=
  match load_as_tree path with
  | Raise IOError | Raise OSError =>
      (log ++ [load_failure_message path], Raise SchemaError)
  | Raise e => (log, Raise e)
  | Beyond => (log, Beyond)
  | Ok loaded_tree =>
      (log, tree <- _flatten_includes loaded_tree ;; Ok (mkSchema tree []))
  end.

End SchemaClass.

(** The navigator reads the tree and needs no collaborator. *)

Definition get_xsd_element (self : Schema) (xsd_element_name : string)
  : result (option Element) :=
  find_named (_schema_base_tree self) NSMAP "xsd" "element" xsd_element_name.

Definition get_child_xsd_elements (self : Schema) (parent_element : Element)
  : result (list (option Element)) :=
  t1 <- resolve NSMAP "xsd" "complexType" ;;
  t2 <- resolve NSMAP "xsd" "sequence" ;;
  t3 <- resolve NSMAP "xsd" "element" ;;
  let child_elements_and_refs := findall_steps [parent_element] [t1; t2; t3] in
  foldM (fun output element_or_ref =>
           match get "ref" (attrib element_or_ref) with
           | Some ref =>
               found <- get_xsd_element self ref ;;
               Ok (output ++ [found])
           | None =>
               match get "name" (attrib element_or_ref) with
               | Some _ => Ok (output ++ [Some element_or_ref])
               | None => Ok output
               end
           end)
        child_elements_and_refs [].

Definition get_attributes_in_xsd_element (self : Schema) (element : Element)
  : result (list Element) :=
  t1 <- resolve NSMAP "xsd" "complexType" ;;
  t2 <- resolve NSMAP "xsd" "attribute" ;;
  Ok (findall_steps [element] [t1; t2]).

Definition get_xsd_element_name (self : Schema) (element : Element)
  : option string :=
  get "name" (attrib element).

(** ** Notions used to state the properties *)

Definition INCLUDE : string := (NAMESPACE ++ "include")%string.
Definition IMPORT : string := (NAMESPACE ++ "import")%string.
Definition SCHEMA : string := (NAMESPACE ++ "schema")%string.
Definition XINCLUDE : string := ("{" ++ xi_uri ++ "}include")%string.

(** Elements of a tag reachable from the root, the root left out. *)
Definition count_below (t : string) (e : Element) : nat :=
  List.length (filter (is_tag t) (iterdescendants e)).

(** Object identities are unique. *)
Definition unique_ids (e : Element) : Prop := NoDup (ids e).

Fixpoint nodupb (l : list nat) : bool :=
  match l with
  | [] => true
  | x :: l' => negb (existsb (Nat.eqb x) l') && nodupb l'
  end.

(** A child that the flattener leaves in its wrapper marker. *)
Definition skipped (e : Element) : bool := contains "schemaLocation" (attrib e).
Definition hoistable (e : Element) : bool := negb (skipped e).

(** Root children once every root-level marker had its turn: the marker keeps
    the skipped children, the others follow it, the last one moved first. *)
Definition hoisted (cs : list Element) : list Element :=
  flat_map (fun c =>
              if is_tag SCHEMA c
              then set_children c (filter skipped (children c))
                   :: rev (filter hoistable (children c))
              else [c]) cs.

(** Root children after the final strip, the hoisted children of a marker
    put in the order [arrange] gives them. *)
Definition flattened_with (arrange : list Element -> list Element)
  (cs : list Element) : list Element :=
  flat_map (fun c =>
              if is_tag SCHEMA c
              then strip_forest SCHEMA (arrange (filter hoistable (children c)))
              else [strip_in SCHEMA c]) cs.

(** What the code leaves: the last child hoisted stands first. *)
Definition flattened (cs : list Element) : list Element :=
  flattened_with (@rev Element) cs.

(** Hoisting as a statement about one tree: the second half of the flattener
    returns, and wherever a marker [m] stood among the root's children its
    hoistable children now stand, arranged by [arrange], between what became
    of the children before it and what became of the children after it. *)
Definition hoists_with (arrange : list Element -> list Element)
  (tree : Element) : Prop :=
  exists result,
    remove_nested_schemas tree = Ok result /\
    forall pre m post,
      children tree = pre ++ m :: post ->
      is_tag SCHEMA m = true ->
      children result =
      flattened_with arrange pre
      ++ strip_forest SCHEMA (arrange (filter hoistable (children m)))
      ++ flattened_with arrange post.

Definition original_order (l : list Element) : list Element := l.

(** No inclusion directive of either form and no wrapper marker below the
    root. *)
Definition free_of_markers (tree : Element) : Prop :=
  count_below INCLUDE tree = 0 /\
  count_below XINCLUDE tree = 0 /\
  count_below SCHEMA tree = 0.

(** The import directive with its location redirected. *)
Definition redirected (location : string) (import_el : Element) : Element :=
  Elem (eid import_el) (tag import_el)
       (set_item "schemaLocation" location (attrib import_el))
       (nsmap import_el) (children import_el).

(** The resolved-inclusion element built for a tree and a reference. *)
Definition resolved_inclusion (tree : Element) (href : string) : Element :=
  Elem (fresh tree) XINCLUDE [("href", href); ("parse", "xml")]
       (set_item xi_name xi_uri NSMAP) [].

(** What the substituted tree must look like for a second run to find no
    bare inclusion at the root: none at the root, and none without a
    [schemaLocation] directly inside a root-level wrapper marker. *)
Definition includes_guarded (tree : Element) : Prop :=
  (forall c, In c (children tree) -> is_tag INCLUDE c = false) /\
  (forall w d, In w (children tree) -> is_tag SCHEMA w = true ->
               In d (children w) -> is_tag INCLUDE d = true ->
               skipped d = true).

(** A second run of the pipeline returns the tree the first run left. *)
Definition idempotent_on
  (resource_filename get_schema_path : string -> string)
  (xinclude : Element -> result Element) (base_tree : Element) : Prop :=
  forall result,
    _flatten_includes resource_filename get_schema_path xinclude base_tree
    = Ok result ->
    _flatten_includes resource_filename get_schema_path xinclude result
    = Ok result.

(** What [findall] gives for the path of [get_child_xsd_elements]. *)
Definition shape (parent_element : Element) : list Element :=
  findall_steps [parent_element]
    [(NAMESPACE ++ "complexType")%string; (NAMESPACE ++ "sequence")%string;
     (NAMESPACE ++ "element")%string].

Definition defined (c : Element) : bool :=
  contains "ref" (attrib c) || contains "name" (attrib c).

(** The entry that a child definition must have in the list of children. *)
Inductive entry_for (self : Schema) : Element -> option Element -> Prop :=
| entry_by_ref c target found :
    get "ref" (attrib c) = Some target ->
    get_xsd_element self target = Ok found ->
    entry_for self c found
| entry_by_value c n :
    get "ref" (attrib c) = None ->
    get "name" (attrib c) = Some n ->
    entry_for self c (Some c).

(** [e] is a descendant of [m]. *)
Definition below (m e : Element) : Prop := In e (iterdescendants m).

(** [m] lies in the tree, deeper than the children of the root. *)
Definition nested_below_root_children (tree m : Element) : Prop :=
  exists c, In c (children tree) /\ below c m.

(** Stripping the tag [t] takes an element of that tag out of [e] together
    with the identities of its subtree. *)
Definition loses (t : string) (e : Element) : Prop :=
  forall m x, In m (iterdescendants e) -> is_tag t m = true -> In x (ids m) ->
              count_occ Nat.eq_dec (ids (strip_in t e)) x + 1
              <= count_occ Nat.eq_dec (ids e) x.

(** Tags of the definitions that the navigator looks at. *)
Definition ELEMENT : string := (NAMESPACE ++ "element")%string.
Definition COMPLEXTYPE : string := (NAMESPACE ++ "complexType")%string.
Definition ATTRIBUTE : string := (NAMESPACE ++ "attribute")%string.

(** A name without double quote. *)
Definition plain (name : string) : Prop :=
  forall c, In c (list_ascii_of_string name) -> c <> dquote.

(** An element definition of the given name. *)
Definition defines_name (name : string) (e : Element) : bool :=
  is_tag ELEMENT e && has_name name e.

(** Same identity, tag and attributes. *)
Definition same_node (e r : Element) : Prop :=
  eid r = eid e /\ tag r = tag e /\ attrib r = attrib e.

(** An element with the namespace declarations left out, on the element and
    below it.  lxml re-homes namespace declarations when an element moves, so
    trees are compared without them. *)
Fixpoint without_nsmap (e : Element) : Element :=
  match e with
  | Elem i t a _ cs => Elem i t a [] (map without_nsmap cs)
  end.

Definition SEQUENCE : string := (NAMESPACE ++ "sequence")%string.

(** The child definitions of an element, read off the tree and not through
    a path: the element definitions that are children of a sequence that is
    a child of a complex type that is a child of the element, in document
    order. *)
Definition child_definitions (parent_element : Element) : list Element :=
  flat_map
    (fun complex_type =>
       flat_map (fun sequence => filter (is_tag ELEMENT) (children sequence))
                (filter (is_tag SEQUENCE) (children complex_type)))
    (filter (is_tag COMPLEXTYPE) (children parent_element)).

(** No reference among the child definitions has a double quote in its
    target. *)
Definition plain_references (parent_element : Element) : Prop :=
  forall c target,
    In c (child_definitions parent_element) ->
    get "ref" (attrib c) = Some target ->
    plain target.

(** [r] is the first element definition of the name below the root, in
    document order, or [None] when there is none. *)
Definition first_definition (tree : Element) (name : string)
  (r : option Element) : Prop :=
  match r with
  | Some e =>
      defines_name name e = true /\
      exists before after,
        iterdescendants tree = before ++ e :: after /\
        forall d, In d before -> defines_name name d = false
  | None =>
      forall d, In d (iterdescendants tree) -> defines_name name d = false
  end.

(** The entry of a child definition in the list of children.  By reference:
    what the lookup gives for the target, which is the first element
    definition of that name below the root, and is the referring child
    itself only when that child bears the name it refers to.  By value: the
    child itself. *)
Definition resolved (self : Schema) (c : Element) (o : option Element)
  : Prop :=
  entry_for self c o /\
  forall target,
    get "ref" (attrib c) = Some target ->
    first_definition (_schema_base_tree self) target o /\
    (get "name" (attrib c) <> Some target -> o <> Some c).

(** The list of children as a list that never holds a referring child
    itself: every child definition with [ref] or [name] has its entry, and
    the entry of a child with [ref] is not that child. *)
Definition resolves_without_stub (self : Schema) (parent_element : Element)
  : Prop :=
  exists output,
    get_child_xsd_elements self parent_element = Ok output /\
    Forall2 (fun c o => entry_for self c o /\
                        (contains "ref" (attrib c) = true -> o <> Some c))
            (filter defined (child_definitions parent_element)) output.

(** ** Sample trees *)

Module Sample.

Definition el (i : nat) (local : string) (a : dict) (cs : list Element)
  : Element := Elem i (NAMESPACE ++ local)%string a [] cs.

Definition resource_filename (s : string) : string := ("/res/" ++ s)%string.
Definition get_schema_path (s : string) : string :=
  ("schemas/" ++ s ++ ".xsd")%string.

(** A resolver that puts the root of one document in the place of every
    resolved-inclusion element. *)
Fixpoint substitute_in (doc e : Element) : Element :=
  match e with
  | Elem i t a ns cs =>
      Elem i t a ns
        ((fix go (l : list Element) : list Element :=
            match l with
            | [] => []
            | c :: l' =>
                (if is_tag XINCLUDE c then doc else substitute_in doc c) :: go l'
            end) cs)
  end.

Definition resolver (doc : Element) (tree : Element) : result Element :=
  Ok (substitute_in doc tree).

(** The included file: a schema with an import, three definitions, and a
    marker nested inside one of them. *)
Definition common : Element :=
  el 100 "schema" []
    [el 101 "import" [("schemaLocation", "xml.xsd")] [];
     el 102 "element" [("name", "a")] [];
     el 103 "element" [("name", "b")]
        [el 105 "schema" [] [el 106 "element" [("name", "z")] []]];
     el 104 "attribute" [("name", "c")] []].

(** The including file. *)
Definition activity : Element :=
  el 0 "schema" []
    [el 1 "import" [("schemaLocation", "xml.xsd")] [];
     el 2 "include" [("schemaLocation", "iati-common.xsd")] [];
     el 3 "element" [("name", "root")] [el 4 "include" [] []]].

(** A tree as the resolver leaves it: the included schema stands where the
    inclusion stood. *)
Definition substituted : Element :=
  el 0 "schema" []
    [el 1 "import" [("schemaLocation", "xml.xsd")] [];
     common;
     el 3 "element" [("name", "root")] []].

(** A marker with two plain children, as a resolver leaves it. *)
Definition two_children : Element :=
  el 0 "schema" []
    [el 10 "schema" []
       [el 11 "element" [("name", "first")] [];
        el 12 "element" [("name", "second")] []]].

(** A file without inclusion at the root that holds a nested marker. *)
Definition no_include : Element :=
  el 0 "schema" []
    [el 1 "element" [("name", "note")] [el 2 "schema" [] []]].

(** An included file with an inclusion directive that has lost its
    [schemaLocation]. *)
Definition unguarded : Element :=
  el 100 "schema" []
    [el 101 "include" [] [];
     el 102 "element" [("name", "a")] []].

(** A schema with a parent whose shape has a reference, an inline
    definition, a definition without name or reference, and a reference to
    a name that no element has. *)
Definition parent : Element :=
  el 1 "element" [("name", "parent")]
    [el 2 "complexType" []
       [el 3 "sequence" []
          [el 4 "element" [("ref", "title")] [];
           el 5 "element" [("name", "inline")] [];
           el 6 "element" [] [];
           el 7 "element" [("ref", "missing")] []]]].

Definition navigable : Schema :=
  mkSchema (el 0 "schema" [] [parent; el 8 "element" [("name", "title")] []]) [].

(** The name made of [a], a double quote and [b]. *)
Definition quoted_name : string := ("a" ++ String dquote "b")%string.

Definition quoted_parent : Element :=
  el 1 "element" [("name", "parent")]
    [el 2 "complexType" []
       [el 3 "sequence" [] [el 4 "element" [("ref", quoted_name)] []]]].

Definition quoted : Schema := mkSchema (el 0 "schema" [] [quoted_parent]) [].

(** A parent whose referring child bears the name it refers to, in a
    schema without another element of that name. *)
Definition self_named_parent : Element :=
  el 1 "element" [("name", "parent")]
    [el 2 "complexType" []
       [el 3 "sequence" []
          [el 4 "element" [("ref", "t"); ("name", "t")] []]]].

Definition self_named : Schema :=
  mkSchema (el 0 "schema" [] [self_named_parent]) [].

(** A parent with child definitions by value only, one of them without a
    name, and with an attribute definition. *)
Definition inline_parent : Element :=
  el 1 "element" [("name", "parent")]
    [el 2 "complexType" []
       [el 3 "sequence" []
          [el 4 "element" [("name", "x")] [];
           el 5 "element" [] [];
           el 6 "element" [("name", "y")] []];
        el 7 "attribute" [("name", "lang")] []]].

Definition inline : Schema := mkSchema (el 0 "schema" [] [inline_parent]) [].

Definition load_as_tree (path : string) : result Element :=
  if String.eqb path "activity.xsd" then Ok activity
  else if String.eqb path "plain.xsd" then Ok no_include
  else Raise IOError.

End Sample.

(** * Version numbers

    A shallow embedding of [iati/version.py] (class [Version]).  The class
    extends [semantic_version.Version]; what it asks of that class is taken
    as the variables of the section [Class].  A text is a string over the
    first 256 code points, an error is one of the three the class meets, and
    [Unread] marks a call of [int] on a text that is not embedded.  The
    [next_*] methods hand the work to the parent class and are not embedded. *)

Module IatiVersion.

Import ZArith.

Inductive error : Type := TypeError | ValueError | IndexError.

Inductive outcome (A : Type) : Type :=
| Returns (a : A)
| Raises (e : error)
| Unread.
Arguments Returns {A} a.
Arguments Raises {A} e.
Arguments Unread {A}.

Definition then_ {A B : Type} (c : outcome A) (k : A -> outcome B) : outcome B :=
  match c with
  | Returns a => k a
  | Raises e => Raises e
  | Unread => Unread
  end.

(** ** Patterns

    The part of [re] that the IATIver pattern uses, matched by derivatives.
    [re_match] is [pattern.match(text)] for a pattern written between [^]
    and [$]: the dollar also matches just before a final line feed.  The
    method returns the match object or [None]; the embedding keeps whether
    there is a match, which is all the constructor looks at. *)
Inductive regex : Type :=
| Never
| Empty
| Class (p : ascii -> bool)
| Many1 (p : ascii -> bool)
| Seq (r1 r2 : regex)
| Alt (r1 r2 : regex).

Definition Opt (r : regex) : regex := Alt r Empty.
Definition Lit (c : ascii) : regex := Class (Ascii.eqb c).

Fixpoint nullable (r : regex) : bool :=
  match r with
  | Never => false
  | Empty => true
  | Class _ => false
  | Many1 _ => false
  | Seq r1 r2 => nullable r1 && nullable r2
  | Alt r1 r2 => nullable r1 || nullable r2
  end.

Fixpoint deriv (c : ascii) (r : regex) : regex :=
  match r with
  | Never => Never
  | Empty => Never
  | Class p => if p c then Empty else Never
  | Many1 p => if p c then Opt (Many1 p) else Never
  | Seq r1 r2 =>
      if nullable r1 then Alt (Seq (deriv c r1) r2) (deriv c r2)
      else Seq (deriv c r1) r2
  | Alt r1 r2 => Alt (deriv c r1) (deriv c r2)
  end.

Fixpoint matches (r : regex) (s : string) : bool :=
  match s with
  | EmptyString => nullable r
  | String c s' => matches (deriv c r) s'
  end.

Definition line_feed : ascii := "010"%char.

Fixpoint without_final_line_feed (s : string) : option string :=
  match s with
  | EmptyString => None
  | String c EmptyString => if Ascii.eqb c line_feed then Some EmptyString else None
  | String c s' =>
      match without_final_line_feed s' with
      | Some t => Some (String c t)
      | None => None
      end
  end.

Definition re_match (r : regex) (s : string) : bool :=
  matches r s ||
  match without_final_line_feed s with
  | Some t => matches r t
  | None => false
  end.

Definition between (lo hi : nat) (c : ascii) : bool :=
  (lo <=? nat_of_ascii c)%nat && (nat_of_ascii c <=? hi)%nat.
(** [\d]: among the first 256 code points the decimal digits are [0] to
    [9]. *)
Definition digit : ascii -> bool := between 48 57.
Definition digit_1_9 : ascii -> bool := between 49 57.
Definition digit_2_9 : ascii -> bool := between 50 57.

Definition iativer_re : regex :=
  Alt (Seq (Lit "1") (Seq (Lit ".") (Seq (Lit "0") (Class digit_1_9))))
      (Seq (Alt (Seq (Lit "1") (Many1 digit))
                (Seq (Class digit_2_9) (Opt (Many1 digit))))
           (Seq (Lit ".") (Seq (Lit "0")
              (Seq (Class digit_1_9) (Opt (Many1 digit)))))).

(** The texts that a pattern matches. *)
Fixpoint chars_all (p : ascii -> bool) (s : string) : bool :=
  match s with
  | EmptyString => true
  | String c s' => p c && chars_all p s'
  end.

Fixpoint lang (r : regex) (s : string) : Prop :=
  match r with
  | Never => False
  | Empty => s = EmptyString
  | Class p => exists c, p c = true /\ s = String c EmptyString
  | Many1 p => s <> EmptyString /\ chars_all p s = true
  | Seq r1 r2 => exists s1 s2, s = (s1 ++ s2)%string /\ lang r1 s1 /\ lang r2 s2
  | Alt r1 r2 => lang r1 s \/ lang r2 s
  end.

(** ** Python values *)

Definition str_nat (n : nat) : string :=
  DecimalString.NilZero.string_of_uint (Nat.to_uint n).

(** [str(z)] of an integer. *)
Definition py_str (z : Z) : string :=
  match z with
  | Zneg p => ("-" ++ str_nat (Pos.to_nat p))%string
  | _ => str_nat (Z.to_nat z)
  end.

(** [int(text)] for a text of digits followed by at most one line feed,
    which is all that reaches it; other texts are not read here. *)
Definition py_int (text : string) : outcome Z :=
  let digits :=
    match without_final_line_feed text with
    | Some t => t
    | None => text
    end in
  match digits with
  | EmptyString => Unread
  | _ =>
      match DecimalString.NilEmpty.uint_of_string digits with
      | Some d => Returns (Z.of_nat (Nat.of_uint d))
      | None => Unread
      end
  end.

(** [text.split('.')] *)
Fixpoint split_dot (text : string) : list string :=
  match text with
  | EmptyString => [EmptyString]
  | String c rest =>
      if Ascii.eqb c "."%char then EmptyString :: split_dot rest
      else match split_dot rest with
           | head :: tail => String c head :: tail
           | [] => [String c EmptyString]
           end
  end.

(** [parts[i]] *)
Definition item (parts : list string) (i : nat) : outcome string :=
  match nth_error parts i with
  | Some part => Returns part
  | None => Raises IndexError
  end.

(** A finite [Decimal]: [coefficient * 10 ^ exponent].  Infinities and NaNs
    are not embedded. *)
Record PyDecimal : Type := mkDecimal { coefficient : Z; exponent : Z }.

Definition scaled (d : PyDecimal) (e : Z) : Z :=
  (coefficient d * 10 ^ (exponent d - e))%Z.

(** [d1 == d2]: equality of the numbers, not of their digits. *)
Definition decimal_eqb (d1 d2 : PyDecimal) : bool :=
  let e := Z.min (exponent d1) (exponent d2) in
  (scaled d1 e =? scaled d2 e)%Z.

(** [int(d)]: truncation towards zero. *)
Definition int_of_decimal (d : PyDecimal) : Z :=
  if (0 <=? exponent d)%Z then (coefficient d * 10 ^ exponent d)%Z
  else Z.quot (coefficient d) (10 ^ (- exponent d)).

(** [d * n] for an integer [n], exact.  Python rounds the product to the
    precision of the context; the constructor multiplies only a number equal
    to one of 1.01 to 1.09, whose product has three digits and is not
    changed by rounding. *)
Definition times (d : PyDecimal) (n : Z) : PyDecimal :=
  mkDecimal (coefficient d * n) (exponent d).

(** [Decimal('1.0' + str(val))] for a digit [val]. *)
Definition decimal_1_0 (val : Z) : PyDecimal := mkDecimal (100 + val) (-2).

(** What [Version(...)] may be handed. *)
Inductive arg : Type :=
| Str (text : string)
| Dec (d : PyDecimal)
| Other.

(** The fields of [semantic_version.Version] that this class reads, for a
    version that has all three. *)
Record version : Type := mkVersion { major : Z; minor : Z; patch : Z }.

Section Class.

(** The parent class: [semantic_version.Version.__init__(self, text, True)],
    [semantic_version.validate(text)] and [semantic_version.Version(text)]. *)
Variable parent_init : string -> outcome version.
Variable validate : string -> bool.
Variable parent_new : string -> outcome version.

Definition _is_iatidecimal (v : arg) : bool :=
  match v with
  | Dec d =>
      let valid_values := map decimal_1_0 [1; 2; 3; 4; 5; 6; 7; 8; 9]%Z in
      existsb (decimal_eqb d) valid_values
  | _ => false
  end.

Definition _is_iativer (version_string : arg) : outcome bool :=
  match version_string with
  | Str text => Returns (re_match iativer_re text)
  | _ => Raises TypeError
  end.

Definition _is_semver (version_string : string) : outcome bool :=
  let is_semver_format := validate version_string in
  match parent_new version_string with
  | Returns parsed =>
      let is_permitted_value := negb (major parsed =? 0)%Z in
      Returns (is_semver_format && is_permitted_value)
  | Raises ValueError => Returns false
  | Raises e => Raises e
  | Unread => Unread
  end.

(** [except (TypeError, ValueError): raise ValueError(...)] *)
Definition as_value_error {A : Type} (c : outcome A) : outcome A :=
  match c with
  | Raises TypeError => Raises ValueError
  | other => other
  end.

Definition join3 (a b c : string) : string := String.concat "." [a; b; c].

Definition __init__ (v : arg) : outcome version :=
  match v with
  | Other => Raises TypeError
  | Dec _ | Str _ =>
      as_value_error
        (if _is_iatidecimal v then
           match v with
           | Dec d =>
               let integer := py_str (int_of_decimal d) in
               let decimal := py_str (int_of_decimal (times d 100) - 101) in
               parent_init (join3 integer decimal "0")
           | _ => Raises TypeError
           end
         else
           then_ (_is_iativer v) (fun iativer =>
           match v with
           | Str text =>
               if iativer then
                 then_ (item (split_dot text) 0) (fun integer =>
                 then_ (item (split_dot text) 1) (fun part =>
                 then_ (py_int part) (fun number =>
                 let decimal := py_str (number - 1) in
                 parent_init (join3 integer decimal "0"))))
               else
                 then_ (_is_semver text) (fun semver =>
                 if semver then parent_init text else Raises ValueError)
           | _ => Raises TypeError
           end))
  end.

End Class.

Definition integer (self : version) : Z := major self.
Definition integer_setter (self : version) (value : Z) : version :=
  mkVersion value (minor self) (patch self).
Definition decimal (self : version) : Z := (minor self + 1)%Z.
Definition decimal_setter (self : version) (value : Z) : version :=
  mkVersion (major self) value (patch self).

Definition iativer_str (self : version) : string :=
  (py_str (integer self) ++ ".0" ++ py_str (decimal self))%string.

Definition semver_str (self : version) : string :=
  String.concat "." [py_str (major self); py_str (minor self); py_str (patch self)].

Definition __repr__ (self : version) : string :=
  ("iati.Version('" ++ semver_str self ++ "')")%string.

Definition __str__ (self : version) : string := iativer_str self.

(** ** Notions used to state the properties *)

(** The IATIver text of integer [i] and decimal [d]. *)
Definition iativer_text (i d : nat) : string :=
  (str_nat i ++ ".0" ++ str_nat d)%string.

(** The SemVer text for the same version. *)
Definition semver_text (i d : nat) : string :=
  (str_nat i ++ "." ++ str_nat (d - 1) ++ ".0")%string.

(** The numbers that IATIver permits: from 1.01 on, with the integer 1
    stopping at 1.09. *)
Definition permitted (i d : nat) : Prop :=
  1 <= i /\ 1 <= d /\ (i = 1 -> d <= 9).

(** Nothing or one line feed. *)
Definition line_end (tail : string) : Prop :=
  tail = EmptyString \/ tail = String line_feed EmptyString.

Definition not_dot (c : ascii) : bool := negb (Ascii.eqb c "."%char).

Fixpoint count_dots (s : string) : nat :=
  match s with
  | EmptyString => 0
  | String c s' => (if Ascii.eqb c "."%char then 1 else 0) + count_dots s'
  end.

(** A parent class that knows two texts. *)
Definition sample_parent (text : string) : outcome version :=
  if String.eqb text "2.9.0" then Returns (mkVersion 2 9 0)
  else if String.eqb text "1.0.0" then Returns (mkVersion 1 0 0)
  else Raises ValueError.

End IatiVersion.

(** * Properties *)

(** ** Facts about the element tree *)

Section EtreeFacts.

Lemma strip_in_eq t i tg a ns cs :
  strip_in t (Elem i tg a ns cs) = Elem i tg a ns (strip_forest t cs).
Proof.
  simpl. f_equal. induction cs as [|c cs IH]; simpl; [reflexivity|].
  destruct (is_tag t c); rewrite IH; reflexivity.
Qed.

Lemma detach_in_eq k i tg a ns cs :
  detach_in k (Elem i tg a ns cs) = Elem i tg a ns (detach k cs).
Proof.
  simpl. f_equal. induction cs as [|c cs IH]; simpl; [reflexivity|].
  destruct (is_id k c); rewrite IH; reflexivity.
Qed.

Lemma node_by_id_eq k i tg a ns cs :
  node_by_id k (Elem i tg a ns cs) =
  if Nat.eqb i k then Some (Elem i tg a ns cs) else node_in_forest k cs.
Proof.
  simpl. destruct (Nat.eqb i k); [reflexivity|].
  induction cs as [|c cs IH]; simpl; [reflexivity|].
  destruct (node_by_id k c); [reflexivity | exact IH].
Qed.

Lemma ids_eq i tg a ns cs : ids (Elem i tg a ns cs) = i :: flat_map ids cs.
Proof. reflexivity. Qed.

Lemma eid_in_ids e : In (eid e) (ids e).
Proof. destruct e; simpl; auto. Qed.

Lemma ids_children_incl e c :
  In c (children e) -> incl (ids c) (ids e).
Proof.
  destruct e as [i tg a ns cs]; simpl. intros Hc x Hx. right.
  apply in_flat_map. exists c; auto.
Qed.

Lemma eid_set_children e cs : eid (set_children e cs) = eid e.
Proof. destruct e; reflexivity. Qed.

Lemma tag_set_children e cs : tag (set_children e cs) = tag e.
Proof. destruct e; reflexivity. Qed.

Lemma children_set_children e cs : children (set_children e cs) = cs.
Proof. destruct e; reflexivity. Qed.

Lemma ids_set_children e cs :
  ids (set_children e cs) = eid e :: flat_map ids cs.
Proof. destruct e; reflexivity. Qed.

Lemma set_children_id e : set_children e (children e) = e.
Proof. destruct e; reflexivity. Qed.

Lemma ids_as_children e : ids e = eid e :: flat_map ids (children e).
Proof. destruct e; reflexivity. Qed.

Lemma is_id_false_notin i c : ~ In i (ids c) -> is_id i c = false.
Proof.
  intros H. unfold is_id. apply Nat.eqb_neq. intros E. apply H.
  rewrite <- E. apply eid_in_ids.
Qed.

(** Unlinking an identity that is not in the tree changes nothing. *)
Lemma detach_in_notin i e : ~ In i (ids e) -> detach_in i e = e.
Proof.
  induction e as [j tg a ns cs IH] using Element_tree_ind.
  intros H. rewrite detach_in_eq. f_equal.
  rewrite ids_eq in H.
  assert (Hcs : ~ In i (flat_map ids cs)) by (intros X; apply H; right; exact X).
  clear H. induction cs as [|c cs IHcs]; simpl; [reflexivity|].
  inversion IH as [|? ? Hc Hrest]; subst.
  simpl in Hcs. rewrite in_app_iff in Hcs.
  rewrite is_id_false_notin by tauto.
  rewrite Hc by tauto. rewrite IHcs by tauto. reflexivity.
Qed.

Lemma detach_notin i cs : ~ In i (flat_map ids cs) -> detach i cs = cs.
Proof.
  induction cs as [|c cs IH]; simpl; [reflexivity|].
  rewrite in_app_iff. intros H.
  rewrite is_id_false_notin by tauto.
  rewrite detach_in_notin by tauto. rewrite IH by tauto. reflexivity.
Qed.

Lemma detach_app i xs ys : detach i (xs ++ ys) = detach i xs ++ detach i ys.
Proof.
  induction xs as [|x xs IH]; simpl; [reflexivity|].
  destruct (is_id i x); rewrite IH; reflexivity.
Qed.

Lemma node_by_id_notin i e : ~ In i (ids e) -> node_by_id i e = None.
Proof.
  induction e as [j tg a ns cs IH] using Element_tree_ind.
  intros H. rewrite node_by_id_eq. rewrite ids_eq in H.
  destruct (Nat.eqb_spec j i) as [E|_]; [exfalso; apply H; left; exact E|].
  assert (Hcs : ~ In i (flat_map ids cs)) by (intros X; apply H; right; exact X).
  clear H. induction cs as [|c cs IHcs]; simpl; [reflexivity|].
  inversion IH as [|? ? Hc Hrest]; subst.
  simpl in Hcs. rewrite in_app_iff in Hcs.
  rewrite Hc by tauto. apply IHcs; tauto.
Qed.

Lemma node_in_forest_notin i cs :
  ~ In i (flat_map ids cs) -> node_in_forest i cs = None.
Proof.
  induction cs as [|c cs IH]; simpl; [reflexivity|].
  rewrite in_app_iff. intros H.
  rewrite node_by_id_notin by tauto. apply IH; tauto.
Qed.

Lemma node_by_id_self e : node_by_id (eid e) e = Some e.
Proof.
  destruct e as [i tg a ns cs]. rewrite node_by_id_eq. simpl.
  rewrite Nat.eqb_refl. reflexivity.
Qed.

Lemma node_in_forest_middle pre m post :
  ~ In (eid m) (flat_map ids pre) ->
  node_in_forest (eid m) (pre ++ m :: post) = Some m.
Proof.
  induction pre as [|c pre IH]; simpl; intros H.
  - rewrite node_by_id_self. reflexivity.
  - rewrite in_app_iff in H. rewrite node_by_id_notin by tauto.
    apply IH; tauto.
Qed.

Lemma position_middle i pre m post :
  eid m = i -> ~ In i (flat_map ids pre) ->
  position i (pre ++ m :: post) = Some (List.length pre).
Proof.
  intros Em. induction pre as [|c pre IH]; simpl; intros H.
  - unfold is_id. rewrite Em, Nat.eqb_refl. reflexivity.
  - rewrite in_app_iff in H. rewrite is_id_false_notin by tauto.
    rewrite IH by tauto. reflexivity.
Qed.

Lemma existsb_is_id_middle i pre m post :
  eid m = i -> existsb (is_id i) (pre ++ m :: post) = true.
Proof.
  intros Em. rewrite existsb_app. simpl. unfold is_id at 2.
  rewrite Em, Nat.eqb_refl. rewrite orb_true_r. reflexivity.
Qed.

Lemma getparent_child i e :
  existsb (is_id i) (children e) = true -> getparent i e = Some e.
Proof. destruct e as [j tg a ns cs]; simpl. intros ->. reflexivity. Qed.

Lemma insert_before_middle i e pre c post :
  eid c = i -> ~ In i (flat_map ids pre) ->
  insert_before i e (pre ++ c :: post) = pre ++ e :: c :: post.
Proof.
  intros Ec. induction pre as [|x pre IH]; simpl; intros H.
  - unfold is_id. rewrite Ec, Nat.eqb_refl. reflexivity.
  - rewrite in_app_iff in H. rewrite is_id_false_notin by tauto.
    rewrite IH by tauto. reflexivity.
Qed.

Lemma nodupb_sound l : nodupb l = true -> NoDup l.
Proof.
  induction l as [|x l IH]; simpl; intros H; constructor.
  - apply andb_prop in H. destruct H as [H _].
    intros Hin. apply negb_true_iff in H.
    assert (existsb (Nat.eqb x) l = true).
    { apply existsb_exists. exists x. split; [exact Hin | apply Nat.eqb_refl]. }
    congruence.
  - apply IH. apply andb_prop in H. tauto.
Qed.

End EtreeFacts.

Section Counting.

Lemma occ_cons a l x :
  count_occ Nat.eq_dec (a :: l) x =
  Nat.b2n (Nat.eqb a x) + count_occ Nat.eq_dec l x.
Proof.
  simpl. destruct (Nat.eq_dec a x) as [E|E].
  - subst. rewrite Nat.eqb_refl. reflexivity.
  - apply Nat.eqb_neq in E. rewrite E. reflexivity.
Qed.

Lemma occ_in x l : In x l -> 1 <= count_occ Nat.eq_dec l x.
Proof. intros H. apply (count_occ_In Nat.eq_dec) in H. lia. Qed.

Lemma occ_notin x l : count_occ Nat.eq_dec l x = 0 -> ~ In x l.
Proof. intros H. apply (count_occ_not_In Nat.eq_dec). exact H. Qed.

Lemma occ_ids_self e : 1 <= count_occ Nat.eq_dec (ids e) (eid e).
Proof. apply occ_in, eid_in_ids. Qed.

End Counting.

Ltac occ_norm :=
  repeat (rewrite ?ids_eq, ?ids_set_children, ?flat_map_app, ?count_occ_app,
                  ?occ_cons; cbn [flat_map]).
Ltac occ_norm_in H :=
  repeat (rewrite ?ids_eq, ?ids_set_children, ?flat_map_app, ?count_occ_app,
                  ?occ_cons in H; cbn [flat_map] in H).

Section Hoisting.

Lemma hoist_child_moves i tg a ns pre m done elem todo R m0 :
  eid m = eid m0 -> skipped elem = false ->
  NoDup (ids (Elem i tg a ns (pre ++ set_children m (done ++ elem :: todo) :: R))) ->
  hoist_child m0 (Elem i tg a ns (pre ++ set_children m (done ++ elem :: todo) :: R)) elem
  = Ok (Elem i tg a ns (pre ++ set_children m (done ++ todo) :: elem :: R)).
Proof.
  intros Em Hs Hnd.
  rewrite (NoDup_count_occ Nat.eq_dec) in Hnd.
  assert (Hj := Hnd (eid m)). assert (He := Hnd (eid elem)).
  occ_norm_in Hj. occ_norm_in He.
  rewrite Nat.eqb_refl in Hj. cbn [Nat.b2n] in Hj.
  pose proof (occ_ids_self elem) as Hself.
  unfold hoist_child. fold (skipped elem). rewrite Hs.
  set (M := set_children m (done ++ elem :: todo)).
  assert (EM : eid M = eid m0) by (unfold M; rewrite eid_set_children; exact Em).
  rewrite getparent_child by (apply existsb_is_id_middle; exact EM).
  unfold index. cbn [children].
  rewrite (position_middle (eid m0) pre M R EM).
  2:{ rewrite <- Em; apply occ_notin. lia. }
  cbn [bind]. unfold insert. cbn [children set_children].
  assert (Hd : detach (eid elem) (pre ++ M :: R)
               = pre ++ set_children m (done ++ todo) :: R).
  { rewrite detach_app. rewrite detach_notin by (apply occ_notin; lia).
    f_equal. cbn [detach].
    assert (is_id (eid elem) M = false) as ->.
    { unfold is_id. rewrite EM, <- Em. apply Nat.eqb_neq. intros E.
      rewrite E in Hj. lia. }
    rewrite detach_notin by (apply occ_notin; lia).
    f_equal. unfold M. destruct m as [mi mt ma mns mcs]. cbn [set_children].
    rewrite detach_in_eq. f_equal.
    rewrite detach_app. rewrite detach_notin by (apply occ_notin; lia).
    f_equal. cbn [detach]. unfold is_id at 1. rewrite Nat.eqb_refl.
    apply detach_notin. apply occ_notin; lia. }
  replace (List.length pre + 1) with (S (List.length pre)) by lia.
  rewrite nth_error_app2 by lia.
  replace (S (List.length pre) - List.length pre) with 1 by lia.
  cbn [nth_error].
  destruct R as [|c R'].
  - cbn [nth_error]. rewrite Hd. rewrite <- app_assoc. reflexivity.
  - cbn [nth_error].
    assert (Hc := Hnd (eid c)). occ_norm_in Hc.
    pose proof (occ_ids_self c) as Hcself.
    occ_norm_in He.
    assert (Ece : eid c <> eid elem).
    { intros E. rewrite E in Hcself. lia. }
    assert (is_id (eid elem) c = false) as ->
      by (unfold is_id; apply Nat.eqb_neq; exact Ece).
    rewrite Hd.
    change (pre ++ set_children m (done ++ todo) :: c :: R')
      with (pre ++ [set_children m (done ++ todo)] ++ c :: R').
    rewrite app_assoc.
    rewrite insert_before_middle; [ | reflexivity | ].
    + rewrite <- app_assoc. reflexivity.
    + apply occ_notin. occ_norm.
      assert (Nat.eqb (eid m) (eid c) = false) as ->.
      { apply Nat.eqb_neq. intros E. rewrite E in Hc.
        rewrite Nat.eqb_refl in Hc. cbn [Nat.b2n] in Hc. lia. }
      cbn [Nat.b2n count_occ]. lia.
Qed.

Lemma move_keeps_unique i tg a ns pre m done elem todo R :
  NoDup (ids (Elem i tg a ns (pre ++ set_children m (done ++ elem :: todo) :: R))) ->
  NoDup (ids (Elem i tg a ns (pre ++ set_children m (done ++ todo) :: elem :: R))).
Proof.
  rewrite !(NoDup_count_occ Nat.eq_dec). intros H x. specialize (H x).
  occ_norm_in H. occ_norm. lia.
Qed.

(** The inner loop: the children still to visit are [todo]; the marker
    holds the skipped ones of [done] in front of them. *)
Lemma hoist_loop i tg a ns pre m0 post todo :
  forall m done H,
    eid m = eid m0 ->
    NoDup (ids (Elem i tg a ns
                  (pre ++ set_children m (done ++ todo) :: H ++ post))) ->
    foldM (hoist_child m0) todo
          (Elem i tg a ns (pre ++ set_children m (done ++ todo) :: H ++ post))
    = Ok (Elem i tg a ns
            (pre ++ set_children m (done ++ filter skipped todo)
                 :: rev (filter hoistable todo) ++ H ++ post)).
Proof.
  induction todo as [|elem todo IH]; intros m done H Em Hnd.
  - reflexivity.
  - cbn [foldM filter]. unfold hoistable at 1.
    destruct (skipped elem) eqn:Hs; cbn [negb].
    + unfold hoist_child at 1. fold (skipped elem). rewrite Hs. cbn [bind].
      replace (done ++ elem :: todo) with ((done ++ [elem]) ++ todo)
        by (rewrite <- app_assoc; reflexivity).
      rewrite IH; [ | exact Em | ].
      * rewrite <- app_assoc. reflexivity.
      * rewrite <- app_assoc. exact Hnd.
    + rewrite hoist_child_moves by assumption. cbn [bind].
      apply move_keeps_unique in Hnd.
      change (elem :: H ++ post) with ((elem :: H) ++ post).
      change (elem :: H ++ post) with ((elem :: H) ++ post) in Hnd.
      rewrite IH by assumption.
      cbn [rev]. rewrite <- !app_assoc. reflexivity.
Qed.

(** One marker's turn. *)
Lemma hoist_marker_turn i tg a ns pre m post :
  NoDup (ids (Elem i tg a ns (pre ++ m :: post))) ->
  hoist_marker (Elem i tg a ns (pre ++ m :: post)) m
  = Ok (Elem i tg a ns
          (pre ++ set_children m (filter skipped (children m))
               :: rev (filter hoistable (children m)) ++ post)).
Proof.
  intros Hnd. unfold hoist_marker, current.
  assert (Hj : count_occ Nat.eq_dec
                 (ids (Elem i tg a ns (pre ++ m :: post))) (eid m) <= 1)
    by (apply NoDup_count_occ; exact Hnd).
  occ_norm_in Hj. pose proof (occ_ids_self m) as Hself.
  rewrite node_by_id_eq.
  assert (Nat.eqb i (eid m) = false) as ->.
  { apply Nat.eqb_neq. intros E. rewrite E, Nat.eqb_refl in Hj.
    cbn [Nat.b2n] in Hj. lia. }
  rewrite node_in_forest_middle by (apply occ_notin; lia).
  pose proof (hoist_loop i tg a ns pre m post (children m) m [] [] eq_refl)
    as L.
  cbn [app] in L. rewrite set_children_id in L.
  apply L. exact Hnd.
Qed.

Lemma marker_turn_keeps_unique i tg a ns pre m post :
  NoDup (ids (Elem i tg a ns (pre ++ m :: post))) ->
  NoDup (ids (Elem i tg a ns
                ((pre ++ set_children m (filter skipped (children m))
                      :: rev (filter hoistable (children m))) ++ post))).
Proof.
  rewrite !(NoDup_count_occ Nat.eq_dec). intros H x. specialize (H x).
  occ_norm_in H. rewrite (ids_as_children m) in H.
  occ_norm_in H. occ_norm.
  assert (count_occ Nat.eq_dec (flat_map ids (children m)) x
          = count_occ Nat.eq_dec (flat_map ids (filter skipped (children m))) x
            + count_occ Nat.eq_dec
                (flat_map ids (rev (filter hoistable (children m)))) x) as E.
  { clear H. induction (children m) as [|c cs IH]; [reflexivity|].
    cbn [filter flat_map]. unfold hoistable at 1.
    destruct (skipped c); cbn [negb flat_map rev];
      rewrite ?flat_map_app, ?count_occ_app, IH; cbn [flat_map];
      rewrite ?app_nil_r; lia. }
  rewrite E in H. lia.
Qed.

(** The outer loop over the markers found among the root's children. *)
Lemma hoist_markers i tg a ns cs :
  forall pre,
    NoDup (ids (Elem i tg a ns (pre ++ cs))) ->
    foldM hoist_marker (filter (is_tag SCHEMA) cs) (Elem i tg a ns (pre ++ cs))
    = Ok (Elem i tg a ns (pre ++ hoisted cs)).
Proof.
  induction cs as [|c cs IH]; intros pre Hnd.
  - reflexivity.
  - cbn [filter]. unfold hoisted. cbn [flat_map]. fold (hoisted cs).
    destruct (is_tag SCHEMA c) eqn:Hc.
    + cbn [foldM]. rewrite hoist_marker_turn by exact Hnd. cbn [bind].
      apply marker_turn_keeps_unique in Hnd.
      rewrite <- app_comm_cons.
      replace (pre ++ set_children c (filter skipped (children c))
                :: rev (filter hoistable (children c)) ++ cs)
        with ((pre ++ set_children c (filter skipped (children c))
                :: rev (filter hoistable (children c))) ++ cs)
        by (rewrite <- app_assoc; reflexivity).
      rewrite IH by exact Hnd.
      rewrite <- app_assoc. reflexivity.
    + replace (pre ++ c :: cs) with ((pre ++ [c]) ++ cs)
        by (rewrite <- app_assoc; reflexivity).
      rewrite IH by (rewrite <- app_assoc; exact Hnd).
      rewrite <- app_assoc. reflexivity.
Qed.

Lemma strip_forest_app t xs ys :
  strip_forest t (xs ++ ys) = strip_forest t xs ++ strip_forest t ys.
Proof.
  induction xs as [|x xs IH]; simpl; [reflexivity|].
  destruct (is_tag t x); rewrite IH; reflexivity.
Qed.

Lemma flattened_with_cons arrange c cs :
  flattened_with arrange (c :: cs) =
  (if is_tag SCHEMA c
   then strip_forest SCHEMA (arrange (filter hoistable (children c)))
   else [strip_in SCHEMA c]) ++ flattened_with arrange cs.
Proof. reflexivity. Qed.

Lemma flattened_with_app arrange xs ys :
  flattened_with arrange (xs ++ ys) =
  flattened_with arrange xs ++ flattened_with arrange ys.
Proof. unfold flattened_with. apply flat_map_app. Qed.

Lemma strip_hoisted cs : strip_forest SCHEMA (hoisted cs) = flattened cs.
Proof.
  induction cs as [|c cs IH]; [reflexivity|].
  unfold flattened. rewrite flattened_with_cons. fold (flattened cs).
  unfold hoisted. cbn [flat_map]. fold (hoisted cs).
  rewrite strip_forest_app, IH. f_equal.
  destruct (is_tag SCHEMA c) eqn:Hc.
  - cbn [strip_forest]. unfold is_tag at 1. rewrite tag_set_children.
    fold (is_tag SCHEMA c). rewrite Hc. reflexivity.
  - cbn [strip_forest]. rewrite Hc. reflexivity.
Qed.

(** Closed form of the second half of [_flatten_includes]. *)
Lemma remove_nested_schemas_eq tree :
  unique_ids tree ->
  remove_nested_schemas tree
  = Ok (set_children tree (flattened (children tree))).
Proof.
  destruct tree as [i tg a ns cs]. intros Hnd.
  pose proof (hoist_markers i tg a ns cs [] Hnd) as L. cbn [app] in L.
  unfold remove_nested_schemas, findall. cbv zeta. cbn [children].
  change (NAMESPACE ++ "schema")%string with SCHEMA. rewrite L.
  cbn [bind set_children]. unfold strip_elements. rewrite strip_in_eq.
  rewrite strip_hoisted. reflexivity.
Qed.

End Hoisting.

(** ** Hoisting out of the wrapper markers *)

(** The marker of the sample holds the children 11 and 12, in this order;
    the flattened root holds them as 12 and 11. *)
Example hoisting_on_two_children :
  exists result,
    remove_nested_schemas Sample.two_children = Ok result /\
    map eid (children result) = [12; 11].
Proof. eexists. split; reflexivity. Qed.

(** C1, as stated, does not hold: with a marker that holds the children 11
    and 12 in this order, the flattened root holds 12 before 11, so the
    hoisted children do not stand in their original relative order. *)
Lemma hoisting_original_order_fails :
  ~ hoists_with original_order Sample.two_children.
Proof.
  intros [result [Hr H]].
  vm_compute in Hr. inversion Hr; subst result; clear Hr.
  specialize (H [] _ [] eq_refl eq_refl).
  vm_compute in H. discriminate H.
Qed.

(** C1, amended: for every wrapper marker found as a direct child of the
    root after inclusion substitution, flattening inserts each child of the
    marker that lacks a [schemaLocation] attribute into the root at the
    position immediately after the marker, so that after flattening the
    hoisted children stand at the marker's former position in the REVERSE of
    their original order (children carrying [schemaLocation] are skipped, and
    the final strip applies to the hoisted children as to everything else). *)
Theorem hoisting_reverses_order (tree : Element) :
  unique_ids tree -> hoists_with (@rev Element) tree.
Proof.
  intros Hnd. exists (set_children tree (flattened (children tree))). split.
  - apply remove_nested_schemas_eq. exact Hnd.
  - intros pre m post E Hm. rewrite children_set_children, E.
    unfold flattened.
    rewrite flattened_with_app, flattened_with_cons, Hm. reflexivity.
Qed.

Lemma hoisting_reverses_order_witness :
  unique_ids Sample.substituted /\ hoists_with (@rev Element) Sample.substituted.
Proof.
  assert (H : unique_ids Sample.substituted)
    by (apply nodupb_sound; reflexivity).
  split; [exact H | exact (hoisting_reverses_order Sample.substituted H)].
Defined.

(** ** Trees without inclusion at the root *)

Lemma findall_nil_find (e : Element) (t : string) :
  findall e t = [] -> find e t = None.
Proof.
  unfold findall, find. induction (children e) as [|c cs IH]; simpl.
  - reflexivity.
  - destruct (is_tag t c); [discriminate | exact IH].
Qed.

Lemma flatten_without_include resource_filename get_schema_path xinclude tree :
  find tree INCLUDE = None ->
  _flatten_includes resource_filename get_schema_path xinclude tree = Ok tree.
Proof.
  intros H. unfold _flatten_includes, _change_include_to_xinclude. cbv zeta.
  change (NAMESPACE ++ "include")%string with INCLUDE. rewrite H. reflexivity.
Qed.

(** C7: for every loaded tree with no bare inclusion directive among the
    children of its root, the rewrite step reports no match, the pipeline
    returns the tree as it was loaded, and construction yields a schema that
    holds exactly the loaded tree: element, attributes, namespace
    declarations and order are those of the loaded tree. *)
Theorem no_include_invariance
  resource_filename get_schema_path load_as_tree xinclude
  (path : string) (log : list string) (loaded_tree : Element) :
  load_as_tree path = Ok loaded_tree ->
  findall loaded_tree INCLUDE = [] ->
  _change_include_to_xinclude resource_filename get_schema_path loaded_tree
  = Ok None /\
  _flatten_includes resource_filename get_schema_path xinclude loaded_tree
  = Ok loaded_tree /\
  __init__ resource_filename get_schema_path load_as_tree xinclude path log
  = (log, Ok (mkSchema loaded_tree [])).
Proof.
  intros Hload Hnone. apply findall_nil_find in Hnone.
  pose proof (flatten_without_include resource_filename get_schema_path
                xinclude loaded_tree Hnone) as Hflat.
  repeat split.
  - unfold _change_include_to_xinclude. cbv zeta.
    change (NAMESPACE ++ "include")%string with INCLUDE. rewrite Hnone.
    reflexivity.
  - exact Hflat.
  - unfold __init__. rewrite Hload, Hflat. reflexivity.
Qed.

Lemma no_include_invariance_witness :
  Sample.load_as_tree "plain.xsd" = Ok Sample.no_include /\
  findall Sample.no_include INCLUDE = [] /\
  __init__ Sample.resource_filename Sample.get_schema_path Sample.load_as_tree
           (Sample.resolver Sample.common) "plain.xsd" []
  = ([], Ok (mkSchema Sample.no_include [])).
Proof.
  split; [reflexivity | split; [reflexivity | ]].
  apply (no_include_invariance Sample.resource_filename Sample.get_schema_path
           Sample.load_as_tree (Sample.resolver Sample.common)
           "plain.xsd" [] Sample.no_include); reflexivity.
Defined.

(** ** Construction *)

(** C8: on every path on which the loader fails with an I/O-kind error,
    construction appends to the log the message that names the path and
    raises the schema error; and whenever construction hands an object to the
    caller, the load succeeded, flattening ran to its end on the loaded tree,
    and the object holds the flattened tree. *)
Theorem load_failure_aborts
  resource_filename get_schema_path load_as_tree xinclude
  (path : string) (log : list string) :
  (load_as_tree path = Raise IOError \/ load_as_tree path = Raise OSError ->
   __init__ resource_filename get_schema_path load_as_tree xinclude path log
   = (log ++ [("Failed to load tree at '" ++ path
                ++ "' when creating Schema.")%string],
      Raise SchemaError))
  /\
  (forall log' schema,
     __init__ resource_filename get_schema_path load_as_tree xinclude path log
     = (log', Ok schema) ->
     exists loaded_tree,
       load_as_tree path = Ok loaded_tree /\
       _flatten_includes resource_filename get_schema_path xinclude loaded_tree
       = Ok (_schema_base_tree schema) /\
       codelists schema = [] /\ log' = log).
Proof.
  split.
  - intros [H|H]; unfold __init__; rewrite H; reflexivity.
  - intros log' schema H. unfold __init__ in H.
    destruct (load_as_tree path) as [loaded_tree|e|] eqn:Hload.
    + exists loaded_tree. split; [reflexivity|].
      destruct (_flatten_includes resource_filename get_schema_path xinclude
                  loaded_tree) as [tree|e|] eqn:Hflat;
        cbn [bind] in H; inversion H; subst. auto.
    + destruct e; inversion H.
    + inversion H.
Qed.

Lemma load_failure_aborts_witness :
  Sample.load_as_tree "missing.xsd" = Raise IOError /\
  __init__ Sample.resource_filename Sample.get_schema_path Sample.load_as_tree
           (Sample.resolver Sample.common) "missing.xsd" []
  = (["Failed to load tree at 'missing.xsd' when creating Schema."],
     Raise SchemaError).
Proof.
  split; [reflexivity|].
  apply (proj1 (load_failure_aborts Sample.resource_filename
                  Sample.get_schema_path Sample.load_as_tree
                  (Sample.resolver Sample.common) "missing.xsd" [])).
  left. reflexivity.
Defined.

(** ** Lookup by name *)

Lemma until_quote_plain (name rest : string) :
  (forall c, In c (list_ascii_of_string name) -> c <> dquote) ->
  until_quote (name ++ String dquote rest)%string = Some (name, rest).
Proof.
  induction name as [|c name IH]; intros H.
  - simpl. reflexivity.
  - simpl. destruct (Ascii.eqb_spec c dquote) as [E|_].
    + exfalso. apply (H c); [left; reflexivity | exact E].
    + rewrite IH; [reflexivity|]. intros d Hd. apply H. right. exact Hd.
Qed.

(** A name free of double quotes is looked up as meant: the first element
    definition of that name below the root, in document order, [None]
    without one. *)
Lemma get_xsd_element_plain (self : Schema) (name : string) :
  (forall c, In c (list_ascii_of_string name) -> c <> dquote) ->
  get_xsd_element self name
  = Ok (List.find (fun e => is_tag (NAMESPACE ++ "element")%string e
                            && has_name name e)
                  (iterdescendants (_schema_base_tree self))).
Proof.
  intros H. unfold get_xsd_element, find_named.
  change (resolve NSMAP "xsd" "element")
    with (@Ok string (NAMESPACE ++ "element")%string).
  cbn [bind]. rewrite until_quote_plain by exact H. reflexivity.
Qed.

(** A name with a double quote that is followed by anything but a closing
    bracket, an exclamation mark or white space makes the lookup raise, on
    every schema. *)
Lemma get_xsd_element_quoted (self : Schema) (before after : string) (c : ascii) :
  (forall d, In d (list_ascii_of_string before) -> d <> dquote) ->
  Ascii.eqb c "]"%char || Ascii.eqb c "!"%char || is_space c = false ->
  get_xsd_element self (before ++ String dquote (String c after))%string
  = Raise SyntaxError.
Proof.
  intros Hplain Hc. unfold get_xsd_element, find_named.
  change (resolve NSMAP "xsd" "element")
    with (@Ok string (NAMESPACE ++ "element")%string).
  cbn [bind].
  replace ((before ++ String dquote (String c after)) ++ String dquote "]")%string
    with (before ++ String dquote (String c (after ++ String dquote "]")))%string.
  - rewrite until_quote_plain by exact Hplain.
    assert (String.eqb (String c (after ++ String dquote "]")) "]" = false)
      as ->.
    { apply String.eqb_neq. intros E. inversion E as [[Ec Ea]].
      subst c. discriminate Hc. }
    rewrite Hc. reflexivity.
  - clear. induction before as [|b before IH]; simpl.
    + reflexivity.
    + rewrite IH. reflexivity.
Qed.

(** C5 fails on the code: the name made of [a], a double quote and [b] is
    the name of no element of the tree, and the lookup raises a syntax error
    where the claim (and the docstring of the method) promise [None]. *)
Theorem get_xsd_element_quote_raises :
  List.find (has_name Sample.quoted_name)
            (iter (_schema_base_tree Sample.quoted)) = None /\
  get_xsd_element Sample.quoted Sample.quoted_name = Raise SyntaxError.
Proof. split; reflexivity. Qed.

(** C10 fails on the code for the same reason: the child definition refers
    to a name that no element has, and instead of a list with [None] at its
    position the caller gets the syntax error of the lookup. *)
Theorem get_child_xsd_elements_quote_raises :
  shape Sample.quoted_parent
  = [Sample.el 4 "element" [("ref", Sample.quoted_name)] []] /\
  List.find (has_name Sample.quoted_name)
            (iter (_schema_base_tree Sample.quoted)) = None /\
  get_child_xsd_elements Sample.quoted Sample.quoted_parent
  = Raise SyntaxError.
Proof. repeat split; reflexivity. Qed.

(** ** Children of an element *)

Lemma Forall2_in_right {A B : Type} (R : A -> B -> Prop) l r b :
  Forall2 R l r -> In b r -> exists a, In a l /\ R a b.
Proof.
  induction 1 as [|x y l r Hxy _ IH]; intros Hin; [destruct Hin|].
  destruct Hin as [E|Hin].
  - subst. exists x. split; [left; reflexivity | exact Hxy].
  - destruct (IH Hin) as [a [Ha HR]]. exists a. split; [right|]; assumption.
Qed.

Lemma get_child_xsd_elements_eq (self : Schema) (parent_element : Element) :
  get_child_xsd_elements self parent_element
  = foldM (fun output element_or_ref =>
             match get "ref" (attrib element_or_ref) with
             | Some ref =>
                 found <- get_xsd_element self ref ;;
                 Ok (output ++ [found])
             | None =>
                 match get "name" (attrib element_or_ref) with
                 | Some _ => Ok (output ++ [Some element_or_ref])
                 | None => Ok output
                 end
             end)
          (shape parent_element) [].
Proof. reflexivity. Qed.

Lemma flat_map_nested {A B C : Type} (f : A -> list B) (g : B -> list C) l :
  flat_map g (flat_map f l) = flat_map (fun x => flat_map g (f x)) l.
Proof.
  induction l as [|x l IH]; cbn [flat_map]; [reflexivity|].
  rewrite flat_map_app, IH. reflexivity.
Qed.

(** The path of [get_child_xsd_elements] reads the child definitions. *)
Lemma shape_child_definitions (parent_element : Element) :
  shape parent_element = child_definitions parent_element.
Proof.
  unfold shape, child_definitions. cbn [findall_steps].
  rewrite !flat_map_nested. cbn [flat_map]. rewrite app_nil_r.
  reflexivity.
Qed.

(** What [List.find] gives is the first element that passes the test. *)
Lemma find_is_first (p : Element -> bool) l :
  match List.find p l with
  | Some e =>
      p e = true /\
      exists before after,
        l = before ++ e :: after /\ forall d, In d before -> p d = false
  | None => forall d, In d l -> p d = false
  end.
Proof.
  induction l as [|a l IH]; cbn [List.find]; [intros d []|].
  destruct (p a) eqn:Ha.
  - split; [exact Ha|]. exists [], l. split; [reflexivity | intros d []].
  - destruct (List.find p l) as [e|].
    + destruct IH as [He [before [after [E Hb]]]]. split; [exact He|].
      exists (a :: before), after. split; [rewrite E; reflexivity|].
      intros d [Ed|Hd]; [subst; exact Ha | apply Hb; exact Hd].
    + intros d [Ed|Hd]; [subst; exact Ha | apply IH; exact Hd].
Qed.

(** The lookup of a name free of double quotes gives the first element
    definition of that name below the root. *)
Lemma get_xsd_element_first (self : Schema) (name : string) :
  plain name ->
  exists r, get_xsd_element self name = Ok r /\
            first_definition (_schema_base_tree self) name r.
Proof.
  intros Hplain.
  exists (List.find (defines_name name)
                    (iterdescendants (_schema_base_tree self))).
  split; [exact (get_xsd_element_plain self name Hplain)|].
  unfold first_definition.
  exact (find_is_first (defines_name name)
           (iterdescendants (_schema_base_tree self))).
Qed.

Lemma first_definition_named tree name e :
  first_definition tree name (Some e) ->
  In e (iterdescendants tree) /\
  tag e = ELEMENT /\ get "name" (attrib e) = Some name.
Proof.
  intros [Hdef [before [after [E _]]]]. split.
  - rewrite E. apply in_or_app. right. left. reflexivity.
  - unfold defines_name, has_name, is_tag in Hdef.
    apply andb_prop in Hdef. destruct Hdef as [Ht Hn].
    apply String.eqb_eq in Ht. split; [exact Ht|].
    destruct (get "name" (attrib e)) as [v|]; [ | discriminate].
    apply String.eqb_eq in Hn. subst. reflexivity.
Qed.

(** The loop of [get_child_xsd_elements]: what a returned list holds. *)
Lemma children_loop_sound (self : Schema) l :
  forall acc output,
    foldM (fun output element_or_ref =>
             match get "ref" (attrib element_or_ref) with
             | Some ref =>
                 found <- get_xsd_element self ref ;;
                 Ok (output ++ [found])
             | None =>
                 match get "name" (attrib element_or_ref) with
                 | Some _ => Ok (output ++ [Some element_or_ref])
                 | None => Ok output
                 end
             end) l acc = Ok output ->
    exists out, output = acc ++ out /\
                Forall2 (entry_for self) (filter defined l) out.
Proof.
  induction l as [|c l IH]; intros acc output H.
  - cbn [foldM] in H. inversion H; subst. exists [].
    rewrite app_nil_r. split; [reflexivity | constructor].
  - cbn [foldM filter] in *.
    unfold defined at 1, contains.
    destruct (get "ref" (attrib c)) as [target|] eqn:Href.
    + destruct (get_xsd_element self target) as [found|e|] eqn:Hfound;
        cbn [bind] in H; try discriminate H.
      destruct (IH _ _ H) as [out [E HF]]. exists (found :: out).
      cbn [orb]. split.
      * rewrite E, <- app_assoc. reflexivity.
      * constructor; [ | exact HF].
        apply entry_by_ref with (target := target); assumption.
    + destruct (get "name" (attrib c)) as [n|] eqn:Hname;
        cbn [bind orb] in *.
      * destruct (IH _ _ H) as [out [E HF]]. exists (Some c :: out).
        split.
        -- rewrite E, <- app_assoc. reflexivity.
        -- constructor; [ | exact HF].
           apply entry_by_value with (n := n); assumption.
      * apply IH. exact H.
Qed.

(** The loop on references free of double quotes: it returns, and every
    entry is resolved. *)
Lemma children_loop_plain (self : Schema) l :
  (forall c target, In c l -> get "ref" (attrib c) = Some target ->
                    plain target) ->
  forall acc,
    exists out,
      foldM (fun output element_or_ref =>
               match get "ref" (attrib element_or_ref) with
               | Some ref =>
                   found <- get_xsd_element self ref ;;
                   Ok (output ++ [found])
               | None =>
                   match get "name" (attrib element_or_ref) with
                   | Some _ => Ok (output ++ [Some element_or_ref])
                   | None => Ok output
                   end
               end) l acc = Ok (acc ++ out) /\
      Forall2 (resolved self) (filter defined l) out.
Proof.
  induction l as [|c l IH]; intros Hl acc.
  - exists []. cbn [foldM filter]. rewrite app_nil_r.
    split; [reflexivity | constructor].
  - assert (Hl' : forall c0 target, In c0 l ->
                    get "ref" (attrib c0) = Some target -> plain target)
      by (intros c0 target Hin; apply Hl; right; exact Hin).
    cbn [foldM filter]. unfold defined at 1, contains.
    destruct (get "ref" (attrib c)) as [target|] eqn:Href.
    + destruct (get_xsd_element_first self target
                  (Hl c target (or_introl eq_refl) Href))
        as [found [Hfound Hfirst]].
      rewrite Hfound. cbn [bind orb].
      destruct (IH Hl' (acc ++ [found])) as [out [Hrun HF]].
      exists (found :: out). split.
      * rewrite Hrun, <- app_assoc. reflexivity.
      * constructor; [ | exact HF]. split.
        -- apply entry_by_ref with (target := target); assumption.
        -- intros target' Href'. rewrite Href in Href'.
           inversion Href'; subst target'. split; [exact Hfirst|].
           intros Hname E. subst found.
           apply first_definition_named in Hfirst.
           apply Hname. exact (proj2 (proj2 Hfirst)).
    + destruct (get "name" (attrib c)) as [n|] eqn:Hname; cbn [bind orb].
      * destruct (IH Hl' (acc ++ [Some c])) as [out [Hrun HF]].
        exists (Some c :: out). split.
        -- rewrite Hrun, <- app_assoc. reflexivity.
        -- constructor; [ | exact HF]. split.
           ++ apply entry_by_value with (n := n); assumption.
           ++ intros target Href'. rewrite Href in Href'. discriminate Href'.
      * apply IH. exact Hl'.
Qed.

(** The list of children of a parent whose references are free of double
    quotes. *)
Lemma get_child_xsd_elements_plain (self : Schema) (parent_element : Element) :
  plain_references parent_element ->
  exists output,
    get_child_xsd_elements self parent_element = Ok output /\
    Forall2 (resolved self)
            (filter defined (child_definitions parent_element)) output.
Proof.
  intros Hplain. rewrite get_child_xsd_elements_eq, shape_child_definitions.
  destruct (children_loop_plain self (child_definitions parent_element)
              Hplain []) as [out [Hrun HF]].
  exists out. split; [exact Hrun | exact HF].
Qed.

(** On the sample parent whose referring child is named as its own target,
    the list of children holds that child itself. *)
Lemma reference_stub_is_returned :
  ~ resolves_without_stub Sample.self_named Sample.self_named_parent.
Proof.
  intros [output [Hout HF]].
  assert (E : get_child_xsd_elements Sample.self_named
                Sample.self_named_parent
              = Ok [Some (Sample.el 4 "element"
                                    [("ref", "t"); ("name", "t")] [])])
    by reflexivity.
  rewrite E in Hout. inversion Hout; subst output. clear Hout E.
  change (filter defined (child_definitions Sample.self_named_parent))
    with [Sample.el 4 "element" [("ref", "t"); ("name", "t")] []] in HF.
  inversion HF as [|c o l r [_ Hstub] _]; subst.
  apply Hstub; reflexivity.
Qed.

(** C4: for a parent whose references have no double quote in their target,
    [get_child_xsd_elements] returns a list that runs through the child
    definitions carrying [ref] or [name], in document order.  A definition
    by reference has what the lookup by name gives for its target: the first
    element definition of that name below the root, or [None] without one;
    this is the referring child itself only when that child bears the name
    it refers to.  A definition by value (a [name] and no [ref]) stands for
    itself, and a definition with neither is left out.  Whatever the
    references, a list that is returned has for every such definition the
    result of the lookup or the definition itself. *)
Theorem children_resolve_references (self : Schema) (parent_element : Element) :
  (plain_references parent_element ->
   exists output,
     get_child_xsd_elements self parent_element = Ok output /\
     Forall2 (resolved self)
             (filter defined (child_definitions parent_element)) output)
  /\
  (forall output,
      get_child_xsd_elements self parent_element = Ok output ->
      Forall2 (entry_for self)
              (filter defined (child_definitions parent_element)) output).
Proof.
  split.
  - apply get_child_xsd_elements_plain.
  - intros output H.
    rewrite get_child_xsd_elements_eq, shape_child_definitions in H.
    destruct (children_loop_sound self _ _ _ H) as [out [E HF]].
    cbn [app] in E. subst out. exact HF.
Qed.

Lemma children_resolve_references_witness :
  exists output,
    get_child_xsd_elements Sample.navigable Sample.parent = Ok output /\
    Forall2 (resolved Sample.navigable)
            [Sample.el 4 "element" [("ref", "title")] [];
             Sample.el 5 "element" [("name", "inline")] [];
             Sample.el 7 "element" [("ref", "missing")] []]
            output.
Proof.
  apply (proj1 (children_resolve_references Sample.navigable Sample.parent)).
  intros c target Hin Href ch Hch. vm_compute in Hin.
  destruct Hin as [E|[E|[E|[E|[]]]]]; subst c; vm_compute in Href;
    inversion Href; subst target; vm_compute in Hch;
    repeat (destruct Hch as [Hch|Hch]; [subst ch; discriminate|]);
    destruct Hch.
Defined.

(** The list for the sample parent: the reference to [title] resolved, the
    inline definition as it is, the definition without [ref] and [name] left
    out, [None] for the reference to a name that no element has. *)
Example children_of_sample_parent :
  get_child_xsd_elements Sample.navigable Sample.parent
  = Ok [Some (Sample.el 8 "element" [("name", "title")] []);
        Some (Sample.el 5 "element" [("name", "inline")] []);
        None].
Proof. reflexivity. Qed.

(** ** The inclusion rewriter *)

Section Rewriter.

Lemma set_attrib_eq k key v i tg a ns cs :
  set_attrib k key v (Elem i tg a ns cs)
  = Elem i tg (if Nat.eqb i k then set_item key v a else a) ns
         (map (set_attrib k key v) cs).
Proof. reflexivity. Qed.

Lemma set_attrib_notin k key v e :
  ~ In k (ids e) -> set_attrib k key v e = e.
Proof.
  induction e as [j tg a ns cs IH] using Element_tree_ind.
  intros H. rewrite set_attrib_eq. rewrite ids_eq in H.
  destruct (Nat.eqb_spec j k) as [E|_]; [exfalso; apply H; left; exact E|].
  f_equal.
  assert (Hcs : ~ In k (flat_map ids cs)) by (intros X; apply H; right; exact X).
  clear H. induction cs as [|c cs IHcs]; simpl; [reflexivity|].
  inversion IH as [|? ? Hc Hrest]; subst.
  simpl in Hcs. rewrite in_app_iff in Hcs.
  rewrite Hc by tauto. rewrite IHcs by tauto. reflexivity.
Qed.

Lemma map_set_attrib_notin k key v cs :
  ~ In k (flat_map ids cs) -> map (set_attrib k key v) cs = cs.
Proof.
  induction cs as [|c cs IH]; simpl; [reflexivity|].
  rewrite in_app_iff. intros H.
  rewrite set_attrib_notin by tauto. rewrite IH by tauto. reflexivity.
Qed.

Lemma find_middle (p : Element -> bool) pre x post :
  (forall c, In c pre -> p c = false) -> p x = true ->
  List.find p (pre ++ x :: post) = Some x.
Proof.
  intros Hpre Hx. induction pre as [|c pre IH]; simpl.
  - rewrite Hx. reflexivity.
  - rewrite (Hpre c) by (left; reflexivity).
    apply IH. intros d Hd. apply Hpre. right. exact Hd.
Qed.

Lemma list_max_ge x l : In x l -> x <= list_max l.
Proof.
  induction l as [|y l IH]; simpl; intros H; [destruct H|].
  destruct H as [E|H]; [subst; lia | specialize (IH H); lia].
Qed.

Lemma fresh_notin e : ~ In (fresh e) (ids e).
Proof.
  unfold fresh. intros H. apply list_max_ge in H. lia.
Qed.

Lemma get_set_item k v d : get k (set_item k v d) = Some v.
Proof.
  induction d as [|[k' v'] d IH]; simpl.
  - rewrite String.eqb_refl. reflexivity.
  - destruct (String.eqb k' k) eqn:E; simpl; rewrite E; [reflexivity | exact IH].
Qed.

(** Inserting a new element behind a child of the root. *)
Lemma insert_after_fresh i tg a ns pre x post e :
  NoDup (ids (Elem i tg a ns (pre ++ x :: post))) ->
  ~ In (eid e) (ids (Elem i tg a ns (pre ++ x :: post))) ->
  insert (Elem i tg a ns (pre ++ x :: post)) (List.length pre + 1) e
  = Elem i tg a ns (pre ++ x :: e :: post).
Proof.
  intros Hnd Hfresh. rewrite ids_eq in Hfresh.
  assert (Hf : ~ In (eid e) (flat_map ids (pre ++ x :: post)))
    by (intros X; apply Hfresh; right; exact X).
  unfold insert. cbn [children set_children].
  rewrite (detach_notin _ _ Hf).
  replace (List.length pre + 1) with (S (List.length pre)) by lia.
  rewrite nth_error_app2 by lia.
  replace (S (List.length pre) - List.length pre) with 1 by lia.
  cbn [nth_error]. destruct post as [|c post].
  - cbn [nth_error]. rewrite <- app_assoc. reflexivity.
  - cbn [nth_error].
    rewrite (NoDup_count_occ Nat.eq_dec) in Hnd.
    assert (Hc := Hnd (eid c)). occ_norm_in Hc.
    pose proof (occ_ids_self c) as Hcself.
    assert (is_id (eid e) c = false) as ->.
    { unfold is_id. apply Nat.eqb_neq. intros E. apply Hf. rewrite <- E.
      rewrite flat_map_app. apply in_or_app. right. cbn [flat_map].
      apply in_or_app. right. apply in_or_app. left. apply eid_in_ids. }
    change (pre ++ x :: c :: post) with (pre ++ [x] ++ c :: post).
    rewrite app_assoc.
    rewrite insert_before_middle; [ | reflexivity | ].
    + rewrite <- app_assoc. reflexivity.
    + apply occ_notin. occ_norm. cbn [count_occ]. lia.
Qed.

Lemma tag_strip_in t e : tag (strip_in t e) = tag e.
Proof. destruct e; reflexivity. Qed.

Lemma iter_eq e : iter e = e :: iterdescendants e.
Proof. destruct e; reflexivity. Qed.

(** Nothing of the stripped tag is left below the element. *)
Lemma strip_in_clean t e : count_below t (strip_in t e) = 0.
Proof.
  unfold count_below.
  induction e as [j tg a ns cs IH] using Element_tree_ind.
  rewrite strip_in_eq. unfold iterdescendants. cbn [children].
  induction cs as [|c cs IHcs]; [reflexivity|].
  inversion IH as [|? ? Hc Hrest]; subst.
  cbn [strip_forest]. destruct (is_tag t c) eqn:Ht.
  - apply IHcs. exact Hrest.
  - cbn [flat_map]. rewrite iter_eq, filter_app, length_app.
    cbn [filter]. unfold is_tag at 1. rewrite tag_strip_in.
    fold (is_tag t c). rewrite Ht. rewrite Hc, IHcs by exact Hrest.
    reflexivity.
Qed.

End Rewriter.

(** C3: when a bare inclusion directive with a [schemaLocation] is a child
    of the root and the root has an import directive, the rewriter returns
    the tree in which the first import directive has its [schemaLocation]
    set to the base-definitions path, the new resolved-inclusion element
    stands immediately behind it, the children in front of and behind the
    import keep their order, and no bare inclusion directive is left
    anywhere below the root. *)
Theorem rewriter_redirects_inserts_strips
  resource_filename get_schema_path
  (tree include_el import_el : Element) (location : string)
  (pre post : list Element) :
  unique_ids tree ->
  find tree INCLUDE = Some include_el ->
  get "schemaLocation" (attrib include_el) = Some location ->
  children tree = pre ++ import_el :: post ->
  is_tag IMPORT import_el = true ->
  (forall c, In c pre -> is_tag IMPORT c = false) ->
  let base := resource_filename (get_schema_path "xml") in
  let href := resource_filename (get_schema_path (drop_last4 location)) in
  let tree' :=
    Elem (eid tree) (tag tree) (attrib tree)
         (set_item xi_name xi_uri (nsmap tree))
         (strip_forest INCLUDE pre
          ++ strip_in INCLUDE (redirected base import_el)
          :: resolved_inclusion tree href
          :: strip_forest INCLUDE post) in
  _change_include_to_xinclude resource_filename get_schema_path tree
  = Ok (Some tree') /\
  get "schemaLocation" (attrib (strip_in INCLUDE (redirected base import_el)))
  = Some base /\
  count_below INCLUDE tree' = 0.
Proof.
  intros Hnd Hinc Hloc Hcs Himp Hpre base href tree'.
  destruct tree as [i tg a ns cs]. cbn [children] in Hcs. subst cs.
  assert (Hrun : _change_include_to_xinclude resource_filename get_schema_path
                   (Elem i tg a ns (pre ++ import_el :: post))
                 = Ok (Some tree')).
  { unfold _change_include_to_xinclude. cbv zeta.
    change (NAMESPACE ++ "include")%string with INCLUDE.
    change (NAMESPACE ++ "import")%string with IMPORT.
    rewrite Hinc, Hloc.
    unfold add_namespace. unfold find at 1. cbn [children].
    rewrite (find_middle (is_tag IMPORT) pre import_el post Hpre Himp).
    unfold unique_ids in Hnd.
    pose proof Hnd as Hocc. rewrite (NoDup_count_occ Nat.eq_dec) in Hocc.
    assert (Hj := Hocc (eid import_el)). occ_norm_in Hj.
    rewrite (ids_as_children import_el) in Hj. occ_norm_in Hj.
    rewrite Nat.eqb_refl in Hj. cbn [Nat.b2n] in Hj.
    rewrite set_attrib_eq.
    assert (Nat.eqb i (eid import_el) = false) as ->.
    { apply Nat.eqb_neq. intros E. rewrite E, Nat.eqb_refl in Hj.
      cbn [Nat.b2n] in Hj. lia. }
    rewrite map_app. cbn [map].
    rewrite map_set_attrib_notin by (apply occ_notin; lia).
    rewrite (map_set_attrib_notin _ _ _ post) by (apply occ_notin; lia).
    assert (Hred : set_attrib (eid import_el) "schemaLocation" base import_el
                   = redirected base import_el).
    { destruct import_el as [ii it ia ins ics]. rewrite set_attrib_eq.
      cbn [eid]. rewrite Nat.eqb_refl. unfold redirected.
      cbn [eid tag attrib nsmap children]. f_equal.
      cbn [eid children] in Hj.
      apply map_set_attrib_notin. apply occ_notin. lia. }
    fold base. rewrite Hred.
    set (ns' := set_item xi_name xi_uri ns).
    rewrite getparent_child
      by (cbn [children]; apply existsb_is_id_middle; reflexivity).
    unfold index. cbn [children].
    rewrite (position_middle (eid import_el) pre (redirected base import_el)
               post eq_refl) by (apply occ_notin; lia).
    cbn [bind].
    assert (Hids : ids (Elem i tg a ns'
                          (pre ++ redirected base import_el :: post))
                   = ids (Elem i tg a ns (pre ++ import_el :: post))).
    { rewrite !ids_eq, !flat_map_app. cbn [flat_map].
      rewrite (ids_as_children import_el). reflexivity. }
    rewrite insert_after_fresh.
    - unfold strip_elements. rewrite strip_in_eq.
      rewrite strip_forest_app. cbn [strip_forest].
      assert (is_tag INCLUDE (redirected base import_el) = false) as ->.
      { unfold is_tag, redirected. cbn [tag].
        unfold is_tag in Himp. apply String.eqb_eq in Himp. rewrite Himp.
        reflexivity. }
      change (is_tag INCLUDE
                (Elem (fresh (Elem i tg a ns' (pre ++ import_el :: post)))
                      ("{" ++ xi_uri ++ "}include")%string
                      [("href", resource_filename
                                  (get_schema_path (drop_last4 location)));
                       ("parse", "xml")]
                      (set_item xi_name xi_uri NSMAP) []))
        with false.
      cbv iota. rewrite strip_in_eq. cbn [strip_forest].
      reflexivity.
    - rewrite Hids. exact Hnd.
    - rewrite Hids. cbn [eid].
      apply (fresh_notin (Elem i tg a ns (pre ++ import_el :: post))). }
  split; [exact Hrun | split].
  - destruct import_el as [ii it ia ins ics]. unfold redirected.
    cbn [eid tag attrib nsmap children]. rewrite strip_in_eq. cbn [attrib].
    apply get_set_item.
  - pose proof (strip_in_clean INCLUDE
                  (Elem i tg a (set_item xi_name xi_uri ns)
                        (pre ++ redirected base import_el
                             :: resolved_inclusion
                                  (Elem i tg a ns (pre ++ import_el :: post))
                                  href
                             :: post))) as Hclean.
    rewrite strip_in_eq in Hclean.
    rewrite strip_forest_app in Hclean. cbn [strip_forest] in Hclean.
    assert (E1 : is_tag INCLUDE (redirected base import_el) = false).
    { unfold is_tag, redirected. cbn [tag].
      unfold is_tag in Himp. apply String.eqb_eq in Himp. rewrite Himp.
      reflexivity. }
    rewrite E1 in Hclean.
    change (is_tag INCLUDE
              (resolved_inclusion
                 (Elem i tg a ns (pre ++ import_el :: post)) href))
      with false in Hclean.
    cbv iota in Hclean.
    unfold resolved_inclusion in Hclean at 1. rewrite strip_in_eq in Hclean.
    cbn [strip_forest] in Hclean.
    exact Hclean.
Qed.

Lemma rewriter_redirects_inserts_strips_witness :
  _change_include_to_xinclude Sample.resource_filename Sample.get_schema_path
                              Sample.activity
  = Ok (Some
          (Elem 0 (NAMESPACE ++ "schema")%string [] [(xi_name, xi_uri)]
             [Sample.el 1 "import" [("schemaLocation", "/res/schemas/xml.xsd")] [];
              Elem 5 XINCLUDE
                   [("href", "/res/schemas/iati-common.xsd"); ("parse", "xml")]
                   [("xsd", "http://www.w3.org/2001/XMLSchema");
                    (xi_name, xi_uri)] [];
              Sample.el 3 "element" [("name", "root")] []])).
Proof.
  refine (proj1 (rewriter_redirects_inserts_strips
                   Sample.resource_filename Sample.get_schema_path
                   Sample.activity
                   (Sample.el 2 "include"
                              [("schemaLocation", "iati-common.xsd")] [])
                   (Sample.el 1 "import" [("schemaLocation", "xml.xsd")] [])
                   "iati-common.xsd" []
                   [Sample.el 2 "include"
                              [("schemaLocation", "iati-common.xsd")] [];
                    Sample.el 3 "element" [("name", "root")]
                              [Sample.el 4 "include" [] []]]
                   _ _ _ _ _ _)).
  - apply nodupb_sound. reflexivity.
  - reflexivity.
  - reflexivity.
  - reflexivity.
  - reflexivity.
  - intros c [].
Defined.

(** ** What the final strip removes *)

Section Stripping.

Variable t : string.

Lemma eid_strip_in e : eid (strip_in t e) = eid e.
Proof. destruct e; reflexivity. Qed.

Lemma ids_in_iter m e : In m (iter e) -> incl (ids m) (ids e).
Proof.
  induction e as [j tg a ns cs IH] using Element_tree_ind.
  rewrite iter_eq. intros [E|H].
  - subst. apply incl_refl.
  - unfold iterdescendants in H. cbn [children] in H.
    apply in_flat_map in H. destruct H as [c [Hc Hm]].
    rewrite Forall_forall in IH.
    intros x Hx. rewrite ids_eq. right. apply in_flat_map.
    exists c. split; [exact Hc | exact (IH c Hc Hm x Hx)].
Qed.

(** Stripping adds no identity. *)
Lemma occ_strip_forest_from x cs :
  Forall (fun c => count_occ Nat.eq_dec (ids (strip_in t c)) x
                   <= count_occ Nat.eq_dec (ids c) x) cs ->
  count_occ Nat.eq_dec (flat_map ids (strip_forest t cs)) x
  <= count_occ Nat.eq_dec (flat_map ids cs) x.
Proof.
  induction 1 as [|c cs Hc _ IH]; [reflexivity|].
  cbn [strip_forest flat_map]. destruct (is_tag t c).
  - rewrite count_occ_app. lia.
  - cbn [flat_map]. rewrite !count_occ_app. lia.
Qed.

Lemma occ_strip_in x e :
  count_occ Nat.eq_dec (ids (strip_in t e)) x <= count_occ Nat.eq_dec (ids e) x.
Proof.
  induction e as [j tg a ns cs IH] using Element_tree_ind.
  rewrite strip_in_eq, !ids_eq, !occ_cons.
  pose proof (occ_strip_forest_from x cs IH). lia.
Qed.

Lemma occ_strip_forest x cs :
  count_occ Nat.eq_dec (flat_map ids (strip_forest t cs)) x
  <= count_occ Nat.eq_dec (flat_map ids cs) x.
Proof.
  apply occ_strip_forest_from. apply Forall_forall. intros c _.
  apply occ_strip_in.
Qed.

Lemma strip_forest_loses_from cs m x :
  Forall (loses t) cs ->
  In m (flat_map iter cs) -> is_tag t m = true -> In x (ids m) ->
  count_occ Nat.eq_dec (flat_map ids (strip_forest t cs)) x + 1
  <= count_occ Nat.eq_dec (flat_map ids cs) x.
Proof.
  intros HF Hm Ht Hx. induction HF as [|c cs Hc _ IH]; [destruct Hm|].
  cbn [flat_map] in Hm. apply in_app_or in Hm.
  cbn [strip_forest flat_map]. rewrite count_occ_app.
  pose proof (occ_strip_forest x cs) as Hmono.
  pose proof (occ_strip_in x c) as Hmono_c.
  destruct Hm as [Hm|Hm].
  - assert (Hxc : 1 <= count_occ Nat.eq_dec (ids c) x)
      by (apply occ_in; exact (ids_in_iter m c Hm x Hx)).
    destruct (is_tag t c) eqn:Hc_tag.
    + lia.
    + cbn [flat_map]. rewrite count_occ_app.
      rewrite iter_eq in Hm. destruct Hm as [E|Hm].
      * subst m. congruence.
      * specialize (Hc m x Hm Ht Hx). lia.
  - specialize (IH Hm). destruct (is_tag t c).
    + lia.
    + cbn [flat_map]. rewrite count_occ_app. lia.
Qed.

Lemma strip_in_loses e : loses t e.
Proof.
  induction e as [j tg a ns cs IH] using Element_tree_ind.
  intros m x Hm Ht Hx. unfold iterdescendants in Hm. cbn [children] in Hm.
  rewrite strip_in_eq, !ids_eq, !occ_cons.
  pose proof (strip_forest_loses_from cs m x IH Hm Ht Hx). lia.
Qed.

Lemma strip_forest_loses cs m x :
  In m (flat_map iter cs) -> is_tag t m = true -> In x (ids m) ->
  count_occ Nat.eq_dec (flat_map ids (strip_forest t cs)) x + 1
  <= count_occ Nat.eq_dec (flat_map ids cs) x.
Proof.
  apply strip_forest_loses_from. apply Forall_forall. intros c _.
  apply strip_in_loses.
Qed.

Lemma tagged_cons u (x : Element) l :
  List.length (filter (is_tag u) (x :: l))
  = Nat.b2n (is_tag u x) + List.length (filter (is_tag u) l).
Proof. cbn [filter]. destruct (is_tag u x); reflexivity. Qed.

Lemma is_tag_strip_in u e : is_tag u (strip_in t e) = is_tag u e.
Proof. unfold is_tag. rewrite tag_strip_in. reflexivity. Qed.

Lemma is_tag_set_children u e cs : is_tag u (set_children e cs) = is_tag u e.
Proof. unfold is_tag. rewrite tag_set_children. reflexivity. Qed.

(** Stripping adds no element of any tag. *)
Lemma tagged_strip_forest_from u cs :
  Forall (fun c => List.length (filter (is_tag u) (iter (strip_in t c)))
                   <= List.length (filter (is_tag u) (iter c))) cs ->
  List.length (filter (is_tag u) (flat_map iter (strip_forest t cs)))
  <= List.length (filter (is_tag u) (flat_map iter cs)).
Proof.
  induction 1 as [|c cs Hc _ IH]; [reflexivity|].
  cbn [strip_forest flat_map]. destruct (is_tag t c).
  - rewrite filter_app, length_app. lia.
  - cbn [flat_map]. rewrite !filter_app, !length_app. lia.
Qed.

Lemma tagged_strip_in u e :
  List.length (filter (is_tag u) (iter (strip_in t e)))
  <= List.length (filter (is_tag u) (iter e)).
Proof.
  induction e as [j tg a ns cs IH] using Element_tree_ind.
  pose proof (tagged_strip_forest_from u cs IH) as H.
  rewrite !iter_eq, !tagged_cons, is_tag_strip_in.
  rewrite strip_in_eq. unfold iterdescendants. cbn [children]. lia.
Qed.

Lemma tagged_strip_forest u cs :
  List.length (filter (is_tag u) (flat_map iter (strip_forest t cs)))
  <= List.length (filter (is_tag u) (flat_map iter cs)).
Proof.
  apply tagged_strip_forest_from. apply Forall_forall. intros c _.
  apply tagged_strip_in.
Qed.

End Stripping.

Section Moving.

(** Hoisting moves elements; it neither drops nor copies one. *)
Lemma occ_split_children x (cs : list Element) :
  count_occ Nat.eq_dec (flat_map ids cs) x
  = count_occ Nat.eq_dec (flat_map ids (filter skipped cs)) x
    + count_occ Nat.eq_dec (flat_map ids (rev (filter hoistable cs))) x.
Proof.
  induction cs as [|c cs IH]; [reflexivity|].
  cbn [filter flat_map]. unfold hoistable at 1.
  destruct (skipped c); cbn [negb flat_map rev];
    rewrite ?flat_map_app, ?count_occ_app, IH; cbn [flat_map];
    rewrite ?app_nil_r; lia.
Qed.

Lemma occ_hoisted x cs :
  count_occ Nat.eq_dec (flat_map ids (hoisted cs)) x
  = count_occ Nat.eq_dec (flat_map ids cs) x.
Proof.
  induction cs as [|c cs IH]; [reflexivity|].
  unfold hoisted. cbn [flat_map]. fold (hoisted cs).
  rewrite flat_map_app, !count_occ_app, IH.
  destruct (is_tag SCHEMA c).
  - cbn [flat_map]. rewrite ids_set_children, (ids_as_children c).
    rewrite count_occ_app, !occ_cons.
    rewrite (occ_split_children x (children c)). lia.
  - cbn [flat_map]. rewrite app_nil_r. reflexivity.
Qed.

Lemma tagged_split_children u (cs : list Element) :
  List.length (filter (is_tag u) (flat_map iter cs))
  = List.length (filter (is_tag u) (flat_map iter (filter skipped cs)))
    + List.length (filter (is_tag u)
                          (flat_map iter (rev (filter hoistable cs)))).
Proof.
  induction cs as [|c cs IH]; [reflexivity|].
  cbn [filter flat_map]. unfold hoistable at 1.
  destruct (skipped c); cbn [negb flat_map rev];
    rewrite ?flat_map_app, ?filter_app, ?length_app, IH; cbn [flat_map];
    rewrite ?app_nil_r; lia.
Qed.

Lemma tagged_hoisted u cs :
  List.length (filter (is_tag u) (flat_map iter (hoisted cs)))
  = List.length (filter (is_tag u) (flat_map iter cs)).
Proof.
  induction cs as [|c cs IH]; [reflexivity|].
  unfold hoisted. cbn [flat_map]. fold (hoisted cs).
  rewrite flat_map_app, !filter_app, !length_app, IH.
  destruct (is_tag SCHEMA c).
  - cbn [flat_map]. rewrite filter_app, length_app.
    rewrite !iter_eq, !tagged_cons, is_tag_set_children.
    unfold iterdescendants. rewrite children_set_children.
    rewrite (tagged_split_children u (children c)). lia.
  - cbn [flat_map]. rewrite app_nil_r. reflexivity.
Qed.

(** An element below a child of the root is still in the forest when every
    marker had its turn. *)
Lemma nested_in_hoisted cs c m :
  In c cs -> In m (iterdescendants c) -> In m (flat_map iter (hoisted cs)).
Proof.
  intros Hc Hm.
  assert (H : exists y, In y (hoisted cs) /\ In m (iter y)).
  { destruct (is_tag SCHEMA c) eqn:Htag.
    - unfold iterdescendants in Hm. apply in_flat_map in Hm.
      destruct Hm as [d [Hd Hmd]].
      destruct (skipped d) eqn:Hs.
      + exists (set_children c (filter skipped (children c))). split.
        * apply in_flat_map. exists c. split; [exact Hc|].
          rewrite Htag. left. reflexivity.
        * rewrite iter_eq. right.
          unfold iterdescendants. rewrite children_set_children.
          apply in_flat_map. exists d. split; [ | exact Hmd].
          apply filter_In. split; assumption.
      + exists d. split; [ | exact Hmd].
        apply in_flat_map. exists c. split; [exact Hc|].
        rewrite Htag. right. apply -> in_rev.
        apply filter_In. split; [exact Hd|]. unfold hoistable. rewrite Hs.
        reflexivity.
    - exists c. split.
      + apply in_flat_map. exists c. split; [exact Hc|].
        rewrite Htag. left. reflexivity.
      + rewrite iter_eq. right. exact Hm. }
  destruct H as [y [Hy Hmy]]. apply in_flat_map. exists y. split; assumption.
Qed.

End Moving.

(** ** Markers that are not children of the root *)

(** C9: a wrapper marker that lies in the substituted tree deeper than the
    children of the root is never given a turn: flattening returns, and
    neither the marker nor any element below it is in the flattened tree; in
    particular none of its children has become a child of the root. *)
Theorem nested_marker_is_removed_whole (tree m : Element) :
  unique_ids tree ->
  nested_below_root_children tree m ->
  is_tag SCHEMA m = true ->
  exists result,
    remove_nested_schemas tree = Ok result /\
    (forall d, In d (iter m) -> ~ In (eid d) (ids result)) /\
    (forall d r, In d (children m) -> In r (children result) ->
                 eid r <> eid d).
Proof.
  intros Hnd [c [Hc Hm]] Htag.
  exists (set_children tree (flattened (children tree))).
  split; [apply remove_nested_schemas_eq; exact Hnd|].
  assert (Habsent : forall d, In d (iter m) ->
             ~ In (eid d)
                  (ids (set_children tree (flattened (children tree))))).
  { intros d Hd.
    assert (Hx : In (eid d) (ids m))
      by (apply (ids_in_iter d m Hd); apply eid_in_ids).
    pose proof (nested_in_hoisted (children tree) c m Hc Hm) as Hin.
    pose proof (strip_forest_loses SCHEMA (hoisted (children tree)) m (eid d)
                  Hin Htag Hx) as Hlost.
    rewrite strip_hoisted, occ_hoisted in Hlost.
    unfold unique_ids in Hnd. rewrite (NoDup_count_occ Nat.eq_dec) in Hnd.
    specialize (Hnd (eid d)). rewrite (ids_as_children tree) in Hnd.
    rewrite occ_cons in Hnd.
    apply occ_notin. rewrite ids_set_children, occ_cons.
    destruct (Nat.eqb (eid tree) (eid d)); cbn [Nat.b2n] in *; lia. }
  split; [exact Habsent|].
  intros d r Hd Hr E.
  apply (Habsent d).
  - rewrite iter_eq. right. unfold iterdescendants. apply in_flat_map.
    exists d. split; [exact Hd|]. rewrite iter_eq. left. reflexivity.
  - rewrite <- E. rewrite ids_set_children. right.
    rewrite children_set_children in Hr.
    apply in_flat_map. exists r. split; [exact Hr | apply eid_in_ids].
Qed.

Lemma nested_marker_is_removed_whole_witness :
  exists result,
    remove_nested_schemas Sample.substituted = Ok result /\
    (forall d,
        In d (iter (Sample.el 105 "schema" []
                      [Sample.el 106 "element" [("name", "z")] []])) ->
        ~ In (eid d) (ids result)) /\
    (forall d r,
        In d [Sample.el 106 "element" [("name", "z")] []] ->
        In r (children result) -> eid r <> eid d).
Proof.
  apply (nested_marker_is_removed_whole Sample.substituted
           (Sample.el 105 "schema" []
              [Sample.el 106 "element" [("name", "z")] []])).
  - apply nodupb_sound. reflexivity.
  - exists Sample.common. split.
    + right. left. reflexivity.
    + vm_compute. tauto.
  - reflexivity.
Defined.

(** ** What is left after flattening *)

Lemma rewriter_output_clean resource_filename get_schema_path base tree :
  _change_include_to_xinclude resource_filename get_schema_path base
  = Ok (Some tree) ->
  count_below INCLUDE tree = 0.
Proof.
  unfold _change_include_to_xinclude. cbv zeta.
  change (NAMESPACE ++ "include")%string with INCLUDE.
  destruct (find base INCLUDE) as [include_el|]; [ | discriminate].
  destruct (get "schemaLocation" (attrib include_el)); [ | discriminate].
  destruct (find _ _) as [import_el|]; [ | discriminate].
  destruct (getparent _ _) as [parent|]; [ | discriminate].
  destruct (index parent import_el) as [k|e|]; cbn [bind]; try discriminate.
  intros H. inversion H. unfold strip_elements. apply strip_in_clean.
Qed.

(** C2, as stated, does not hold: a tree without a bare inclusion at its
    root is accepted by construction and left as loaded, with the wrapper
    marker that it holds. *)
Lemma flatten_leaves_nested_marker :
  ~ (forall result,
        _flatten_includes Sample.resource_filename Sample.get_schema_path
                          (Sample.resolver Sample.common) Sample.no_include
        = Ok result ->
        free_of_markers result).
Proof.
  intros H. specialize (H Sample.no_include eq_refl).
  destruct H as [_ [_ H]]. vm_compute in H. discriminate H.
Qed.

(** C2, amended: for every tree whose root has a bare inclusion directive
    that the rewriter accepts, once the resolver has returned, flattening
    completes; the rewritten tree holds no bare inclusion directive, the
    flattened tree holds no wrapper marker, and of no tag does the flattened
    tree hold more elements than the tree the resolver returned, so that it
    is free of inclusion directives of either form whenever the resolver's
    tree is.  (A tree without bare inclusion at its root is left as loaded,
    whatever it holds.) *)
Theorem flatten_postcondition
  resource_filename get_schema_path xinclude (base tree tree' : Element) :
  _change_include_to_xinclude resource_filename get_schema_path base
  = Ok (Some tree) ->
  xinclude tree = Ok tree' ->
  unique_ids tree' ->
  exists result,
    _flatten_includes resource_filename get_schema_path xinclude base
    = Ok result /\
    count_below INCLUDE tree = 0 /\
    count_below SCHEMA result = 0 /\
    (forall u, count_below u result <= count_below u tree').
Proof.
  intros Hrw Hx Hnd.
  exists (set_children tree' (flattened (children tree'))).
  split; [ | split; [ | split]].
  - unfold _flatten_includes. rewrite Hrw. cbn [bind]. rewrite Hx.
    cbn [bind]. apply remove_nested_schemas_eq. exact Hnd.
  - exact (rewriter_output_clean _ _ _ _ Hrw).
  - rewrite <- strip_hoisted.
    pose proof (strip_in_clean SCHEMA
                  (set_children tree' (hoisted (children tree')))) as H.
    destruct tree' as [i tg a ns cs]. cbn [set_children children] in *.
    rewrite strip_in_eq in H. exact H.
  - intros u. unfold count_below, iterdescendants.
    rewrite children_set_children. rewrite <- strip_hoisted.
    pose proof (tagged_strip_forest SCHEMA u (hoisted (children tree'))) as H.
    rewrite tagged_hoisted in H. exact H.
Qed.

Lemma flatten_postcondition_witness :
  exists result,
    _flatten_includes Sample.resource_filename Sample.get_schema_path
                      (Sample.resolver Sample.common) Sample.activity
    = Ok result /\
    count_below INCLUDE
      (Elem 0 SCHEMA [] [(xi_name, xi_uri)]
         [Sample.el 1 "import" [("schemaLocation", "/res/schemas/xml.xsd")] [];
          resolved_inclusion Sample.activity "/res/schemas/iati-common.xsd";
          Sample.el 3 "element" [("name", "root")] []]) = 0 /\
    count_below SCHEMA result = 0 /\
    (forall u,
        count_below u result
        <= count_below u
             (Elem 0 SCHEMA [] [(xi_name, xi_uri)]
                [Sample.el 1 "import"
                           [("schemaLocation", "/res/schemas/xml.xsd")] [];
                 Sample.common;
                 Sample.el 3 "element" [("name", "root")] []])).
Proof.
  apply (flatten_postcondition Sample.resource_filename Sample.get_schema_path
           (Sample.resolver Sample.common) Sample.activity).
  - reflexivity.
  - reflexivity.
  - apply nodupb_sound. reflexivity.
Defined.

(** ** Running the pipeline twice *)

Lemma in_strip_forest t y cs :
  In y (strip_forest t cs) -> exists d, In d cs /\ y = strip_in t d.
Proof.
  induction cs as [|c cs IH]; cbn [strip_forest]; intros H; [destruct H|].
  destruct (is_tag t c).
  - destruct (IH H) as [d [Hd E]]. exists d. split; [right|]; assumption.
  - destruct H as [E|H].
    + exists c. split; [left; reflexivity | symmetry; exact E].
    + destruct (IH H) as [d [Hd E]]. exists d. split; [right|]; assumption.
Qed.

Lemma find_none (p : Element -> bool) l :
  (forall y, In y l -> p y = false) -> List.find p l = None.
Proof.
  induction l as [|x l IH]; intros H; [reflexivity|].
  cbn [List.find]. rewrite (H x) by (left; reflexivity).
  apply IH. intros y Hy. apply H. right. exact Hy.
Qed.

(** With the inclusion directives of the substituted tree guarded, the
    flattened tree has none at its root. *)
Lemma guarded_flattened_has_no_include tree :
  includes_guarded tree ->
  find (set_children tree (flattened (children tree))) INCLUDE = None.
Proof.
  intros [Hroot Hwrapped]. unfold find. rewrite children_set_children.
  apply find_none. intros y Hy.
  apply in_flat_map in Hy. destruct Hy as [c [Hc Hy]].
  destruct (is_tag SCHEMA c) eqn:Htag.
  - apply in_strip_forest in Hy. destruct Hy as [d [Hd E]]. subst y.
    apply in_rev in Hd. apply filter_In in Hd. destruct Hd as [Hd Hh].
    rewrite is_tag_strip_in.
    destruct (is_tag INCLUDE d) eqn:Hinc; [ | reflexivity].
    pose proof (Hwrapped c d Hc Htag Hd Hinc) as Hs.
    unfold hoistable in Hh. rewrite Hs in Hh. discriminate Hh.
  - destruct Hy as [E|[]]. subst y. rewrite is_tag_strip_in.
    apply Hroot. exact Hc.
Qed.

(** C6, as stated, does not hold: when the included file brings an
    inclusion directive without [schemaLocation], the first run hoists it to
    the root, and the second run finds it there and raises. *)
Lemma second_run_may_differ :
  ~ idempotent_on Sample.resource_filename Sample.get_schema_path
                  (Sample.resolver Sample.unguarded) Sample.activity.
Proof.
  intros H.
  specialize (H _ eq_refl). vm_compute in H. discriminate H.
Qed.

(** C6, amended: a second run of the pipeline leaves the flattened tree as
    the first run made it whenever the tree had no bare inclusion at its
    root, or the tree that the resolver returned has no bare inclusion among
    the children of its root and none without [schemaLocation] directly
    inside a root-level wrapper marker: then no bare inclusion is left at the
    root, the rewrite step reports no match and nothing is changed. *)
Theorem second_run_changes_nothing
  resource_filename get_schema_path xinclude (base : Element) :
  (find base INCLUDE = None \/
   exists tree tree',
     _change_include_to_xinclude resource_filename get_schema_path base
     = Ok (Some tree) /\
     xinclude tree = Ok tree' /\
     unique_ids tree' /\
     includes_guarded tree') ->
  exists result,
    _flatten_includes resource_filename get_schema_path xinclude base
    = Ok result /\
    _change_include_to_xinclude resource_filename get_schema_path result
    = Ok None /\
    _flatten_includes resource_filename get_schema_path xinclude result
    = Ok result.
Proof.
  assert (Hnone : forall e, find e INCLUDE = None ->
             _change_include_to_xinclude resource_filename get_schema_path e
             = Ok None).
  { intros e H. unfold _change_include_to_xinclude. cbv zeta.
    change (NAMESPACE ++ "include")%string with INCLUDE. rewrite H.
    reflexivity. }
  intros [H | [tree [tree' [Hrw [Hx [Hnd Hguard]]]]]].
  - exists base. split; [ | split].
    + apply flatten_without_include. exact H.
    + apply Hnone. exact H.
    + apply flatten_without_include. exact H.
  - exists (set_children tree' (flattened (children tree'))).
    pose proof (guarded_flattened_has_no_include tree' Hguard) as Hfree.
    split; [ | split].
    + unfold _flatten_includes. rewrite Hrw. cbn [bind]. rewrite Hx.
      cbn [bind]. apply remove_nested_schemas_eq. exact Hnd.
    + apply Hnone. exact Hfree.
    + apply flatten_without_include. exact Hfree.
Qed.

Lemma second_run_changes_nothing_witness :
  exists result,
    _flatten_includes Sample.resource_filename Sample.get_schema_path
                      (Sample.resolver Sample.common) Sample.activity
    = Ok result /\
    _change_include_to_xinclude Sample.resource_filename
                                Sample.get_schema_path result
    = Ok None /\
    _flatten_includes Sample.resource_filename Sample.get_schema_path
                      (Sample.resolver Sample.common) result
    = Ok result.
Proof.
  apply (second_run_changes_nothing Sample.resource_filename
           Sample.get_schema_path (Sample.resolver Sample.common)
           Sample.activity).
  right. eexists. eexists.
  split; [reflexivity | split; [reflexivity | split]].
  - apply nodupb_sound. reflexivity.
  - split.
    + intros c Hc. cbn in Hc.
      destruct Hc as [E|[E|[E|[]]]]; subst c; reflexivity.
    + intros w d Hw Htag Hd Hinc. cbn in Hw.
      destruct Hw as [E|[E|[E|[]]]]; subst w; try discriminate Htag.
      cbn in Hd.
      destruct Hd as [E|[E|[E|[E|[]]]]]; subst d; try discriminate Hinc;
        reflexivity.
Defined.

(** * Further properties of the flattener *)

Section FlattenerFacts.

Lemma length_filter_app_zero (p : Element -> bool) xs ys :
  List.length (filter p (xs ++ ys)) = 0 ->
  List.length (filter p xs) = 0 /\ List.length (filter p ys) = 0.
Proof. rewrite filter_app, length_app. lia. Qed.

(** Stripping a tag that does not occur below an element changes nothing. *)
Lemma strip_in_noop t e : count_below t e = 0 -> strip_in t e = e.
Proof.
  unfold count_below.
  induction e as [j tg a ns cs IH] using Element_tree_ind.
  unfold iterdescendants. cbn [children]. intros H.
  rewrite strip_in_eq. f_equal.
  induction cs as [|c cs IHcs]; [reflexivity|].
  inversion IH as [|? ? Hc Hrest]; subst.
  cbn [flat_map] in H. apply length_filter_app_zero in H.
  destruct H as [H1 H2]. rewrite iter_eq, tagged_cons in H1.
  cbn [strip_forest]. destruct (is_tag t c) eqn:Ht.
  - cbn [Nat.b2n] in H1. lia.
  - rewrite Hc by (cbn [Nat.b2n] in H1; lia).
    rewrite IHcs by assumption. reflexivity.
Qed.

Lemma findall_nil_below t e : count_below t e = 0 -> findall e t = [].
Proof.
  unfold count_below, findall, iterdescendants.
  induction (children e) as [|c cs IH]; [reflexivity|].
  cbn [flat_map filter]. intros H. apply length_filter_app_zero in H.
  destruct H as [H1 H2]. rewrite iter_eq, tagged_cons in H1.
  destruct (is_tag t c); [cbn [Nat.b2n] in H1; lia | apply IH; exact H2].
Qed.

(** Every element of a stripped tree is an element of the tree, stripped. *)
Lemma strip_forest_origin_from t cs r :
  Forall (fun c => In r (iter (strip_in t c)) ->
                   exists e, In e (iter c) /\ r = strip_in t e) cs ->
  In r (flat_map iter (strip_forest t cs)) ->
  exists e, In e (flat_map iter cs) /\ r = strip_in t e.
Proof.
  induction 1 as [|c cs Hc _ IH]; cbn [strip_forest flat_map]; intros Hr.
  - destruct Hr.
  - destruct (is_tag t c).
    + destruct (IH Hr) as [e [He E]]. exists e.
      split; [apply in_or_app; right; exact He | exact E].
    + cbn [flat_map] in Hr. apply in_app_or in Hr. destruct Hr as [Hr|Hr].
      * destruct (Hc Hr) as [e [He E]]. exists e.
        split; [apply in_or_app; left; exact He | exact E].
      * destruct (IH Hr) as [e [He E]]. exists e.
        split; [apply in_or_app; right; exact He | exact E].
Qed.

Lemma strip_in_origin t e r :
  In r (iter (strip_in t e)) -> exists e', In e' (iter e) /\ r = strip_in t e'.
Proof.
  induction e as [j tg a ns cs IH] using Element_tree_ind.
  rewrite strip_in_eq, iter_eq. unfold iterdescendants. cbn [children].
  intros [E|Hr].
  - exists (Elem j tg a ns cs). split.
    + rewrite iter_eq. left. reflexivity.
    + rewrite strip_in_eq. symmetry. exact E.
  - destruct (strip_forest_origin_from t cs r IH Hr) as [e [He E]].
    exists e. split; [ | exact E].
    rewrite iter_eq. right. exact He.
Qed.

Lemma strip_forest_origin t cs r :
  In r (flat_map iter (strip_forest t cs)) ->
  exists e, In e (flat_map iter cs) /\ r = strip_in t e.
Proof.
  apply strip_forest_origin_from. apply Forall_forall. intros c _.
  apply strip_in_origin.
Qed.

Lemma in_strip_forest_intro t d cs :
  In d cs -> is_tag t d = false -> In (strip_in t d) (strip_forest t cs).
Proof.
  intros Hd Ht. induction cs as [|c cs IH]; [destruct Hd|].
  cbn [strip_forest]. destruct Hd as [E|Hd].
  - subst c. rewrite Ht. left. reflexivity.
  - destruct (is_tag t c); [ | right]; apply IH; exact Hd.
Qed.

(** Where the elements of the flattened root come from. *)
Lemma flattened_origin cs r :
  In r (flat_map iter (flattened cs)) ->
  exists e, In e (flat_map iter cs) /\ r = strip_in SCHEMA e.
Proof.
  intros Hr. apply in_flat_map in Hr. destruct Hr as [y [Hy Hr]].
  apply in_flat_map in Hy. destruct Hy as [c [Hc Hy]].
  destruct (is_tag SCHEMA c).
  - assert (H : In r (flat_map iter
                        (strip_forest SCHEMA
                           (rev (filter hoistable (children c))))))
      by (apply in_flat_map; exists y; split; assumption).
    apply strip_forest_origin in H. destruct H as [e [He E]].
    exists e. split; [ | exact E].
    apply in_flat_map in He. destruct He as [d [Hd He]].
    apply in_rev in Hd. apply filter_In in Hd. destruct Hd as [Hd _].
    apply in_flat_map. exists c. split; [exact Hc|].
    rewrite iter_eq. right. unfold iterdescendants.
    apply in_flat_map. exists d. split; assumption.
  - destruct Hy as [E|[]]. subst y.
    apply strip_in_origin in Hr. destruct Hr as [e [He E]].
    exists e. split; [ | exact E].
    apply in_flat_map. exists c. split; assumption.
Qed.

(** What a marker of the hoisted forest holds is not in the flattened tree. *)
Lemma lost_with_marker tree m x :
  unique_ids tree ->
  In m (flat_map iter (hoisted (children tree))) ->
  is_tag SCHEMA m = true ->
  In x (ids m) ->
  ~ In x (ids (set_children tree (flattened (children tree)))).
Proof.
  intros Hnd Hin Htag Hx.
  pose proof (strip_forest_loses SCHEMA (hoisted (children tree)) m x
                Hin Htag Hx) as Hlost.
  rewrite strip_hoisted, occ_hoisted in Hlost.
  unfold unique_ids in Hnd. rewrite (NoDup_count_occ Nat.eq_dec) in Hnd.
  specialize (Hnd x). rewrite (ids_as_children tree) in Hnd.
  rewrite occ_cons in Hnd.
  apply occ_notin. rewrite ids_set_children, occ_cons.
  destruct (Nat.eqb (eid tree) x); cbn [Nat.b2n] in *; lia.
Qed.

Lemma emptied_marker_in_hoisted cs w :
  In w cs -> is_tag SCHEMA w = true ->
  In (set_children w (filter skipped (children w))) (hoisted cs).
Proof.
  intros Hw Htag. apply in_flat_map. exists w. split; [exact Hw|].
  rewrite Htag. left. reflexivity.
Qed.

Lemma find_exists (p : Element -> bool) l x :
  In x l -> p x = true -> exists y, List.find p l = Some y /\ p y = true.
Proof.
  intros Hx Hp. induction l as [|a l IH]; [destruct Hx|].
  cbn [List.find]. destruct (p a) eqn:Ha.
  - exists a. split; [reflexivity | exact Ha].
  - destruct Hx as [E|Hx]; [subst; congruence | apply IH; exact Hx].
Qed.

End FlattenerFacts.

(** X1: when no wrapper marker lies below the root of the substituted tree,
    the second half of the flattener returns the tree as it is. *)
Theorem no_marker_no_change (tree : Element) :
  count_below SCHEMA tree = 0 ->
  remove_nested_schemas tree = Ok tree.
Proof.
  intros H. unfold remove_nested_schemas. cbv zeta.
  change (NAMESPACE ++ "schema")%string with SCHEMA.
  rewrite (findall_nil_below SCHEMA tree H). cbn [foldM bind].
  unfold strip_elements. rewrite (strip_in_noop SCHEMA tree H). reflexivity.
Qed.

Lemma no_marker_no_change_witness :
  remove_nested_schemas Sample.activity = Ok Sample.activity.
Proof. apply (no_marker_no_change Sample.activity). reflexivity. Defined.

(** X2: flattening creates no element and alters none: the root keeps its
    identity, tag and attributes (it is not stripped although it bears the
    tag of the markers), and every element below the flattened root is an
    element from below the root of the substituted tree, with the same
    identity, tag and attributes, and with what it held less the markers
    that lay below it.  Namespace declarations are left out of the
    comparison. *)
Theorem flattening_only_moves_and_removes (tree : Element) :
  unique_ids tree ->
  exists result,
    remove_nested_schemas tree = Ok result /\
    same_node tree result /\
    (forall r, In r (iterdescendants result) ->
               exists e, In e (iterdescendants tree) /\
                         same_node e r /\
                         without_nsmap r = without_nsmap (strip_in SCHEMA e)).
Proof.
  intros Hnd. exists (set_children tree (flattened (children tree))).
  split; [apply remove_nested_schemas_eq; exact Hnd | split].
  - destruct tree; repeat split.
  - intros r Hr. unfold iterdescendants in Hr.
    rewrite children_set_children in Hr.
    destruct (flattened_origin _ _ Hr) as [e [He E]].
    exists e. split; [exact He|]. subst r. split; [ | reflexivity].
    destruct e; repeat split.
Qed.

Lemma flattening_only_moves_and_removes_witness :
  exists result,
    remove_nested_schemas Sample.substituted = Ok result /\
    same_node Sample.substituted result /\
    (forall r, In r (iterdescendants result) ->
               exists e, In e (iterdescendants Sample.substituted) /\
                         same_node e r /\
                         without_nsmap r = without_nsmap (strip_in SCHEMA e)).
Proof.
  apply (flattening_only_moves_and_removes Sample.substituted).
  apply nodupb_sound. reflexivity.
Defined.

(** X3: a wrapper marker among the children of the root does not outlive
    flattening, and neither does any of its children that carries a
    [schemaLocation] attribute, nor anything below such a child: the import
    statements of the included file are not duplicated. *)
Theorem marker_and_skipped_children_are_dropped (tree w : Element) :
  unique_ids tree ->
  In w (children tree) ->
  is_tag SCHEMA w = true ->
  exists result,
    remove_nested_schemas tree = Ok result /\
    ~ In (eid w) (ids result) /\
    (forall d x, In d (children w) -> skipped d = true -> In x (ids d) ->
                 ~ In x (ids result)).
Proof.
  intros Hnd Hw Htag.
  exists (set_children tree (flattened (children tree))).
  split; [apply remove_nested_schemas_eq; exact Hnd|].
  pose proof (emptied_marker_in_hoisted (children tree) w Hw Htag) as Hin.
  set (w' := set_children w (filter skipped (children w))) in *.
  assert (Hw' : In w' (flat_map iter (hoisted (children tree)))).
  { apply in_flat_map. exists w'. split; [exact Hin|].
    rewrite iter_eq. left. reflexivity. }
  assert (Htag' : is_tag SCHEMA w' = true)
    by (unfold w'; rewrite is_tag_set_children; exact Htag).
  split.
  - apply (lost_with_marker tree w' (eid w) Hnd Hw' Htag').
    unfold w'. rewrite ids_set_children. left. reflexivity.
  - intros d x Hd Hs Hx.
    apply (lost_with_marker tree w' x Hnd Hw' Htag').
    unfold w'. rewrite ids_set_children. right.
    apply in_flat_map. exists d. split; [ | exact Hx].
    apply filter_In. split; assumption.
Qed.

Lemma marker_and_skipped_children_are_dropped_witness :
  exists result,
    remove_nested_schemas Sample.substituted = Ok result /\
    ~ In (eid Sample.common) (ids result) /\
    (forall d x, In d (children Sample.common) -> skipped d = true ->
                 In x (ids d) -> ~ In x (ids result)).
Proof.
  apply (marker_and_skipped_children_are_dropped Sample.substituted
           Sample.common).
  - apply nodupb_sound. reflexivity.
  - right. left. reflexivity.
  - reflexivity.
Defined.

(** X4: flattening keeps every child of the root that is no marker, and
    every child of a root-level marker that is no marker itself and carries
    no [schemaLocation]: each is a child of the flattened root, less the
    markers below it, and unchanged when no marker lies below it. *)
Theorem flattening_keeps_definitions (tree x : Element) :
  unique_ids tree ->
  is_tag SCHEMA x = false ->
  (In x (children tree) \/
   exists w, In w (children tree) /\ is_tag SCHEMA w = true /\
             In x (children w) /\ skipped x = false) ->
  exists result,
    remove_nested_schemas tree = Ok result /\
    In (strip_in SCHEMA x) (children result) /\
    (count_below SCHEMA x = 0 -> In x (children result)).
Proof.
  intros Hnd Htag Hwhere.
  exists (set_children tree (flattened (children tree))).
  split; [apply remove_nested_schemas_eq; exact Hnd|].
  rewrite children_set_children.
  assert (Hin : In (strip_in SCHEMA x) (flattened (children tree))).
  { apply in_flat_map. destruct Hwhere as [Hx | [w [Hw [Hwt [Hx Hs]]]]].
    - exists x. split; [exact Hx|]. rewrite Htag. left. reflexivity.
    - exists w. split; [exact Hw|]. rewrite Hwt.
      apply in_strip_forest_intro; [ | exact Htag].
      apply -> in_rev. apply filter_In. split; [exact Hx|].
      unfold hoistable. rewrite Hs. reflexivity. }
  split; [exact Hin|].
  intros Hclean. rewrite <- (strip_in_noop SCHEMA x Hclean) at 1. exact Hin.
Qed.

Lemma flattening_keeps_definitions_witness :
  exists result,
    remove_nested_schemas Sample.substituted = Ok result /\
    In (strip_in SCHEMA (Sample.el 102 "element" [("name", "a")] []))
       (children result) /\
    (count_below SCHEMA (Sample.el 102 "element" [("name", "a")] []) = 0 ->
     In (Sample.el 102 "element" [("name", "a")] []) (children result)).
Proof.
  apply (flattening_keeps_definitions Sample.substituted
           (Sample.el 102 "element" [("name", "a")] [])).
  - apply nodupb_sound. reflexivity.
  - reflexivity.
  - right. exists Sample.common.
    split; [right; left; reflexivity|].
    split; [reflexivity|].
    split; [right; left; reflexivity | reflexivity].
Defined.

(** * Further properties of the navigator *)

Section NavigatorFacts.

Lemma in_findall_steps a es tags :
  In a (findall_steps es tags) ->
  tags <> [] -> is_tag (last tags EmptyString) a = true.
Proof.
  revert es. induction tags as [|t tags IH]; intros es Ha Hne.
  - congruence.
  - cbn [findall_steps] in Ha. destruct tags as [|t' tags].
    + cbn [findall_steps] in Ha. apply in_flat_map in Ha.
      destruct Ha as [e [_ Ha]]. unfold findall in Ha.
      apply filter_In in Ha. exact (proj2 Ha).
    + apply (IH _ Ha). discriminate.
Qed.

Lemma shape_is_element c p : In c (shape p) -> is_tag ELEMENT c = true.
Proof.
  intros H. unfold shape in H.
  apply in_findall_steps in H; [exact H | discriminate].
Qed.

Lemma defines_name_spec name e :
  defines_name name e = true ->
  is_tag ELEMENT e = true /\ get "name" (attrib e) = Some name.
Proof.
  unfold defines_name, has_name. intros H. apply andb_prop in H.
  destruct H as [Ht Hn]. split; [exact Ht|].
  destruct (get "name" (attrib e)) as [v|]; [ | discriminate].
  apply String.eqb_eq in Hn. subst. reflexivity.
Qed.

End NavigatorFacts.

(** X5: looking an element up by name and reading the name of an element
    undo each other, for a name without double quote: an element that
    [get_xsd_element] returns lies below the root (it is never the root), is
    an element definition, and [get_xsd_element_name] gives back the name
    that was looked up; and the name that [get_xsd_element_name] gives for
    an element definition below the root is one that [get_xsd_element] finds
    an element of.  (A name with a double quote is read as a path of its
    own: the lookup may raise or return an element of another name.) *)
Theorem lookup_returns_what_was_named (self : Schema) (name : string) :
  plain name ->
  (forall e,
      get_xsd_element self name = Ok (Some e) ->
      In e (iterdescendants (_schema_base_tree self)) /\
      is_tag ELEMENT e = true /\
      get_xsd_element_name self e = Some name) /\
  (forall d,
      In d (iterdescendants (_schema_base_tree self)) ->
      is_tag ELEMENT d = true ->
      get_xsd_element_name self d = Some name ->
      exists e, get_xsd_element self name = Ok (Some e) /\
                get_xsd_element_name self e = Some name).
Proof.
  intros Hplain.
  destruct (get_xsd_element_first self name Hplain) as [r [Hr Hfirst]].
  split.
  - intros e He. rewrite Hr in He. inversion He; subst r.
    apply first_definition_named in Hfirst.
    destruct Hfirst as [Hin [Ht Hn]].
    split; [exact Hin | split; [ | exact Hn]].
    unfold is_tag. rewrite Ht. apply String.eqb_refl.
  - intros d Hd Ht Hn. destruct r as [e|].
    + exists e. split; [exact Hr|].
      exact (proj2 (proj2 (first_definition_named _ _ _ Hfirst))).
    + exfalso. cbn [first_definition] in Hfirst.
      specialize (Hfirst d Hd). unfold defines_name, has_name in Hfirst.
      unfold get_xsd_element_name in Hn. rewrite Ht, Hn in Hfirst.
      rewrite String.eqb_refl in Hfirst. discriminate Hfirst.
Qed.

Lemma lookup_returns_what_was_named_witness :
  exists e,
    get_xsd_element Sample.navigable "title" = Ok (Some e) /\
    get_xsd_element_name Sample.navigable e = Some "title".
Proof.
  refine (proj2 (lookup_returns_what_was_named Sample.navigable "title" _)
                (Sample.el 8 "element" [("name", "title")] []) _ _ _).
  - intros c Hc. vm_compute in Hc.
    repeat (destruct Hc as [Hc|Hc]; [subst c; discriminate|]).
    destruct Hc.
  - right. right. right. right. right. right. right. left. reflexivity.
  - reflexivity.
  - reflexivity.
Defined.

(** X6: for a name without double quote the lookup returns and does not
    raise; it returns [None] exactly when no element definition below the
    root has the name (a root that has it is not looked at), and otherwise
    the first such definition in document order: an element definition of
    that name, with no definition of the name before it. *)
Theorem lookup_of_plain_name (self : Schema) (name : string) :
  plain name ->
  exists r,
    get_xsd_element self name = Ok r /\
    (r = None <->
     forall d, In d (iterdescendants (_schema_base_tree self)) ->
               defines_name name d = false) /\
    (forall e, r = Some e ->
       is_tag ELEMENT e = true /\
       get "name" (attrib e) = Some name /\
       exists before after,
         iterdescendants (_schema_base_tree self) = before ++ e :: after /\
         forall d, In d before -> defines_name name d = false).
Proof.
  intros Hplain.
  destruct (get_xsd_element_first self name Hplain) as [r [Hr Hfirst]].
  exists r. split; [exact Hr | split].
  - split.
    + intros E. subst r. exact Hfirst.
    + intros H. destruct r as [e|]; [ | reflexivity]. exfalso.
      pose proof (first_definition_named _ _ _ Hfirst) as [Hin _].
      destruct Hfirst as [Hdef _]. rewrite (H e Hin) in Hdef.
      discriminate Hdef.
  - intros e E. subst r.
    pose proof (first_definition_named _ _ _ Hfirst) as [_ [Ht Hn]].
    destruct Hfirst as [_ Hsplit].
    split; [unfold is_tag; rewrite Ht; apply String.eqb_refl|].
    split; [exact Hn | exact Hsplit].
Qed.

Lemma lookup_of_plain_name_witness :
  get_xsd_element Sample.navigable "title"
  = Ok (Some (Sample.el 8 "element" [("name", "title")] [])).
Proof.
  destruct (lookup_of_plain_name Sample.navigable "title")
    as [r [Hr [Hnone Hsome]]].
  - intros c Hc. vm_compute in Hc.
    repeat (destruct Hc as [Hc|Hc]; [subst c; discriminate|]).
    destruct Hc.
  - destruct r as [e|].
    + destruct (Hsome e eq_refl) as [_ [Hn [before [after [E _]]]]].
      assert (Hin : In e (iterdescendants
                            (_schema_base_tree Sample.navigable)))
        by (rewrite E; apply in_or_app; right; left; reflexivity).
      vm_compute in Hin.
      repeat (destruct Hin as [Hin|Hin];
              [subst e; first [discriminate Hn | exact Hr]|]).
      destruct Hin.
    + pose proof (proj1 Hnone eq_refl
                    (Sample.el 8 "element" [("name", "title")] [])) as H.
      assert (Hin : In (Sample.el 8 "element" [("name", "title")] [])
                       (iterdescendants
                          (_schema_base_tree Sample.navigable))).
      { right. right. right. right. right. right. right. left.
        reflexivity. }
      apply H in Hin. discriminate Hin.
Defined.

(** X7: construction makes the definitions of the included file findable:
    when the loaded tree passes the rewriter and the resolver, and the tree
    of the resolver has a wrapper marker among the children of its root with
    a child that is an element definition of a name without double quote and
    carries no [schemaLocation], then construction returns a schema on which
    the lookup of that name returns an element of that name. *)
Theorem included_definition_is_found
  resource_filename get_schema_path load_as_tree xinclude
  (path : string) (log : list string)
  (base tree tree' w d : Element) (name : string) :
  load_as_tree path = Ok base ->
  _change_include_to_xinclude resource_filename get_schema_path base
  = Ok (Some tree) ->
  xinclude tree = Ok tree' ->
  unique_ids tree' ->
  In w (children tree') ->
  is_tag SCHEMA w = true ->
  In d (children w) ->
  skipped d = false ->
  defines_name name d = true ->
  plain name ->
  exists schema e,
    __init__ resource_filename get_schema_path load_as_tree xinclude path log
    = (log, Ok schema) /\
    get_xsd_element schema name = Ok (Some e) /\
    get_xsd_element_name schema e = Some name.
Proof.
  intros Hload Hrw Hx Hnd Hw Hwt Hd Hs Hdef Hplain.
  set (result := set_children tree' (flattened (children tree'))).
  assert (Hflat : _flatten_includes resource_filename get_schema_path xinclude
                    base = Ok result).
  { unfold _flatten_includes. rewrite Hrw. cbn [bind]. rewrite Hx.
    cbn [bind]. apply remove_nested_schemas_eq. exact Hnd. }
  pose proof (defines_name_spec name d Hdef) as [Htag Hname].
  assert (Hnot : is_tag SCHEMA d = false).
  { unfold is_tag in *. apply String.eqb_eq in Htag. rewrite Htag.
    reflexivity. }
  assert (Hin : In (strip_in SCHEMA d) (iterdescendants result)).
  { unfold result, iterdescendants. rewrite children_set_children.
    apply in_flat_map. exists (strip_in SCHEMA d). split.
    - apply in_flat_map. exists w. split; [exact Hw|]. rewrite Hwt.
      apply in_strip_forest_intro; [ | exact Hnot].
      apply -> in_rev. apply filter_In. split; [exact Hd|].
      unfold hoistable. rewrite Hs. reflexivity.
    - rewrite iter_eq. left. reflexivity. }
  assert (Hdef' : defines_name name (strip_in SCHEMA d) = true).
  { destruct d. exact Hdef. }
  destruct (find_exists (defines_name name) _ _ Hin Hdef') as [e [Hfind He]].
  exists (mkSchema result []), e. split; [ | split].
  - unfold __init__. rewrite Hload, Hflat. reflexivity.
  - rewrite (get_xsd_element_plain _ name Hplain). cbn [_schema_base_tree].
    change (fun e0 : Element =>
              is_tag (NAMESPACE ++ "element") e0 && has_name name e0)
      with (defines_name name).
    rewrite Hfind. reflexivity.
  - exact (proj2 (defines_name_spec name e He)).
Qed.

Lemma included_definition_is_found_witness :
  exists schema e,
    __init__ Sample.resource_filename Sample.get_schema_path
             Sample.load_as_tree (Sample.resolver Sample.common)
             "activity.xsd" []
    = ([], Ok schema) /\
    get_xsd_element schema "a" = Ok (Some e) /\
    get_xsd_element_name schema e = Some "a".
Proof.
  refine (included_definition_is_found
            Sample.resource_filename Sample.get_schema_path
            Sample.load_as_tree (Sample.resolver Sample.common)
            "activity.xsd" [] Sample.activity _ _ Sample.common
            (Sample.el 102 "element" [("name", "a")] []) "a"
            _ _ _ _ _ _ _ _ _ _).
  - reflexivity.
  - reflexivity.
  - reflexivity.
  - apply nodupb_sound. reflexivity.
  - right. left. reflexivity.
  - reflexivity.
  - right. left. reflexivity.
  - reflexivity.
  - reflexivity.
  - intros c Hc. vm_compute in Hc.
    repeat (destruct Hc as [Hc|Hc]; [subst c; discriminate|]).
    destruct Hc.
Defined.

Lemma Forall2_in_left {A B : Type} (R : A -> B -> Prop) l r a :
  Forall2 R l r -> In a l -> exists b, In b r /\ R a b.
Proof.
  induction 1 as [|x y l r Hxy _ IH]; intros Hin; [destruct Hin|].
  destruct Hin as [E|Hin].
  - subst. exists y. split; [left; reflexivity | exact Hxy].
  - destruct (IH Hin) as [b [Hb HR]]. exists b. split; [right|]; assumption.
Qed.

Lemma child_definitions_are_elements c p :
  In c (child_definitions p) -> is_tag ELEMENT c = true.
Proof.
  intros H. rewrite <- shape_child_definitions in H.
  exact (shape_is_element c p H).
Qed.

(** X8: when none of the child definitions of the parent is a reference, the
    list of children is returned without any lookup, whatever the tree
    holds: it is the child definitions that carry a [name], in document
    order, each standing for itself. *)
Theorem children_by_value (self : Schema) (parent_element : Element) :
  (forall c, In c (child_definitions parent_element) ->
             get "ref" (attrib c) = None) ->
  get_child_xsd_elements self parent_element
  = Ok (map (@Some Element)
            (filter (fun c => contains "name" (attrib c))
                    (child_definitions parent_element))).
Proof.
  rewrite get_child_xsd_elements_eq, shape_child_definitions.
  match goal with |- context [foldM ?f _ _] => set (body := f) end.
  assert (Hloop : forall l acc,
             (forall c, In c l -> get "ref" (attrib c) = None) ->
             foldM body l acc
             = Ok (acc ++ map (@Some Element)
                              (filter (fun c => contains "name" (attrib c)) l))).
  { induction l as [|c l IH]; intros acc Hl.
    - cbn [foldM filter map]. rewrite app_nil_r. reflexivity.
    - cbn [foldM filter]. unfold body at 1.
      rewrite (Hl c (or_introl eq_refl)). unfold contains.
      assert (Hl' : forall c0, In c0 l -> get "ref" (attrib c0) = None)
        by (intros c0 H0; apply Hl; right; exact H0).
      destruct (get "name" (attrib c)); cbn [bind].
      + rewrite (IH _ Hl'). cbn [map]. rewrite <- app_assoc. reflexivity.
      + apply IH. exact Hl'. }
  intros H. rewrite (Hloop _ [] H). reflexivity.
Qed.

Lemma children_by_value_witness :
  get_child_xsd_elements Sample.inline Sample.inline_parent
  = Ok [Some (Sample.el 4 "element" [("name", "x")] []);
        Some (Sample.el 6 "element" [("name", "y")] [])].
Proof.
  apply (children_by_value Sample.inline Sample.inline_parent).
  intros c Hc. vm_compute in Hc.
  destruct Hc as [E|[E|[E|[]]]]; subst c; reflexivity.
Defined.

(** X9: for a parent whose references have no double quote in their target,
    the list of children is returned, every element in it is an element
    definition with a [name] attribute, be it a child definition of the
    parent or the target of a reference, and the list holds [None] exactly
    when some reference of the parent has a target that no element
    definition below the root is named. *)
Theorem children_are_named_definitions (self : Schema)
  (parent_element : Element) :
  plain_references parent_element ->
  exists output,
    get_child_xsd_elements self parent_element = Ok output /\
    (forall e, In (Some e) output ->
               is_tag ELEMENT e = true /\
               exists n, get_xsd_element_name self e = Some n) /\
    (In None output <->
     exists c target,
       In c (child_definitions parent_element) /\
       get "ref" (attrib c) = Some target /\
       forall d, In d (iterdescendants (_schema_base_tree self)) ->
                 defines_name target d = false).
Proof.
  intros Hplain.
  destruct (get_child_xsd_elements_plain self parent_element Hplain)
    as [output [Hout HF]].
  exists output. split; [exact Hout | split].
  - intros e Hin.
    destruct (Forall2_in_right _ _ _ _ HF Hin) as [c [Hc [Hentry Href]]].
    apply filter_In in Hc. destruct Hc as [Hc _].
    inversion Hentry as [c0 target found Hr Hfound | c0 n Hr Hn]; subst.
    + destruct (Href target Hr) as [Hfirst _].
      apply first_definition_named in Hfirst.
      destruct Hfirst as [_ [Ht Hn]]. split.
      * unfold is_tag. rewrite Ht. apply String.eqb_refl.
      * exists target. exact Hn.
    + split; [exact (child_definitions_are_elements _ _ Hc)|].
      exists n. exact Hn.
  - split.
    + intros Hin.
      destruct (Forall2_in_right _ _ _ _ HF Hin) as [c [Hc [Hentry Href]]].
      apply filter_In in Hc. destruct Hc as [Hc _].
      inversion Hentry as [c0 target found Hr Hfound | c0 n Hr Hn]; subst.
      exists c, target. split; [exact Hc | split; [exact Hr|]].
      exact (proj1 (Href target Hr)).
    + intros [c [target [Hc [Hr Hnone]]]].
      assert (Hdef : In c (filter defined (child_definitions parent_element))).
      { apply filter_In. split; [exact Hc|].
        unfold defined, contains. rewrite Hr. reflexivity. }
      destruct (Forall2_in_left _ _ _ _ HF Hdef) as [o [Ho [_ Href]]].
      destruct (Href target Hr) as [Hfirst _].
      destruct o as [e|]; [exfalso | exact Ho].
      pose proof (first_definition_named _ _ _ Hfirst) as [Hin _].
      destruct Hfirst as [He _]. rewrite (Hnone e Hin) in He.
      discriminate He.
Qed.

Lemma children_are_named_definitions_witness :
  exists output,
    get_child_xsd_elements Sample.navigable Sample.parent = Ok output /\
    (forall e, In (Some e) output ->
               is_tag ELEMENT e = true /\
               exists n, get_xsd_element_name Sample.navigable e = Some n) /\
    (In None output <->
     exists c target,
       In c (child_definitions Sample.parent) /\
       get "ref" (attrib c) = Some target /\
       forall d, In d (iterdescendants (_schema_base_tree Sample.navigable)) ->
                 defines_name target d = false).
Proof.
  apply (children_are_named_definitions Sample.navigable Sample.parent).
  intros c target Hin Href ch Hch. vm_compute in Hin.
  destruct Hin as [E|[E|[E|[E|[]]]]]; subst c; vm_compute in Href;
    inversion Href; subst target; vm_compute in Hch;
    repeat (destruct Hch as [Hch|Hch]; [subst ch; discriminate|]);
    destruct Hch.
Defined.

(** X10: [get_attributes_in_xsd_element] always returns: the list holds
    exactly the attribute definitions that are children of a complex type
    that is a child of the element, so none for an element without complex
    type and none that is nested deeper; and when the references of the
    element have no double quote in their target, no element is both in
    this list and in the list of children of the element. *)
Theorem attributes_of_element (self : Schema) (element : Element) :
  exists attributes,
    get_attributes_in_xsd_element self element = Ok attributes /\
    (forall a, In a attributes <->
               exists ct, In ct (children element) /\
                          is_tag COMPLEXTYPE ct = true /\
                          In a (children ct) /\
                          is_tag ATTRIBUTE a = true) /\
    (plain_references element ->
     exists output,
       get_child_xsd_elements self element = Ok output /\
       forall e, In (Some e) output -> ~ In e attributes).
Proof.
  exists (findall_steps [element] [COMPLEXTYPE; ATTRIBUTE]).
  split; [reflexivity|].
  assert (Hmem : forall a,
             In a (findall_steps [element] [COMPLEXTYPE; ATTRIBUTE]) <->
             exists ct, In ct (children element) /\
                        is_tag COMPLEXTYPE ct = true /\
                        In a (children ct) /\
                        is_tag ATTRIBUTE a = true).
  { intros a. cbn [findall_steps flat_map]. rewrite app_nil_r.
    rewrite in_flat_map. unfold findall. split.
    - intros [ct [Hct Ha]]. apply filter_In in Hct. apply filter_In in Ha.
      exists ct. tauto.
    - intros [ct [Hct [Ht [Ha Hat]]]]. exists ct.
      split; apply filter_In; split; assumption. }
  split; [exact Hmem|].
  intros Hplain.
  destruct (get_child_xsd_elements_plain self element Hplain)
    as [output [Hout HF]].
  exists output. split; [exact Hout|].
  intros e Hin Ha.
  apply Hmem in Ha. destruct Ha as [ct [_ [_ [_ Hat]]]].
  assert (Het : is_tag ELEMENT e = true).
  { destruct (Forall2_in_right _ _ _ _ HF Hin) as [c [Hc [Hentry Href]]].
    apply filter_In in Hc. destruct Hc as [Hc _].
    inversion Hentry as [c0 target found Hr Hfound | c0 n Hr Hn]; subst.
    - destruct (Href target Hr) as [Hfirst _].
      apply first_definition_named in Hfirst.
      destruct Hfirst as [_ [Ht _]].
      unfold is_tag. rewrite Ht. apply String.eqb_refl.
    - exact (child_definitions_are_elements _ _ Hc). }
  unfold is_tag in Het, Hat. apply String.eqb_eq in Het.
  rewrite Het in Hat. discriminate Hat.
Qed.

Lemma attributes_of_element_witness :
  exists attributes,
    get_attributes_in_xsd_element Sample.inline Sample.inline_parent
    = Ok attributes /\
    In (Sample.el 7 "attribute" [("name", "lang")] []) attributes /\
    exists output,
      get_child_xsd_elements Sample.inline Sample.inline_parent = Ok output /\
      forall e, In (Some e) output -> ~ In e attributes.
Proof.
  destruct (attributes_of_element Sample.inline Sample.inline_parent)
    as [attributes [Hrun [Hmem Hapart]]].
  exists attributes. split; [exact Hrun | split].
  - apply Hmem.
    exists (Sample.el 2 "complexType" []
              [Sample.el 3 "sequence" []
                 [Sample.el 4 "element" [("name", "x")] [];
                  Sample.el 5 "element" [] [];
                  Sample.el 6 "element" [("name", "y")] []];
               Sample.el 7 "attribute" [("name", "lang")] []]).
    split; [left; reflexivity|]. split; [reflexivity|].
    split; [right; left; reflexivity | reflexivity].
  - apply Hapart. intros c target Hin Href. vm_compute in Hin.
    destruct Hin as [E|[E|[E|[]]]]; subst c; discriminate Href.
Defined.

(** * Further properties of the rewriter and of construction *)

(** X11: when the first bare inclusion among the children of the root has no
    [schemaLocation] attribute, the rewriter raises [KeyError] (whatever
    other inclusions there are), flattening raises it, and construction
    hands it to the caller as it is: it is not turned into the schema error
    and nothing is logged. *)
Theorem inclusion_without_location_raises
  resource_filename get_schema_path load_as_tree xinclude
  (path : string) (log : list string) (loaded_tree include_el : Element) :
  load_as_tree path = Ok loaded_tree ->
  find loaded_tree INCLUDE = Some include_el ->
  get "schemaLocation" (attrib include_el) = None ->
  _change_include_to_xinclude resource_filename get_schema_path loaded_tree
  = Raise KeyError /\
  _flatten_includes resource_filename get_schema_path xinclude loaded_tree
  = Raise KeyError /\
  __init__ resource_filename get_schema_path load_as_tree xinclude path log
  = (log, Raise KeyError).
Proof.
  intros Hload Hinc Hloc.
  assert (Hrw : _change_include_to_xinclude resource_filename get_schema_path
                  loaded_tree = Raise KeyError).
  { unfold _change_include_to_xinclude. cbv zeta.
    change (NAMESPACE ++ "include")%string with INCLUDE.
    rewrite Hinc, Hloc. reflexivity. }
  assert (Hflat : _flatten_includes resource_filename get_schema_path xinclude
                    loaded_tree = Raise KeyError)
    by (unfold _flatten_includes; rewrite Hrw; reflexivity).
  split; [exact Hrw | split; [exact Hflat|]].
  unfold __init__. rewrite Hload, Hflat. reflexivity.
Qed.

Lemma inclusion_without_location_raises_witness :
  __init__ Sample.resource_filename Sample.get_schema_path
           (fun _ => Ok (Sample.el 0 "schema" []
                           [Sample.el 1 "import" [] [];
                            Sample.el 2 "include" [] [];
                            Sample.el 3 "include"
                                      [("schemaLocation", "a.xsd")] []]))
           (Sample.resolver Sample.common) "any.xsd" []
  = ([], Raise KeyError).
Proof.
  refine (proj2 (proj2 (inclusion_without_location_raises
                          Sample.resource_filename Sample.get_schema_path
                          _ (Sample.resolver Sample.common) "any.xsd" []
                          _ (Sample.el 2 "include" [] []) _ _ _)));
    reflexivity.
Defined.

(** X12: when the root has a bare inclusion with a [schemaLocation] but no
    import directive among its children, the rewriter raises
    [AttributeError], and construction hands it to the caller as it is, with
    nothing logged. *)
Theorem inclusion_without_import_raises
  resource_filename get_schema_path load_as_tree xinclude
  (path : string) (log : list string) (loaded_tree include_el : Element)
  (location : string) :
  load_as_tree path = Ok loaded_tree ->
  find loaded_tree INCLUDE = Some include_el ->
  get "schemaLocation" (attrib include_el) = Some location ->
  findall loaded_tree IMPORT = [] ->
  _change_include_to_xinclude resource_filename get_schema_path loaded_tree
  = Raise AttributeError /\
  __init__ resource_filename get_schema_path load_as_tree xinclude path log
  = (log, Raise AttributeError).
Proof.
  intros Hload Hinc Hloc Himp.
  assert (Hrw : _change_include_to_xinclude resource_filename get_schema_path
                  loaded_tree = Raise AttributeError).
  { unfold _change_include_to_xinclude. cbv zeta.
    change (NAMESPACE ++ "include")%string with INCLUDE.
    change (NAMESPACE ++ "import")%string with IMPORT.
    rewrite Hinc, Hloc.
    assert (find (add_namespace loaded_tree xi_name xi_uri) IMPORT = None)
      as ->.
    { apply findall_nil_find. destruct loaded_tree. exact Himp. }
    reflexivity. }
  split; [exact Hrw|].
  unfold __init__, _flatten_includes. rewrite Hload, Hrw. reflexivity.
Qed.

Lemma inclusion_without_import_raises_witness :
  __init__ Sample.resource_filename Sample.get_schema_path
           (fun _ => Ok (Sample.el 0 "schema" []
                           [Sample.el 2 "include"
                                      [("schemaLocation", "a.xsd")] []]))
           (Sample.resolver Sample.common) "any.xsd" []
  = ([], Raise AttributeError).
Proof.
  refine (proj2 (inclusion_without_import_raises
                   Sample.resource_filename Sample.get_schema_path
                   _ (Sample.resolver Sample.common) "any.xsd" []
                   _ (Sample.el 2 "include" [("schemaLocation", "a.xsd")] [])
                   "a.xsd" _ _ _ _));
    reflexivity.
Defined.

(** X13: the rewriter finds nothing to do on a tree that it has returned:
    run again on its own result it reports no match. *)
Theorem rewriter_is_done_after_one_run
  resource_filename get_schema_path (base tree : Element) :
  _change_include_to_xinclude resource_filename get_schema_path base
  = Ok (Some tree) ->
  _change_include_to_xinclude resource_filename get_schema_path tree
  = Ok None.
Proof.
  intros H. apply rewriter_output_clean in H.
  apply findall_nil_below in H. apply findall_nil_find in H.
  unfold _change_include_to_xinclude. cbv zeta.
  change (NAMESPACE ++ "include")%string with INCLUDE. rewrite H.
  reflexivity.
Qed.

Lemma rewriter_is_done_after_one_run_witness :
  _change_include_to_xinclude Sample.resource_filename Sample.get_schema_path
    (Elem 0 SCHEMA [] [(xi_name, xi_uri)]
       [Sample.el 1 "import" [("schemaLocation", "/res/schemas/xml.xsd")] [];
        resolved_inclusion Sample.activity "/res/schemas/iati-common.xsd";
        Sample.el 3 "element" [("name", "root")] []])
  = Ok None.
Proof.
  apply (rewriter_is_done_after_one_run Sample.resource_filename
           Sample.get_schema_path Sample.activity).
  reflexivity.
Defined.

Lemma substring_all (s : string) : substring 0 (String.length s) s = s.
Proof.
  induction s as [|c s IH]; [reflexivity|]. simpl. rewrite IH. reflexivity.
Qed.

Lemma substring_prefix (s t : string) :
  substring 0 (String.length s) (s ++ t) = s.
Proof.
  induction s as [|c s IH]; simpl.
  - destruct t; reflexivity.
  - rewrite IH. reflexivity.
Qed.

Lemma length_append (s t : string) :
  String.length (s ++ t) = String.length s + String.length t.
Proof. induction s as [|c s IH]; simpl; [reflexivity | rewrite IH; reflexivity]. Qed.

Lemma drop_last4_extension (name extension : string) :
  String.length extension = 4 ->
  drop_last4 (name ++ extension) = name.
Proof.
  intros Hlen. unfold drop_last4. rewrite length_append, Hlen.
  replace (String.length name + 4 - 4) with (String.length name) by lia.
  apply substring_prefix.
Qed.

Lemma drop_last4_short (location : string) :
  String.length location <= 4 -> drop_last4 location = EmptyString.
Proof.
  intros H. unfold drop_last4.
  replace (String.length location - 4) with 0 by lia.
  destruct location; reflexivity.
Qed.

(** The tree that the rewriter returns. *)
Lemma rewriter_closed_form
  resource_filename get_schema_path
  (tree include_el import_el : Element) (location : string)
  (pre post : list Element) :
  unique_ids tree ->
  find tree INCLUDE = Some include_el ->
  get "schemaLocation" (attrib include_el) = Some location ->
  children tree = pre ++ import_el :: post ->
  is_tag IMPORT import_el = true ->
  (forall c, In c pre -> is_tag IMPORT c = false) ->
  _change_include_to_xinclude resource_filename get_schema_path tree
  = Ok (Some
          (Elem (eid tree) (tag tree) (attrib tree)
                (set_item xi_name xi_uri (nsmap tree))
                (strip_forest INCLUDE pre
                 ++ strip_in INCLUDE
                      (redirected (resource_filename (get_schema_path "xml"))
                                  import_el)
                 :: resolved_inclusion tree
                      (resource_filename
                         (get_schema_path (drop_last4 location)))
                 :: strip_forest INCLUDE post))).
Proof.
  intros Hnd Hinc Hloc Hcs Himp Hpre.
  set (base := resource_filename (get_schema_path "xml")).
  destruct tree as [i tg a ns cs]. cbn [children] in Hcs. subst cs.
  unfold _change_include_to_xinclude. cbv zeta.
  change (NAMESPACE ++ "include")%string with INCLUDE.
  change (NAMESPACE ++ "import")%string with IMPORT.
  rewrite Hinc, Hloc.
  unfold add_namespace. unfold find at 1. cbn [children].
  rewrite (find_middle (is_tag IMPORT) pre import_el post Hpre Himp).
  unfold unique_ids in Hnd.
  pose proof Hnd as Hocc. rewrite (NoDup_count_occ Nat.eq_dec) in Hocc.
  assert (Hj := Hocc (eid import_el)). occ_norm_in Hj.
  rewrite (ids_as_children import_el) in Hj. occ_norm_in Hj.
  rewrite Nat.eqb_refl in Hj. cbn [Nat.b2n] in Hj.
  rewrite set_attrib_eq.
  assert (Nat.eqb i (eid import_el) = false) as ->.
  { apply Nat.eqb_neq. intros E. rewrite E, Nat.eqb_refl in Hj.
    cbn [Nat.b2n] in Hj. lia. }
  rewrite map_app. cbn [map].
  rewrite map_set_attrib_notin by (apply occ_notin; lia).
  rewrite (map_set_attrib_notin _ _ _ post) by (apply occ_notin; lia).
  assert (Hred : set_attrib (eid import_el) "schemaLocation" base import_el
                 = redirected base import_el).
  { destruct import_el as [ii it ia ins ics]. rewrite set_attrib_eq.
    cbn [eid]. rewrite Nat.eqb_refl. unfold redirected.
    cbn [eid tag attrib nsmap children]. f_equal.
    cbn [eid children] in Hj.
    apply map_set_attrib_notin. apply occ_notin. lia. }
  fold base. rewrite Hred.
  set (ns' := set_item xi_name xi_uri ns).
  rewrite getparent_child
    by (cbn [children]; apply existsb_is_id_middle; reflexivity).
  unfold index. cbn [children].
  rewrite (position_middle (eid import_el) pre (redirected base import_el)
             post eq_refl) by (apply occ_notin; lia).
  cbn [bind].
  assert (Hids : ids (Elem i tg a ns'
                        (pre ++ redirected base import_el :: post))
                 = ids (Elem i tg a ns (pre ++ import_el :: post))).
  { rewrite !ids_eq, !flat_map_app. cbn [flat_map].
    rewrite (ids_as_children import_el). reflexivity. }
  rewrite insert_after_fresh.
  - unfold strip_elements. rewrite strip_in_eq.
    rewrite strip_forest_app. cbn [strip_forest].
    assert (is_tag INCLUDE (redirected base import_el) = false) as ->.
    { unfold is_tag, redirected. cbn [tag].
      unfold is_tag in Himp. apply String.eqb_eq in Himp. rewrite Himp.
      reflexivity. }
    change (is_tag INCLUDE
              (Elem (fresh (Elem i tg a ns' (pre ++ import_el :: post)))
                    ("{" ++ xi_uri ++ "}include")%string
                    [("href", resource_filename
                                (get_schema_path (drop_last4 location)));
                     ("parse", "xml")]
                    (set_item xi_name xi_uri NSMAP) []))
      with false.
    cbv iota. rewrite strip_in_eq. cbn [strip_forest].
    reflexivity.
  - rewrite Hids. exact Hnd.
  - rewrite Hids. cbn [eid].
    apply (fresh_notin (Elem i tg a ns (pre ++ import_el :: post))).
Qed.

(** X14: the file that the rewriter makes the tree include is named by the
    [schemaLocation] of the inclusion less its last four characters,
    whatever they are (the extension is not looked at): the element that the
    rewriter inserts among the children of the root has as [href] the
    resource path of that name, and a location of four characters or fewer
    gives the resource path of the empty name. *)
Theorem location_loses_four_characters
  resource_filename get_schema_path
  (tree include_el import_el : Element) (location : string)
  (pre post : list Element) :
  unique_ids tree ->
  find tree INCLUDE = Some include_el ->
  get "schemaLocation" (attrib include_el) = Some location ->
  children tree = pre ++ import_el :: post ->
  is_tag IMPORT import_el = true ->
  (forall c, In c pre -> is_tag IMPORT c = false) ->
  exists tree' name xinclude_el,
    _change_include_to_xinclude resource_filename get_schema_path tree
    = Ok (Some tree') /\
    In xinclude_el (children tree') /\
    eid xinclude_el = fresh tree /\
    tag xinclude_el = XINCLUDE /\
    get "href" (attrib xinclude_el)
    = Some (resource_filename (get_schema_path name)) /\
    (forall stem extension,
        location = (stem ++ extension)%string ->
        String.length extension = 4 ->
        name = stem) /\
    (String.length location <= 4 -> name = EmptyString).
Proof.
  intros Hnd Hinc Hloc Hcs Himp Hpre.
  eexists. exists (drop_last4 location).
  exists (resolved_inclusion tree
            (resource_filename (get_schema_path (drop_last4 location)))).
  split.
  - exact (rewriter_closed_form resource_filename get_schema_path tree
             include_el import_el location pre post
             Hnd Hinc Hloc Hcs Himp Hpre).
  - cbn [children]. split.
    + apply in_or_app. right. right. left. reflexivity.
    + repeat split.
      * intros stem extension E Hlen. subst location.
        apply drop_last4_extension. exact Hlen.
      * apply drop_last4_short.
Qed.

Lemma location_loses_four_characters_witness :
  exists tree' name xinclude_el,
    _change_include_to_xinclude Sample.resource_filename
      Sample.get_schema_path Sample.activity
    = Ok (Some tree') /\
    In xinclude_el (children tree') /\
    eid xinclude_el = fresh Sample.activity /\
    tag xinclude_el = XINCLUDE /\
    get "href" (attrib xinclude_el)
    = Some (Sample.resource_filename (Sample.get_schema_path name)) /\
    (forall stem extension,
        "iati-common.xsd" = (stem ++ extension)%string ->
        String.length extension = 4 ->
        name = stem) /\
    (String.length "iati-common.xsd" <= 4 -> name = EmptyString).
Proof.
  refine (location_loses_four_characters
            Sample.resource_filename Sample.get_schema_path
            Sample.activity
            (Sample.el 2 "include"
                       [("schemaLocation", "iati-common.xsd")] [])
            (Sample.el 1 "import" [("schemaLocation", "xml.xsd")] [])
            "iati-common.xsd" []
            [Sample.el 2 "include"
                       [("schemaLocation", "iati-common.xsd")] [];
             Sample.el 3 "element" [("name", "root")]
                       [Sample.el 4 "include" [] []]]
            _ _ _ _ _ _).
  - apply nodupb_sound. reflexivity.
  - reflexivity.
  - reflexivity.
  - reflexivity.
  - reflexivity.
  - intros c [].
Defined.

(** * Properties of version numbers *)

Section PatternFacts.

Import IatiVersion.

Lemma append_nil_r (s : string) : (s ++ EmptyString)%string = s.
Proof. induction s as [|c s IH]; simpl; [reflexivity | rewrite IH; reflexivity]. Qed.

Lemma append_assoc (a b c : string) :
  ((a ++ b) ++ c)%string = (a ++ (b ++ c))%string.
Proof. induction a as [|x a IH]; simpl; [reflexivity | rewrite IH; reflexivity]. Qed.

Lemma append_empty (a b : string) :
  (a ++ b)%string = EmptyString -> a = EmptyString /\ b = EmptyString.
Proof. destruct a; simpl; intros H; [split; [reflexivity | exact H] | discriminate]. Qed.

Lemma nullable_lang r : nullable r = true <-> lang r EmptyString.
Proof.
  induction r as [ | | p | p | r1 IH1 r2 IH2 | r1 IH1 r2 IH2]; simpl.
  - split; [discriminate | tauto].
  - split; reflexivity.
  - split; [discriminate | intros [c [_ H]]; discriminate H].
  - split; [discriminate | intros [H _]; congruence].
  - rewrite andb_true_iff, IH1, IH2. split.
    + intros [H1 H2]. exists EmptyString, EmptyString. auto.
    + intros [s1 [s2 [E [H1 H2]]]]. symmetry in E.
      apply append_empty in E. destruct E; subst. auto.
  - rewrite orb_true_iff, IH1, IH2. reflexivity.
Qed.

Lemma deriv_lang r : forall c s, lang (deriv c r) s <-> lang r (String c s).
Proof.
  induction r as [ | | p | p | r1 IH1 r2 IH2 | r1 IH1 r2 IH2]; intros c s; simpl.
  - tauto.
  - split; [tauto | discriminate].
  - destruct (p c) eqn:Hp; simpl.
    + split.
      * intros ->. exists c. auto.
      * intros [c' [_ H]]. inversion H. reflexivity.
    + split; [tauto|]. intros [c' [Hc' H]]. inversion H; subst. congruence.
  - destruct (p c) eqn:Hp; simpl.
    + split.
      * intros [[Hne Hall] | ->]; (split; [discriminate|]); simpl; auto.
      * intros [_ Hall]. simpl in Hall.
        destruct s as [|x s]; [right; reflexivity | left].
        split; [discriminate | exact Hall].
    + split; [tauto|]. intros [_ Hall]. discriminate Hall.
  - assert (Hseq : lang (Seq (deriv c r1) r2) s <->
                   exists s1 s2, s = (s1 ++ s2)%string /\
                                 lang r1 (String c s1) /\ lang r2 s2).
    { simpl. split; intros [s1 [s2 [E [H1 H2]]]]; exists s1, s2;
        (split; [exact E | split; [apply IH1; exact H1 | exact H2]]). }
    assert (Hgoal : (exists s1 s2, String c s = (s1 ++ s2)%string /\
                                   lang r1 s1 /\ lang r2 s2) <->
                    (exists s1 s2, s = (s1 ++ s2)%string /\
                                   lang r1 (String c s1) /\ lang r2 s2) \/
                    (lang r1 EmptyString /\ lang r2 (String c s))).
    { split.
      - intros [s1 [s2 [E [H1 H2]]]]. destruct s1 as [|x s1]; simpl in E.
        + right. subst s2. auto.
        + inversion E; subst. left. exists s1, s2. auto.
      - intros [[s1 [s2 [E [H1 H2]]]] | [H1 H2]].
        + exists (String c s1), s2. subst. auto.
        + exists EmptyString, (String c s). auto. }
    rewrite Hgoal. destruct (nullable r1) eqn:Hn.
    + change (lang (Alt (Seq (deriv c r1) r2) (deriv c r2)) s)
        with (lang (Seq (deriv c r1) r2) s \/ lang (deriv c r2) s).
      rewrite Hseq, IH2. apply nullable_lang in Hn. tauto.
    + rewrite Hseq. split; [tauto|]. intros [H | [H _]]; [exact H|].
      apply nullable_lang in H. congruence.
  - rewrite IH1, IH2. reflexivity.
Qed.

Lemma matches_lang r s : matches r s = true <-> lang r s.
Proof.
  revert r. induction s as [|c s IH]; intros r; simpl.
  - apply nullable_lang.
  - rewrite IH. apply deriv_lang.
Qed.

Lemma without_final_line_feed_spec s t :
  without_final_line_feed s = Some t <->
  s = (t ++ String line_feed EmptyString)%string.
Proof.
  revert t. induction s as [|c s IH]; intros t.
  - simpl. split; [discriminate|]. destruct t; discriminate.
  - destruct s as [|c' s'].
    + simpl. destruct (Ascii.eqb_spec c line_feed) as [E|E].
      * subst. split.
        -- intros H. inversion H. reflexivity.
        -- intros H. destruct t as [|x t]; [reflexivity|].
           simpl in H. inversion H. destruct t; discriminate.
      * split; [discriminate|]. intros H.
        destruct t as [|x t]; simpl in H; inversion H; [congruence|].
        destruct t; discriminate.
    + change (without_final_line_feed (String c (String c' s')))
        with (match without_final_line_feed (String c' s') with
              | Some u => Some (String c u)
              | None => None
              end).
      destruct (without_final_line_feed (String c' s')) as [u|].
      * pose proof (proj1 (IH u) eq_refl) as E. split.
        -- intros H. inversion H; subst t. simpl. rewrite <- E. reflexivity.
        -- intros H. destruct t as [|x t]; simpl in H; inversion H.
           subst x. f_equal. f_equal.
           assert (Hu : Some u = Some t) by (apply IH; assumption).
           congruence.
      * split; [discriminate|]. intros H.
        destruct t as [|x t]; simpl in H; inversion H.
        assert (Hu : @None string = Some t) by (apply IH; assumption).
        discriminate Hu.
Qed.

(** [pattern.match(text)] for a pattern between [^] and [$]: the whole text
    is matched, or the text less one final line feed. *)
Lemma re_match_spec r s :
  re_match r s = true <->
  lang r s \/ exists t, s = (t ++ String line_feed EmptyString)%string /\ lang r t.
Proof.
  unfold re_match. rewrite orb_true_iff, matches_lang. split.
  - intros [H|H]; [left; exact H | right].
    destruct (without_final_line_feed s) as [t|] eqn:E; [ | discriminate].
    exists t. split; [apply without_final_line_feed_spec; exact E|].
    apply matches_lang. exact H.
  - intros [H | [t [E H]]]; [left; exact H | right].
    apply without_final_line_feed_spec in E. rewrite E.
    apply matches_lang. exact H.
Qed.

End PatternFacts.

Section DigitFacts.

Import ZArith.
Import IatiVersion.

Lemma between_cases lo hi c :
  between lo hi c = true ->
  exists n, lo <= n <= hi /\ c = ascii_of_nat n.
Proof.
  unfold between. intros H. apply andb_prop in H. destruct H as [H1 H2].
  apply Nat.leb_le in H1. apply Nat.leb_le in H2.
  exists (nat_of_ascii c). split; [lia|].
  symmetry. apply ascii_nat_embedding.
Qed.

Lemma digit_cases c :
  digit c = true ->
  In c ["0"; "1"; "2"; "3"; "4"; "5"; "6"; "7"; "8"; "9"]%char.
Proof.
  intros H. apply between_cases in H. destruct H as [n [Hn ->]].
  assert (n = 48 \/ n = 49 \/ n = 50 \/ n = 51 \/ n = 52 \/ n = 53 \/
          n = 54 \/ n = 55 \/ n = 56 \/ n = 57) as Hc by lia.
  repeat (destruct Hc as [-> | Hc]; [vm_compute; tauto|]).
  subst. vm_compute. tauto.
Qed.

Lemma digit_1_9_digit c : digit_1_9 c = true -> digit c = true.
Proof.
  unfold digit_1_9, digit, between. intros H. apply andb_prop in H.
  destruct H as [H1 H2]. apply Nat.leb_le in H1.
  apply andb_true_intro. split; [apply Nat.leb_le; lia | exact H2].
Qed.

Lemma digit_2_9_digit_1_9 c : digit_2_9 c = true -> digit_1_9 c = true.
Proof.
  unfold digit_2_9, digit_1_9, between. intros H. apply andb_prop in H.
  destruct H as [H1 H2]. apply Nat.leb_le in H1.
  apply andb_true_intro. split; [apply Nat.leb_le; lia | exact H2].
Qed.

Lemma string_of_uint_digits d :
  chars_all digit (DecimalString.NilEmpty.string_of_uint d) = true.
Proof. induction d; simpl; auto. Qed.

Lemma uint_of_digits s :
  chars_all digit s = true ->
  exists d, DecimalString.NilEmpty.uint_of_string s = Some d /\
            DecimalString.NilEmpty.string_of_uint d = s.
Proof.
  intros H.
  assert (Hd : exists d, DecimalString.NilEmpty.uint_of_string s = Some d).
  { induction s as [|c s IH]; simpl in *.
    - eexists. reflexivity.
    - apply andb_prop in H. destruct H as [Hc Hs].
      destruct (IH Hs) as [d Hd]. rewrite Hd.
      apply digit_cases in Hc. simpl in Hc.
      repeat (destruct Hc as [<- | Hc]; [eexists; reflexivity|]).
      destruct Hc. }
  destruct Hd as [d Hd]. exists d. split; [exact Hd|].
  apply DecimalString.NilEmpty.sus. exact Hd.
Qed.

Lemma to_uint_normal n : Decimal.unorm (Nat.to_uint n) = Nat.to_uint n.
Proof.
  rewrite <- (DecimalNat.Unsigned.of_to n) at 2.
  rewrite DecimalNat.Unsigned.to_of. reflexivity.
Qed.

Lemma to_uint_not_nil n : Nat.to_uint n <> Decimal.Nil.
Proof. rewrite <- to_uint_normal. apply DecimalFacts.unorm_nonnil. Qed.

Lemma str_nat_eq n :
  str_nat n = DecimalString.NilEmpty.string_of_uint (Nat.to_uint n).
Proof.
  unfold str_nat, DecimalString.NilZero.string_of_uint.
  pose proof (to_uint_not_nil n) as H.
  destruct (Nat.to_uint n); [congruence | reflexivity ..].
Qed.

Lemma str_nat_digits n : chars_all digit (str_nat n) = true.
Proof. rewrite str_nat_eq. apply string_of_uint_digits. Qed.

Lemma str_nat_inj n m : str_nat n = str_nat m -> n = m.
Proof.
  rewrite !str_nat_eq. intros H.
  apply DecimalNat.Unsigned.to_uint_inj.
  pose proof (DecimalString.NilEmpty.usu (Nat.to_uint n)) as Hn.
  pose proof (DecimalString.NilEmpty.usu (Nat.to_uint m)) as Hm.
  rewrite H in Hn. congruence.
Qed.

(** The decimal numeral of a positive number starts with a digit from 1 to
    9. *)
Lemma str_nat_positive n :
  1 <= n ->
  exists c rest, str_nat n = String c rest /\ digit_1_9 c = true /\
                 chars_all digit rest = true.
Proof.
  intros Hn. rewrite str_nat_eq.
  pose proof (to_uint_normal n) as Hnorm.
  pose proof (to_uint_not_nil n) as Hnil.
  pose proof (string_of_uint_digits (Nat.to_uint n)) as Hdig.
  destruct (Nat.to_uint n) as [|u|u|u|u|u|u|u|u|u|u] eqn:E;
    [congruence | | simpl in *; eexists; eexists;
                    (split; [reflexivity | split; [reflexivity | exact Hdig]]) ..].
  exfalso. rewrite DecimalFacts.unorm_D0 in Hnorm.
  assert (Hu : u = Decimal.Nil \/ u <> Decimal.Nil)
    by (destruct u; [left; reflexivity | right; discriminate ..]).
  destruct Hu as [-> | Hu].
  - assert (Nat.of_uint (Nat.to_uint n) = 0) by (rewrite E; reflexivity).
    rewrite DecimalNat.Unsigned.of_to in H. lia.
  - pose proof (DecimalFacts.nb_digits_unorm u Hu) as Hlen.
    rewrite Hnorm in Hlen. simpl in Hlen. lia.
Qed.

(** Digits that start with a digit from 1 to 9 are the numeral of a positive
    number. *)
Lemma numeral_of_digits c rest :
  digit_1_9 c = true -> chars_all digit rest = true ->
  exists n, 1 <= n /\ String c rest = str_nat n.
Proof.
  intros Hc Hrest.
  assert (Hall : chars_all digit (String c rest) = true)
    by (simpl; rewrite (digit_1_9_digit c Hc), Hrest; reflexivity).
  destruct (uint_of_digits _ Hall) as [d [Hus Hsu]].
  assert (Hnorm : Decimal.unorm d = d).
  { destruct d as [|u|u|u|u|u|u|u|u|u|u]; try reflexivity.
    - simpl in Hsu. discriminate Hsu.
    - simpl in Hsu. inversion Hsu; subst c. discriminate Hc. }
  exists (Nat.of_uint d). split.
  - destruct (Nat.of_uint d) eqn:E; [ | lia]. exfalso.
    pose proof (DecimalNat.Unsigned.to_of d) as H. rewrite E, Hnorm in H.
    subst d. simpl in Hsu. inversion Hsu; subst c. discriminate Hc.
  - rewrite str_nat_eq, DecimalNat.Unsigned.to_of, Hnorm. symmetry. exact Hsu.
Qed.

Lemma digits_no_line_feed s :
  chars_all digit s = true -> without_final_line_feed s = None.
Proof.
  induction s as [|c s IH]; [reflexivity|].
  intros H. simpl in H. apply andb_prop in H. destruct H as [Hc Hs].
  destruct s as [|c' s'].
  - simpl. destruct (Ascii.eqb_spec c line_feed) as [E|E]; [ | reflexivity].
    subst c. discriminate Hc.
  - change (without_final_line_feed (String c (String c' s')))
      with (match without_final_line_feed (String c' s') with
            | Some u => Some (String c u)
            | None => None
            end).
    rewrite (IH Hs). reflexivity.
Qed.

Lemma of_uint_leading_zero d : Nat.of_uint (Decimal.D0 d) = Nat.of_uint d.
Proof.
  rewrite <- (DecimalNat.Unsigned.of_uint_norm (Decimal.D0 d)).
  rewrite DecimalFacts.unorm_D0. apply DecimalNat.Unsigned.of_uint_norm.
Qed.

(** [int] reads a numeral behind a zero, with or without a line feed behind
    it. *)
Lemma py_int_zero_numeral n tail :
  tail = EmptyString \/ tail = String line_feed EmptyString ->
  py_int (String "0" (str_nat n) ++ tail)%string = Returns (Z.of_nat n).
Proof.
  intros Htail.
  assert (Hdig : chars_all digit (String "0" (str_nat n)) = true)
    by (simpl; apply str_nat_digits).
  assert (Hstrip : match without_final_line_feed
                           (String "0" (str_nat n) ++ tail)%string with
                   | Some t => t
                   | None => (String "0" (str_nat n) ++ tail)%string
                   end = String "0" (str_nat n)).
  { destruct Htail as [-> | ->].
    - rewrite append_nil_r, (digits_no_line_feed _ Hdig). reflexivity.
    - rewrite (proj2 (without_final_line_feed_spec _ _) eq_refl).
      reflexivity. }
  unfold py_int. rewrite Hstrip.
  cbn [DecimalString.NilEmpty.uint_of_string].
  rewrite str_nat_eq, DecimalString.NilEmpty.usu. simpl.
  rewrite of_uint_leading_zero, DecimalNat.Unsigned.of_to. reflexivity.
Qed.

Lemma digit_not_dot c : digit c = true -> Ascii.eqb c "."%char = false.
Proof.
  intros H. apply digit_cases in H. simpl in H.
  repeat (destruct H as [<- | H]; [reflexivity|]). destruct H.
Qed.

Lemma split_dot_digits s :
  chars_all digit s = true -> split_dot s = [s].
Proof.
  induction s as [|c s IH]; [reflexivity|].
  intros H. simpl in H. apply andb_prop in H. destruct H as [Hc Hs].
  simpl. rewrite (digit_not_dot c Hc), (IH Hs). reflexivity.
Qed.

Lemma split_dot_two a b :
  chars_all digit a = true -> chars_all digit b = true ->
  split_dot (a ++ String "." b)%string = [a; b].
Proof.
  intros Ha Hb. induction a as [|c a IH].
  - simpl. rewrite (split_dot_digits b Hb). reflexivity.
  - simpl in Ha. apply andb_prop in Ha. destruct Ha as [Hc Ha].
    simpl. rewrite (digit_not_dot c Hc), (IH Ha). reflexivity.
Qed.

Lemma chars_all_append p a b :
  chars_all p (a ++ b)%string = chars_all p a && chars_all p b.
Proof.
  induction a as [|c a IH]; simpl; [reflexivity|].
  rewrite IH, andb_assoc. reflexivity.
Qed.

Lemma py_str_of_nat n : py_str (Z.of_nat n) = str_nat n.
Proof.
  unfold py_str. destruct (Z.of_nat n) eqn:E.
  - replace n with 0 by lia. reflexivity.
  - rewrite <- E, Nat2Z.id. reflexivity.
  - lia.
Qed.

End DigitFacts.

Section IativerFacts.

Import ZArith.
Import IatiVersion.

Lemma lang_lit c s : lang (Lit c) s <-> s = String c EmptyString.
Proof.
  simpl. split.
  - intros [c' [Hc ->]]. apply Ascii.eqb_eq in Hc. subst. reflexivity.
  - intros ->. exists c. split; [apply Ascii.eqb_refl | reflexivity].
Qed.

Lemma lang_opt_digits s :
  lang (Opt (Many1 digit)) s <-> chars_all digit s = true.
Proof.
  simpl. split.
  - intros [[_ H] | ->]; [exact H | reflexivity].
  - intros H. destruct s; [right; reflexivity | left].
    split; [discriminate | exact H].
Qed.

Lemma lang_seq_lit c r s :
  lang (Seq (Lit c) r) s <-> exists rest, s = String c rest /\ lang r rest.
Proof.
  change (lang (Seq (Lit c) r) s)
    with (exists s1 s2, s = (s1 ++ s2)%string /\ lang (Lit c) s1 /\ lang r s2).
  split.
  - intros [s1 [s2 [-> [H1 H2]]]]. apply lang_lit in H1. subst s1.
    exists s2. split; [reflexivity | exact H2].
  - intros [rest [-> H]]. exists (String c EmptyString), rest.
    split; [reflexivity | split; [apply lang_lit; reflexivity | exact H]].
Qed.

Lemma lang_seq_class p r s :
  lang (Seq (Class p) r) s <->
  exists c rest, s = String c rest /\ p c = true /\ lang r rest.
Proof.
  simpl. split.
  - intros [s1 [s2 [-> [[c [Hc ->]] H2]]]]. exists c, s2. auto.
  - intros [c [rest [-> [Hc H]]]].
    exists (String c EmptyString), rest.
    split; [reflexivity | split; [exists c; auto | exact H]].
Qed.

Lemma digit_1_9_numeral c :
  digit_1_9 c = true ->
  exists d, 1 <= d <= 9 /\ String c EmptyString = str_nat d.
Proof.
  intros H. apply between_cases in H. destruct H as [n [Hn ->]].
  exists (n - 48). split; [lia|].
  assert (n = 49 \/ n = 50 \/ n = 51 \/ n = 52 \/ n = 53 \/
          n = 54 \/ n = 55 \/ n = 56 \/ n = 57) as Hc by lia.
  repeat (destruct Hc as [-> | Hc]; [reflexivity|]).
  subst. reflexivity.
Qed.

Lemma numeral_digit_1_9 d :
  1 <= d <= 9 ->
  exists c, digit_1_9 c = true /\ str_nat d = String c EmptyString.
Proof.
  intros H.
  assert (d = 1 \/ d = 2 \/ d = 3 \/ d = 4 \/ d = 5 \/
          d = 6 \/ d = 7 \/ d = 8 \/ d = 9) as Hc by lia.
  repeat (destruct Hc as [-> | Hc];
          [eexists; split; [ | reflexivity]; reflexivity|]).
  subst. eexists. split; [ | reflexivity]. reflexivity.
Qed.

(** [\.0[1-9]] *)
Lemma lang_single_decimal s :
  lang (Seq (Lit ".") (Seq (Lit "0") (Class digit_1_9))) s <->
  exists d, 1 <= d <= 9 /\ s = (".0" ++ str_nat d)%string.
Proof.
  rewrite lang_seq_lit. split.
  - intros [r1 [-> H]]. apply lang_seq_lit in H. destruct H as [r2 [-> H]].
    destruct H as [c [Hc ->]].
    destruct (digit_1_9_numeral c Hc) as [d [Hd E]].
    exists d. split; [exact Hd|]. simpl. rewrite <- E. reflexivity.
  - intros [d [Hd ->]]. destruct (numeral_digit_1_9 d Hd) as [c [Hc E]].
    eexists. split; [reflexivity|]. apply lang_seq_lit.
    eexists. split; [reflexivity|]. exists c. split; [exact Hc | exact E].
Qed.

(** [\.0[1-9](\d+)?] *)
Lemma lang_decimal s :
  lang (Seq (Lit ".") (Seq (Lit "0")
          (Seq (Class digit_1_9) (Opt (Many1 digit))))) s <->
  exists d, 1 <= d /\ s = (".0" ++ str_nat d)%string.
Proof.
  rewrite lang_seq_lit. split.
  - intros [r1 [-> H]]. apply lang_seq_lit in H. destruct H as [r2 [-> H]].
    apply lang_seq_class in H. destruct H as [c [rest [-> [Hc H]]]].
    apply lang_opt_digits in H.
    destruct (numeral_of_digits c rest Hc H) as [d [Hd E]].
    exists d. split; [exact Hd|]. simpl. rewrite <- E. reflexivity.
  - intros [d [Hd ->]].
    destruct (str_nat_positive d Hd) as [c [rest [E [Hc Hrest]]]].
    eexists. split; [reflexivity|]. apply lang_seq_lit.
    eexists. split; [reflexivity|]. apply lang_seq_class.
    exists c, rest. split; [exact E | split; [exact Hc|]].
    apply lang_opt_digits. exact Hrest.
Qed.

(** [(1\d+)|([2-9](\d+)?)] *)
Lemma lang_integer s :
  lang (Alt (Seq (Lit "1") (Many1 digit))
            (Seq (Class digit_2_9) (Opt (Many1 digit)))) s <->
  exists i, 2 <= i /\ s = str_nat i.
Proof.
  change (lang (Alt (Seq (Lit "1") (Many1 digit))
                    (Seq (Class digit_2_9) (Opt (Many1 digit)))) s)
    with (lang (Seq (Lit "1") (Many1 digit)) s \/
          lang (Seq (Class digit_2_9) (Opt (Many1 digit))) s).
  rewrite lang_seq_lit, lang_seq_class. split.
  - intros [[rest [-> [Hne Hall]]] | [c [rest [-> [Hc H]]]]].
    + destruct (numeral_of_digits "1" rest eq_refl Hall) as [i [Hi E]].
      exists i. split; [ | exact E].
      destruct (Nat.eq_dec i 1) as [-> | Hi1]; [ | lia].
      exfalso. change (str_nat 1) with "1"%string in E.
      inversion E. congruence.
    + apply lang_opt_digits in H.
      destruct (numeral_of_digits c rest (digit_2_9_digit_1_9 c Hc) H)
        as [i [Hi E]].
      exists i. split; [ | exact E].
      destruct (Nat.eq_dec i 1) as [-> | Hi1]; [ | lia].
      exfalso. change (str_nat 1) with "1"%string in E.
      inversion E. subst c. discriminate Hc.
  - intros [i [Hi ->]].
    destruct (str_nat_positive i) as [c [rest [E [Hc Hrest]]]]; [lia|].
    rewrite E.
    destruct (Ascii.eqb_spec c "1"%char) as [-> | Hne].
    + left. exists rest. split; [reflexivity|]. split; [ | exact Hrest].
      intros ->. change "1"%string with (str_nat 1) in E.
      apply str_nat_inj in E. lia.
    + right. exists c, rest. split; [reflexivity|]. split.
      * apply between_cases in Hc. destruct Hc as [n [Hn ->]].
        unfold digit_2_9, between.
        rewrite nat_ascii_embedding by lia.
        assert (n <> 49) by (intros ->; apply Hne; reflexivity).
        apply andb_true_intro. split; apply Nat.leb_le; lia.
      * apply lang_opt_digits. exact Hrest.
Qed.

(** The texts of the pattern are the IATIver texts of the permitted
    numbers. *)
Lemma lang_iativer s :
  lang iativer_re s <-> exists i d, permitted i d /\ s = iativer_text i d.
Proof.
  unfold iativer_re, iativer_text, permitted.
  match goal with
  | |- lang (Alt ?a ?b) s <-> _ => change (lang (Alt a b) s) with (lang a s \/ lang b s)
  end.
  rewrite lang_seq_lit. split.
  - intros [[rest [-> H]] | H].
    + apply lang_single_decimal in H. destruct H as [d [Hd ->]].
      exists 1, d. split; [lia | reflexivity].
    + destruct H as [s1 [s2 [-> [H1 H2]]]].
      apply lang_integer in H1. destruct H1 as [i [Hi ->]].
      apply lang_decimal in H2. destruct H2 as [d [Hd ->]].
      exists i, d. split; [lia | reflexivity].
  - intros [i [d [[Hi [Hd H1]] ->]]].
    destruct (Nat.eq_dec i 1) as [-> | Hne].
    + left. exists (".0" ++ str_nat d)%string. split; [reflexivity|].
      apply lang_single_decimal. exists d. split; [ | reflexivity].
      specialize (H1 eq_refl). lia.
    + right. exists (str_nat i), (".0" ++ str_nat d)%string.
      split; [reflexivity | split].
      * apply lang_integer. exists i. split; [lia | reflexivity].
      * apply lang_decimal. exists d. split; [exact Hd | reflexivity].
Qed.

End IativerFacts.

Section VersionFacts.

Import ZArith.
Import IatiVersion.

Variable parent_init : string -> outcome version.
Variable validate : string -> bool.
Variable parent_new : string -> outcome version.

Lemma is_iativer_spec text :
  re_match iativer_re text = true <->
  exists i d tail, permitted i d /\ line_end tail /\
                   text = (iativer_text i d ++ tail)%string.
Proof.
  rewrite re_match_spec. split.
  - intros [H | [t [-> H]]]; apply lang_iativer in H;
      destruct H as [i [d [Hp ->]]].
    + exists i, d, EmptyString. split; [exact Hp | split; [left; reflexivity|]].
      rewrite append_nil_r. reflexivity.
    + exists i, d, (String line_feed EmptyString).
      split; [exact Hp | split; [right; reflexivity | reflexivity]].
  - intros [i [d [tail [Hp [[-> | ->] ->]]]]].
    + left. rewrite append_nil_r. apply lang_iativer. exists i, d. auto.
    + right. exists (iativer_text i d). split; [reflexivity|].
      apply lang_iativer. exists i, d. auto.
Qed.

Lemma chars_all_weaken (p q : ascii -> bool) s :
  (forall c, p c = true -> q c = true) ->
  chars_all p s = true -> chars_all q s = true.
Proof.
  intros Hpq. induction s as [|c s IH]; [reflexivity|]. simpl.
  intros H. apply andb_prop in H. destruct H as [Hc Hs].
  rewrite (Hpq c Hc), (IH Hs). reflexivity.
Qed.

Lemma digit_is_not_dot c : digit c = true -> not_dot c = true.
Proof. intros H. unfold not_dot. rewrite (digit_not_dot c H). reflexivity. Qed.

Lemma split_dot_free s : chars_all not_dot s = true -> split_dot s = [s].
Proof.
  induction s as [|c s IH]; [reflexivity|].
  intros H. simpl in H. apply andb_prop in H. destruct H as [Hc Hs].
  unfold not_dot in Hc. apply negb_true_iff in Hc.
  simpl. rewrite Hc, (IH Hs). reflexivity.
Qed.

Lemma split_dot_first a b :
  chars_all not_dot a = true -> chars_all not_dot b = true ->
  split_dot (a ++ String "." b)%string = [a; b].
Proof.
  intros Ha Hb. induction a as [|c a IH].
  - simpl. rewrite (split_dot_free b Hb). reflexivity.
  - simpl in Ha. apply andb_prop in Ha. destruct Ha as [Hc Ha].
    unfold not_dot in Hc. apply negb_true_iff in Hc.
    simpl. rewrite Hc, (IH Ha). reflexivity.
Qed.

Lemma str_nat_dot_free n : chars_all not_dot (str_nat n) = true.
Proof.
  apply (chars_all_weaken digit); [exact digit_is_not_dot|].
  apply str_nat_digits.
Qed.

(** What the constructor does with an IATIver text. *)
Lemma init_of_iativer_text i d tail :
  permitted i d -> line_end tail ->
  __init__ parent_init validate parent_new
           (Str (iativer_text i d ++ tail)%string)
  = as_value_error (parent_init (semver_text i d)).
Proof.
  intros Hp Htail.
  assert (Hmatch : re_match iativer_re (iativer_text i d ++ tail)%string = true)
    by (apply is_iativer_spec; exists i, d, tail; auto).
  unfold __init__. cbn [_is_iatidecimal _is_iativer then_]. rewrite Hmatch.
  assert (Hsplit : split_dot (iativer_text i d ++ tail)%string
                   = [str_nat i; (String "0" (str_nat d) ++ tail)%string]).
  { unfold iativer_text. rewrite append_assoc.
    change ((".0" ++ str_nat d) ++ tail)%string
      with (String "." (String "0" (str_nat d) ++ tail))%string.
    apply split_dot_first; [apply str_nat_dot_free|].
    change (String "0" (str_nat d) ++ tail)%string
      with (String "0" (str_nat d ++ tail))%string.
    cbn [chars_all]. rewrite chars_all_append, str_nat_dot_free.
    destruct Htail as [-> | ->]; reflexivity. }
  rewrite Hsplit. cbn [item nth_error then_].
  rewrite (py_int_zero_numeral d tail Htail). cbn [then_].
  destruct Hp as [_ [Hd _]].
  replace (Z.of_nat d - 1)%Z with (Z.of_nat (d - 1)) by lia.
  rewrite py_str_of_nat. reflexivity.
Qed.

Lemma count_dots_append a b :
  count_dots (a ++ b)%string = count_dots a + count_dots b.
Proof.
  induction a as [|c a IH]; simpl; [reflexivity | rewrite IH; lia].
Qed.

Lemma count_dots_free s : chars_all not_dot s = true -> count_dots s = 0.
Proof.
  induction s as [|c s IH]; [reflexivity|]. simpl. intros H.
  apply andb_prop in H. destruct H as [Hc Hs].
  unfold not_dot in Hc. apply negb_true_iff in Hc. rewrite Hc, (IH Hs).
  reflexivity.
Qed.

Lemma py_str_dot_free z : chars_all not_dot (py_str z) = true.
Proof.
  unfold py_str. destruct z; [apply str_nat_dot_free .. | ].
  change ("-" ++ str_nat (Pos.to_nat p))%string
    with (String "-" (str_nat (Pos.to_nat p))).
  cbn [chars_all]. apply str_nat_dot_free.
Qed.

Lemma py_str_nonneg_digit z :
  (0 <= z)%Z -> chars_all digit (py_str z) = true.
Proof. intros H. destruct z; try apply str_nat_digits. lia. Qed.

Lemma py_str_inj a b : py_str a = py_str b -> a = b.
Proof.
  assert (Hneg : forall p z, (0 <= z)%Z -> py_str (Zneg p) <> py_str z).
  { intros p z Hz E. pose proof (py_str_nonneg_digit z Hz) as Hd.
    rewrite <- E in Hd. discriminate Hd. }
  assert (Hpos : forall x y, (0 <= x)%Z -> (0 <= y)%Z ->
                             py_str x = py_str y -> x = y).
  { intros x y Hx Hy E.
    assert (Z.to_nat x = Z.to_nat y); [ | lia].
    apply str_nat_inj. destruct x, y; try lia; exact E. }
  destruct a as [|pa|pa], b as [|pb|pb]; intros E;
    try (apply Hpos; [lia | lia | exact E]).
  - exfalso. symmetry in E. revert E. apply Hneg. lia.
  - exfalso. symmetry in E. revert E. apply Hneg. lia.
  - exfalso. revert E. apply Hneg. lia.
  - exfalso. revert E. apply Hneg. lia.
  - simpl in E. inversion E as [E']. apply str_nat_inj in E'. lia.
Qed.

Lemma split_at_first_dot a b x y :
  chars_all not_dot a = true -> chars_all not_dot b = true ->
  (a ++ String "." x)%string = (b ++ String "." y)%string ->
  a = b /\ x = y.
Proof.
  revert b. induction a as [|c a IH]; intros b Ha Hb E.
  - destruct b as [|c' b]; simpl in E.
    + inversion E. auto.
    + inversion E; subst c'. simpl in Hb. discriminate Hb.
  - destruct b as [|c' b]; simpl in E.
    + inversion E; subst c. simpl in Ha. discriminate Ha.
    + inversion E; subst c'. simpl in Ha, Hb.
      apply andb_prop in Ha. apply andb_prop in Hb.
      destruct (IH b (proj2 Ha) (proj2 Hb) H1) as [-> ->]. auto.
Qed.

Lemma decimal_1_0_reading (dec : PyDecimal) (k : Z) :
  (1 <= k <= 9)%Z ->
  decimal_eqb dec (decimal_1_0 k) = true ->
  int_of_decimal dec = 1%Z /\
  int_of_decimal (times dec 100) = (100 + k)%Z.
Proof.
  intros Hk H. destruct dec as [c e].
  unfold decimal_eqb, scaled, decimal_1_0 in H. cbn [coefficient exponent] in H.
  apply Z.eqb_eq in H.
  unfold int_of_decimal, times. cbn [coefficient exponent].
  destruct (Z.le_gt_cases e (-2)) as [He | He].
  - rewrite Z.min_l in H by lia.
    replace (e - e)%Z with 0%Z in H by lia.
    rewrite Z.pow_0_r, Z.mul_1_r in H.
    set (j := (-2 - e)%Z) in *.
    assert (Hj : (0 <= j)%Z) by lia.
    assert (Hpow : (10 ^ (- e) = 100 * 10 ^ j)%Z).
    { replace (- e)%Z with (2 + j)%Z by lia.
      rewrite Z.pow_add_r by lia. reflexivity. }
    assert (Hpos : (0 < 10 ^ j)%Z) by (apply Z.pow_pos_nonneg; lia).
    replace (0 <=? e)%Z with false by (symmetry; apply Z.leb_gt; lia).
    rewrite Hpow, H. split.
    + rewrite Z.quot_mul_cancel_r by lia.
      assert (k = 1 \/ k = 2 \/ k = 3 \/ k = 4 \/ k = 5 \/
              k = 6 \/ k = 7 \/ k = 8 \/ k = 9)%Z as Hc by lia.
      repeat (destruct Hc as [-> | Hc]; [reflexivity|]).
      subst. reflexivity.
    + replace ((100 + k) * 10 ^ j * 100)%Z
        with ((100 + k) * (100 * 10 ^ j))%Z by ring.
      apply Z.quot_mul. lia.
  - exfalso. rewrite Z.min_r in H by lia.
    replace (-2 - -2)%Z with 0%Z in H by lia.
    rewrite Z.pow_0_r, Z.mul_1_r in H.
    replace (e - -2)%Z with (Z.succ (e + 1)) in H by lia.
    rewrite Z.pow_succ_r in H by lia.
    set (X := (10 ^ (e + 1))%Z) in *.
    assert (Hx : (c * (10 * X) = 10 * (c * X))%Z) by ring.
    rewrite Hx in H. lia.
Qed.

End VersionFacts.

Section VersionProperties.

Import ZArith.
Import IatiVersion.

(** The constructor never leaves the texts that [int] is embedded for, as
    long as the parent class does not. *)
Lemma init_reads_within_reach parent_init validate parent_new (v : arg) :
  (forall text, parent_init text <> Unread) ->
  (forall text, parent_new text <> Unread) ->
  __init__ parent_init validate parent_new v <> Unread.
Proof.
  intros Hinit Hnew. destruct v as [text | dec |].
  - destruct (re_match iativer_re text) eqn:Hm.
    + apply is_iativer_spec in Hm.
      destruct Hm as [i [d [tail [Hp [Htail ->]]]]].
      rewrite init_of_iativer_text by assumption.
      specialize (Hinit (semver_text i d)).
      destruct (parent_init (semver_text i d)) as [w|[]|];
        cbn [as_value_error]; congruence.
    + unfold __init__. cbn [_is_iatidecimal _is_iativer then_].
      rewrite Hm. unfold _is_semver.
      specialize (Hnew text). specialize (Hinit text).
      destruct (parent_new text) as [p|[]|]; cbn [then_ as_value_error];
        try congruence.
      destruct (validate text && negb (major p =? 0)%Z);
        [ | cbn [as_value_error]; congruence].
      destruct (parent_init text) as [w|[]|]; cbn [as_value_error];
        congruence.
  - unfold __init__. destruct (_is_iatidecimal (Dec dec)).
    + match goal with
      | |- as_value_error (parent_init ?t) <> _ =>
          specialize (Hinit t); destruct (parent_init t) as [w|[]|]
      end; cbn [as_value_error]; congruence.
    + cbn [_is_iativer then_ as_value_error]. congruence.
  - discriminate.
Qed.

(** X15: [_is_iativer] accepts a text exactly when it is the IATIver text
    of permitted numbers: an integer from 1 on without leading zero, a dot,
    a zero, and a decimal from 1 on without further leading zero, where the
    integer 1 goes with the decimals 1 to 9 only; one final line feed is
    let through. *)
Theorem iativer_pattern_accepts (text : string) :
  _is_iativer (Str text) = Returns true <->
  exists i d tail, permitted i d /\ line_end tail /\
                   text = (iativer_text i d ++ tail)%string.
Proof.
  rewrite <- is_iativer_spec. unfold _is_iativer. split.
  - intros H. inversion H. reflexivity.
  - intros ->. reflexivity.
Qed.

(** X16: an IATIver text of permitted numbers, with or without a final line
    feed, reaches the parent class as the SemVer text with the decimal
    lowered by one, and a [TypeError] or [ValueError] of the parent comes
    out as [ValueError].
    When the parent reads that text as its three numbers, the version is
    built and gives back the text it was built from: as a string, as
    SemVer string, as integer and as decimal. *)
Theorem iativer_text_round_trip
  parent_init validate parent_new (i d : nat) (tail : string) :
  permitted i d ->
  line_end tail ->
  __init__ parent_init validate parent_new
           (Str (iativer_text i d ++ tail)%string)
  = as_value_error (parent_init (semver_text i d)) /\
  (parent_init (semver_text i d)
   = Returns (mkVersion (Z.of_nat i) (Z.of_nat (d - 1)) 0) ->
   exists v,
     __init__ parent_init validate parent_new
              (Str (iativer_text i d ++ tail)%string) = Returns v /\
     __str__ v = iativer_text i d /\
     semver_str v = semver_text i d /\
     integer v = Z.of_nat i /\
     decimal v = Z.of_nat d).
Proof.
  intros Hp Htail.
  pose proof (init_of_iativer_text parent_init validate parent_new
                i d tail Hp Htail) as Hinit.
  split; [exact Hinit|].
  intros Hparent. rewrite Hparent in Hinit. cbn [as_value_error] in Hinit.
  eexists. split; [exact Hinit|].
  destruct Hp as [_ [Hd _]].
  unfold __str__, iativer_str, semver_str, integer, decimal, semver_text,
    iativer_text.
  cbn [major minor patch String.concat].
  replace (Z.of_nat (d - 1) + 1)%Z with (Z.of_nat d) by lia.
  rewrite !py_str_of_nat.
  repeat split; try reflexivity; lia.
Qed.

Lemma iativer_text_round_trip_witness :
  exists v,
    __init__ sample_parent (fun _ => false) (fun _ => Raises ValueError)
             (Str "2.010") = Returns v /\
    __str__ v = "2.010" /\
    semver_str v = "2.9.0" /\
    integer v = 2%Z /\
    decimal v = 10%Z.
Proof.
  refine (proj2 (iativer_text_round_trip sample_parent (fun _ => false)
                   (fun _ => Raises ValueError) 2 10 EmptyString _ _) _).
  - unfold permitted. lia.
  - left. reflexivity.
  - reflexivity.
Defined.

(** X17: a [Decimal] that equals one of 1.01 to 1.09 as a number, however
    it is written, is treated like the text of that number: both reach the
    parent class as the same SemVer text. *)
Theorem decimal_agrees_with_text
  parent_init validate parent_new (dec : PyDecimal) (k : nat) :
  1 <= k <= 9 ->
  decimal_eqb dec (decimal_1_0 (Z.of_nat k)) = true ->
  __init__ parent_init validate parent_new (Dec dec)
  = __init__ parent_init validate parent_new (Str (iativer_text 1 k)) /\
  __init__ parent_init validate parent_new (Dec dec)
  = as_value_error (parent_init (semver_text 1 k)).
Proof.
  intros Hk Heq.
  assert (Htext : __init__ parent_init validate parent_new
                           (Str (iativer_text 1 k))
                  = as_value_error (parent_init (semver_text 1 k))).
  { rewrite <- (append_nil_r (iativer_text 1 k)).
    apply init_of_iativer_text; [unfold permitted; lia | left; reflexivity]. }
  assert (Hdec : __init__ parent_init validate parent_new (Dec dec)
                 = as_value_error (parent_init (semver_text 1 k))).
  { destruct (decimal_1_0_reading dec (Z.of_nat k)) as [H1 H100];
      [lia | exact Heq |].
    unfold __init__.
    assert (_is_iatidecimal (Dec dec) = true) as ->.
    { unfold _is_iatidecimal. apply existsb_exists.
      exists (decimal_1_0 (Z.of_nat k)). split; [ | exact Heq].
      assert (k = 1 \/ k = 2 \/ k = 3 \/ k = 4 \/ k = 5 \/
              k = 6 \/ k = 7 \/ k = 8 \/ k = 9) as Hc by lia.
      repeat (destruct Hc as [-> | Hc]; [simpl; tauto|]).
      subst. simpl. tauto. }
    rewrite H1, H100.
    replace (100 + Z.of_nat k - 101)%Z with (Z.of_nat (k - 1)) by lia.
    rewrite py_str_of_nat. reflexivity. }
  split; [rewrite Hdec, Htext; reflexivity | exact Hdec].
Qed.

Lemma decimal_agrees_with_text_witness :
  __init__ sample_parent (fun _ => false) (fun _ => Raises ValueError)
           (Dec (mkDecimal 1010 (-3)))
  = __init__ sample_parent (fun _ => false) (fun _ => Raises ValueError)
             (Str "1.01").
Proof.
  refine (proj1 (decimal_agrees_with_text sample_parent (fun _ => false)
                   (fun _ => Raises ValueError) (mkDecimal 1010 (-3)) 1 _ _)).
  - lia.
  - reflexivity.
Defined.

(** X18: what the constructor turns down.  An argument that is neither a
    text nor a [Decimal] raises [TypeError]; a [Decimal] that equals none
    of 1.01 to 1.09 raises [ValueError]; so does a text that is no IATIver
    text and that the parent class either refuses, or does not validate, or
    reads with major number 0. *)
Theorem unpermitted_arguments_raise parent_init validate parent_new :
  __init__ parent_init validate parent_new Other = Raises TypeError /\
  (forall dec,
      _is_iatidecimal (Dec dec) = false ->
      __init__ parent_init validate parent_new (Dec dec) = Raises ValueError) /\
  (forall text,
      _is_iativer (Str text) = Returns false ->
      parent_new text = Raises ValueError \/
      parent_new text = Raises TypeError \/
      (exists parsed, parent_new text = Returns parsed /\
                      (validate text = false \/ major parsed = 0%Z)) ->
      __init__ parent_init validate parent_new (Str text)
      = Raises ValueError).
Proof.
  split; [reflexivity | split].
  - intros dec H. unfold __init__. rewrite H. reflexivity.
  - intros text Hm Hwhy. unfold __init__.
    cbn [_is_iatidecimal]. rewrite Hm. cbn [then_]. unfold _is_semver.
    destruct Hwhy as [Hp | [Hp | [parsed [Hp Hwhy]]]]; rewrite Hp;
      try reflexivity.
    destruct Hwhy as [Hv | Hz].
    + rewrite Hv. reflexivity.
    + rewrite Hz. rewrite andb_false_r. reflexivity.
Qed.

Lemma unpermitted_arguments_raise_witness :
  __init__ sample_parent (fun _ => true)
           (fun _ => Returns (mkVersion 0 1 0)) (Str "0.1.0")
  = Raises ValueError.
Proof.
  refine (proj2 (proj2 (unpermitted_arguments_raise sample_parent
                          (fun _ => true)
                          (fun _ => Returns (mkVersion 0 1 0))))
                "0.1.0" _ _).
  - reflexivity.
  - right. right. exists (mkVersion 0 1 0). split; [reflexivity|].
    right. reflexivity.
Defined.

(** X19: the IATIver string tells versions apart: two versions with the
    same IATIver string have the same integer and the same decimal. *)
Theorem iativer_str_is_unambiguous (v w : version) :
  iativer_str v = iativer_str w ->
  integer v = integer w /\ decimal v = decimal w.
Proof.
  unfold iativer_str. intros H.
  apply split_at_first_dot in H; try apply py_str_dot_free.
  destruct H as [Hi Hd]. split; [apply py_str_inj; exact Hi|].
  inversion Hd as [Hd']. apply py_str_inj. exact Hd'.
Qed.

Lemma iativer_str_is_unambiguous_witness :
  integer (mkVersion 2 9 0) = integer (mkVersion 2 9 5) /\
  decimal (mkVersion 2 9 0) = decimal (mkVersion 2 9 5).
Proof.
  apply (iativer_str_is_unambiguous (mkVersion 2 9 0) (mkVersion 2 9 5)).
  reflexivity.
Defined.

(** X20: the SemVer string of a version is never taken for an IATIver
    text: it has two dots where an IATIver text has one. *)
Theorem semver_str_is_not_iativer (v : version) :
  _is_iativer (Str (semver_str v)) = Returns false.
Proof.
  unfold _is_iativer. f_equal.
  destruct (re_match iativer_re (semver_str v)) eqn:H; [ | reflexivity].
  exfalso. apply is_iativer_spec in H.
  destruct H as [i [d [tail [_ [Htail E]]]]].
  assert (Hl : count_dots (semver_str v) = 2).
  { unfold semver_str. cbn [String.concat].
    rewrite !count_dots_append. cbn [count_dots].
    rewrite !count_dots_free by apply py_str_dot_free. reflexivity. }
  assert (Hr : count_dots (iativer_text i d ++ tail)%string = 1).
  { unfold iativer_text. rewrite !count_dots_append. cbn [count_dots].
    rewrite !count_dots_free by apply str_nat_dot_free.
    destruct Htail as [-> | ->]; reflexivity. }
  rewrite E in Hl. lia.
Qed.

(** X21: the decimal that is set is not the decimal that is read: the
    setter stores its value as the minor number and the getter adds one to
    it, so reading gives one more than was set, and setting the decimal to
    the value just read changes the version and its IATIver string.  The
    integer is read as it was set, and neither setter touches the other
    number. *)
Theorem decimal_setter_is_one_off (self : version) (value : Z) :
  decimal (decimal_setter self value) = (value + 1)%Z /\
  iativer_str (decimal_setter self (decimal self)) <> iativer_str self /\
  integer (integer_setter self value) = value /\
  integer (decimal_setter self value) = integer self /\
  decimal (integer_setter self value) = decimal self.
Proof.
  repeat split; try reflexivity.
  intros H. unfold iativer_str in H.
  apply split_at_first_dot in H; try apply py_str_dot_free.
  destruct H as [_ Hd]. inversion Hd as [Hd'].
  apply py_str_inj in Hd'. unfold decimal, decimal_setter in Hd'.
  cbn [minor] in Hd'. lia.
Qed.

End VersionProperties.
